(** * File-Bot-Alternative: the renaming pipeline, embedded and verified

    Sources embedded here:
    - [parser.py]       ([parse_movie], [parse_tv]),
    - [tmdb_client.py]  ([TMDBClient] and its five methods),
    - [main.py]         ([App.scan_folder], [App.get_new_name],
                         [App.rename_files]).

    Conventions of the embedding.
    - A Python [str] is a [list ascii]; a character is read as the code point
      U+0000..U+00FF it denotes, and the character classes of [re] and of
      [str.strip]/[str.lower] below are Python's on that range.
    - [os.path] is [posixpath] (separator [/]).
    - A Python [int] is a [Z].
    - An exception is the text [str(e)] it carries; every exception met here
      derives from [Exception].
    - Stateful code runs in a state-and-exception monad over a [world] that
      holds the application object, the catalog's transport and the disk; a
      raised exception keeps the state reached so far. *)

From Stdlib Require Import Ascii String List ZArith Lia Bool Arith.
From Stdlib Require Import DecimalString.
Import ListNotations.

Open Scope string_scope.
Open Scope list_scope.

(** ** Strings *)

Definition str := list ascii.

(** String literals of the source are written [L"..."]. *)
Notation "'L' s" := (list_ascii_of_string s) (at level 1, s at level 0, format "'L' s").

Definition code (c : ascii) : nat := nat_of_ascii c.

(** The line feed, ['\n']. *)
Definition newline : ascii := ascii_of_nat 10.

Definition chr_eqb (a b : ascii) : bool := Ascii.eqb a b.

Fixpoint str_eqb (a b : str) : bool :=
  match a, b with
  | [], [] => true
  | x :: a', y :: b' => chr_eqb x y && str_eqb a' b'
  | _, _ => false
  end.

Definition between (lo hi n : nat) : bool := Nat.leb lo n && Nat.leb n hi.

(** [\d] on a [str] pattern: the decimal digits (category Nd). *)
Definition is_digit (c : ascii) : bool := between 48 57 (code c).

(** [\s], and what [str.strip()] removes: TAB LF VT FF CR, FS GS RS US,
    SPACE, NEL and NBSP. *)
Definition is_space (c : ascii) : bool :=
  between 9 13 (code c) || between 28 32 (code c)
  || Nat.eqb (code c) 133 || Nat.eqb (code c) 160.

(** [str.isalnum] on one character: letters, digits and the numeric signs. *)
Definition is_alnum (c : ascii) : bool :=
  between 48 57 (code c) || between 65 90 (code c) || between 97 122 (code c)
  || Nat.eqb (code c) 170 || Nat.eqb (code c) 181 || Nat.eqb (code c) 186
  || between 178 179 (code c) || Nat.eqb (code c) 185 || between 188 190 (code c)
  || between 192 214 (code c) || between 216 246 (code c) || between 248 255 (code c).

(** [\w] is an alphanumeric or the underscore; [\W] is its complement. *)
Definition is_word (c : ascii) : bool := is_alnum c || Nat.eqb (code c) 95.
Definition is_nonword (c : ascii) : bool := negb (is_word c).

(** [.] without DOTALL: anything but a line feed. *)
Definition is_dot (c : ascii) : bool := negb (Nat.eqb (code c) 10).

(** [str.lower()] on one character. *)
Definition to_lower (c : ascii) : ascii :=
  if between 65 90 (code c) || between 192 214 (code c) || between 216 222 (code c)
  then ascii_of_nat (code c + 32) else c.

Definition lower (s : str) : str := map to_lower s.

(** [sep.join(parts)] *)
Fixpoint str_join (sep : str) (parts : list str) : str :=
  match parts with
  | [] => []
  | [p] => p
  | p :: rest => p ++ sep ++ str_join sep rest
  end.

(** [s.replace(old, new)] for one-character [old] and [new]. *)
Definition replace_chr (old new : ascii) (s : str) : str :=
  map (fun c => if chr_eqb c old then new else c) s.

Fixpoint lstrip (s : str) : str :=
  match s with
  | c :: t => if is_space c then lstrip t else s
  | [] => []
  end.

Definition rstrip (s : str) : str := rev (lstrip (rev s)).

(** [s.strip()] *)
Definition strip (s : str) : str := rstrip (lstrip s).

(** [s.split(sep)] for a one-character [sep]: never empty. *)
Fixpoint split_chr (sep : ascii) (s : str) : list str :=
  match s with
  | [] => [[]]
  | c :: t =>
      if chr_eqb c sep then [] :: split_chr sep t
      else match split_chr sep t with
           | p :: ps => (c :: p) :: ps
           | [] => [[c]]
           end
  end.

(** [s[:n]] and [s[n:]] for [n >= 0]. *)
Definition upto (n : nat) (s : str) : str := firstn n s.
Definition from (n : nat) (s : str) : str := skipn n s.

(** [s.rfind(c)]: the last index of [c], or -1. *)
Fixpoint rfind (c : ascii) (s : str) : Z :=
  match s with
  | [] => (-1)%Z
  | x :: t =>
      let r := rfind c t in
      if (0 <=? r)%Z then (r + 1)%Z
      else if chr_eqb x c then 0%Z else (-1)%Z
  end.

(** [int(s)] for a string of decimal digits, the only strings the parsers
    pass (see [year_re] and [tv_pattern]). *)
Definition digit_val (c : ascii) : Z := Z.of_nat (code c - 48).

Definition int_of_str (s : str) : Z :=
  fold_left (fun acc c => (10 * acc + digit_val c)%Z) s 0%Z.

(** [str(n)] and [f"{n}"] for an [int]. *)
Definition str_of_int (n : Z) : str :=
  list_ascii_of_string (NilZero.string_of_int (Z.to_int n)).

(** [f"{n:02}"]: zero-filled to width two. *)
Definition fmt02 (n : Z) : str :=
  let s := str_of_int n in
  repeat "0"%char (2 - length s) ++ s.

(** ** [os.path] (posixpath) *)

Module PosixPath.

Definition sep : ascii := "/"%char.
Definition extsep : ascii := "."%char.

(** [p[i:j]] for [0 <= i]. *)
Definition slice (i j : Z) (p : str) : str :=
  firstn (Z.to_nat (j - i)) (skipn (Z.to_nat i) p).

(** [genericpath._splitext(p, '/', None, '.')]: the extension starts at the
    last dot of the last component, unless only dots precede it there. *)
Definition splitext (p : str) : str * str :=
  let sepIndex := rfind sep p in
  let dotIndex := rfind extsep p in
  if (sepIndex <? dotIndex)%Z
     && existsb (fun c => negb (chr_eqb c extsep)) (slice (sepIndex + 1) dotIndex p)
  then (upto (Z.to_nat dotIndex) p, from (Z.to_nat dotIndex) p)
  else (p, []).

Definition startswith_sep (p : str) : bool :=
  match p with c :: _ => chr_eqb c sep | [] => false end.

Definition endswith_sep (p : str) : bool :=
  match rev p with c :: _ => chr_eqb c sep | [] => false end.

(** [os.path.join(a, b)] *)
Definition join (a b : str) : str :=
  if startswith_sep b then b
  else if match a with [] => true | _ => endswith_sep a end then a ++ b
  else a ++ sep :: b.

(** [os.path.join] of all the members of a non-empty [parts]. *)
Definition join_all (parts : list str) : str :=
  match parts with
  | [] => []
  | a :: rest => fold_left join rest a
  end.

(** [os.path.basename(p)] *)
Definition basename (p : str) : str :=
  from (Z.to_nat (rfind sep p + 1)) p.

(** [head.rstrip('/')] *)
Fixpoint lstrip_sep (s : str) : str :=
  match s with
  | c :: t => if chr_eqb c sep then lstrip_sep t else s
  | [] => []
  end.

Definition rstrip_sep (s : str) : str := rev (lstrip_sep (rev s)).

(** [os.path.dirname(p)] *)
Definition dirname (p : str) : str :=
  let head := upto (Z.to_nat (rfind sep p + 1)) p in
  if negb (forallb (fun c => chr_eqb c sep) head) then rstrip_sep head else head.

(** [os.path.normpath(path)] *)
Definition normpath (path : str) : str :=
  match path with
  | [] => L"."
  | _ =>
      let initial_slashes :=
        match path with
        | c1 :: c2 :: c3 :: _ =>
            if chr_eqb c1 sep
            then (if chr_eqb c2 sep && negb (chr_eqb c3 sep) then 2 else 1)
            else 0
        | [c1; c2] =>
            if chr_eqb c1 sep then (if chr_eqb c2 sep then 2 else 1) else 0
        | [c1] => if chr_eqb c1 sep then 1 else 0
        | [] => 0
        end%nat in
      let new_comps :=
        fold_left
          (fun new_comps comp =>
             if str_eqb comp [] || str_eqb comp L"." then new_comps
             else if negb (str_eqb comp L"..")
                     || (Nat.eqb initial_slashes 0
                         && match new_comps with [] => true | _ => false end)
                     || match rev new_comps with
                        | l :: _ => str_eqb l L".."
                        | [] => false
                        end
                  then new_comps ++ [comp]
                  else removelast new_comps)
          (split_chr sep path) [] in
      let path' := repeat sep initial_slashes ++ str_join [sep] new_comps in
      match path' with [] => L"." | _ => path' end
  end.

(** [os.path.abspath(path)] with the working directory [cwd]. *)
Definition abspath (cwd path : str) : str :=
  normpath (if startswith_sep path then path else join cwd path).

Fixpoint commonprefix_len (a b : list str) : nat :=
  match a, b with
  | x :: a', y :: b' => if str_eqb x y then S (commonprefix_len a' b') else 0
  | _, _ => 0
  end.

(** [os.path.relpath(path, start)] for a non-empty [path]. *)
Definition relpath (cwd path start : str) : str :=
  let nonempty := filter (fun x => negb (str_eqb x [])) in
  let start_list := nonempty (split_chr sep (abspath cwd start)) in
  let path_list := nonempty (split_chr sep (abspath cwd path)) in
  let i := commonprefix_len start_list path_list in
  let rel_list := repeat L".." (length start_list - i) ++ skipn i path_list in
  match rel_list with
  | [] => L"."
  | _ => join_all rel_list
  end.

End PosixPath.

(** ** [re]: the fragment of the regular expressions the sources use *)

Module Re.

(** Patterns.  Every repetition in the sources is over a single character
    class, so [Rep] repeats a class: [Rep true] is greedy ([+], [{m,n}]),
    [Rep false] lazy ([+?]); no upper bound is [None]. *)
Inductive regex : Type :=
| Lit (c : ascii)
| Cls (p : ascii -> bool)
| Seq (r1 r2 : regex)
| Alt (r1 r2 : regex)
| Rep (greedy : bool) (lo : nat) (hi : option nat) (p : ascii -> bool)
| Grp (name : string) (r : regex).

(** The named groups captured so far, latest first. *)
Definition groups := list (string * str).

(** A literal under [re.IGNORECASE] matches both cases of its letter. *)
Definition lit_match (ignorecase : bool) (c x : ascii) : bool :=
  if ignorecase then chr_eqb (to_lower x) (to_lower c) else chr_eqb x c.

Definition may_repeat (hi : option nat) : bool :=
  match hi with Some O => false | _ => true end.

(** What is left of [s] after each admissible run of [p], in the order the
    backtracking matcher tries the runs: longest first when greedy,
    shortest first when lazy. *)
Fixpoint rep (greedy : bool) (p : ascii -> bool) (lo : nat) (hi : option nat)
         (s : str) : list str :=
  let stop := match lo with O => [s] | S _ => [] end in
  let more :=
    match s with
    | c :: t =>
        if p c && may_repeat hi
        then rep greedy p (Nat.pred lo) (option_map Nat.pred hi) t
        else []
    | [] => []
    end in
  if greedy then more ++ stop else stop ++ more.

(** All the ways [r] matches a prefix of [s], each given by the rest of [s]
    and the groups, in the matcher's order of preference. *)
Fixpoint matches (ignorecase : bool) (r : regex) (s : str) (g : groups)
  : list (str * groups) :=
  match r with
  | Lit c =>
      match s with
      | x :: t => if lit_match ignorecase c x then [(t, g)] else []
      | [] => []
      end
  | Cls p =>
      match s with
      | x :: t => if p x then [(t, g)] else []
      | [] => []
      end
  | Seq r1 r2 =>
      flat_map (fun m => matches ignorecase r2 (fst m) (snd m))
               (matches ignorecase r1 s g)
  | Alt r1 r2 => matches ignorecase r1 s g ++ matches ignorecase r2 s g
  | Rep greedy lo hi p => map (fun t => (t, g)) (rep greedy p lo hi s)
  | Grp name r1 =>
      map (fun m => (fst m, (name, firstn (length s - length (fst m)) s) :: snd m))
          (matches ignorecase r1 s g)
  end.

(** [re.fullmatch]: the preferred match that reaches the end of [s]. *)
Definition fullmatch (ignorecase : bool) (r : regex) (s : str) : option groups :=
  option_map snd
    (find (fun m => match fst m with [] => true | _ => false end)
          (matches ignorecase r s [])).

(** [re.search]: the preferred match at the leftmost position that has one. *)
Fixpoint search (ignorecase : bool) (r : regex) (s : str) : option groups :=
  match matches ignorecase r s [] with
  | m :: _ => Some (snd m)
  | [] =>
      match s with
      | _ :: t => search ignorecase r t
      | [] => None
      end
  end.

(** [match.group(name)] *)
Fixpoint group (g : groups) (name : string) : str :=
  match g with
  | [] => []
  | (n, v) :: g' => if String.eqb n name then v else group g' name
  end.

(** [re.split(r'[...]+', s)] for a class [p]: cut at every maximal run. *)
Fixpoint split_go (p : ascii -> bool) (in_run : bool) (cur : str) (s : str)
  : list str :=
  match s with
  | [] => [cur]
  | c :: t =>
      if p c
      then (if in_run then split_go p true cur t else cur :: split_go p true [] t)
      else split_go p false (cur ++ [c]) t
  end.

Definition split_plus (p : ascii -> bool) (s : str) : list str :=
  split_go p false [] s.

(** [re.sub(r'[...]+', repl, s)]: the pieces between the runs, joined. *)
Definition sub_plus (p : ascii -> bool) (repl : str) (s : str) : str :=
  str_join repl (split_plus p s).

End Re.

(** ** parser.py *)

Record movie_candidate := { title : str; year : option Z }.
Record episode_candidate := { show : str; season : Z; episode : Z }.

(** [(19\d{2}|20\d{2})] *)
Definition year_re : Re.regex :=
  Re.Alt
    (Re.Seq (Re.Lit "1") (Re.Seq (Re.Lit "9") (Re.Rep true 2 (Some 2) is_digit)))
    (Re.Seq (Re.Lit "2") (Re.Seq (Re.Lit "0") (Re.Rep true 2 (Some 2) is_digit))).

(** [(?:\d{3,4}p|4k)] *)
Definition resolution_re : Re.regex :=
  Re.Alt
    (Re.Seq (Re.Rep true 3 (Some 4) is_digit) (Re.Lit "p"))
    (Re.Seq (Re.Lit "4") (Re.Lit "k")).

(** [[.\s]] *)
Definition is_dot_or_space (c : ascii) : bool := chr_eqb c "." || is_space c.

(** The loop [for idx, token in enumerate(parts)] of [parse_movie], entered
    at index [idx] with [rest = parts[idx:]]. *)
Fixpoint year_loop (parts rest : list str) (idx : nat) : option movie_candidate :=
  match rest with
  | [] => None
  | token :: rest' =>
      match Re.fullmatch false year_re token with
      | Some _ =>
          Some {| title := str_join L" " (firstn idx parts);
                  year := Some (int_of_str token) |}
      | None => year_loop parts rest' (S idx)
      end
  end.

Definition parse_movie (filename : str) : option movie_candidate :=
  let name := fst (PosixPath.splitext filename) in
  let parts := Re.split_plus is_dot_or_space name in
  match year_loop parts parts 0 with
  | Some m => Some m
  | None =>
      match parts with
      | p0 :: p1 :: _ =>
          match Re.fullmatch true resolution_re p1 with
          | Some _ => Some {| title := p0; year := None |}
          | None => None
          end
      | _ => None
      end
  end.

(** [[\W_]] *)
Definition is_separator (c : ascii) : bool := is_nonword c || chr_eqb c "_".

(** [(?i)(?P<show>.+?)[\W_]+S(?P<season>\d{1,2})E(?P<episode>\d{2})] *)
Definition tv_pattern : Re.regex :=
  Re.Seq (Re.Grp "show" (Re.Rep false 1 None is_dot))
    (Re.Seq (Re.Rep true 1 None is_separator)
       (Re.Seq (Re.Lit "S")
          (Re.Seq (Re.Grp "season" (Re.Rep true 1 (Some 2) is_digit))
             (Re.Seq (Re.Lit "E")
                (Re.Grp "episode" (Re.Rep true 2 (Some 2) is_digit)))))).

Definition parse_tv (filename : str) : option episode_candidate :=
  let name := fst (PosixPath.splitext filename) in
  match Re.search true tv_pattern name with
  | None => None
  | Some m =>
      Some {| show := strip (replace_chr "." " " (Re.group m "show"));
              season := int_of_str (Re.group m "season");
              episode := int_of_str (Re.group m "episode") |}
  end.

(** ** The world the program runs in *)

(** An exception, as the text [str(e)]. *)
Definition exn := str.

(** The records of the catalog's search results, with the keys the program
    reads; a key may be missing.  Such a record always has further keys, so as
    a [dict] it is never empty (never falsy). *)
Record movie_record :=
  { m_title : option str; m_release_date : option str; m_id : option Z }.
Record tv_record :=
  { t_name : option str; t_first_air_date : option str; t_id : option Z }.

(** The five requests of [TMDBClient], by URL and query parameters. *)
Inductive request : Type :=
| SearchMovie (query : str) (year : option Z)
| SearchTv (query : str) (first_air_date_year : option Z)
| Episode (tv_id season episode : Z)
| MovieExternalIds (movie_id : option Z)
| TvExternalIds (tv_id : Z).

(** What a method reads in the decoded body of the response: the list
    [data.get('results') or []] of a search, the value of [data.get('name')]
    or of [data.get('imdb_id')] otherwise. *)
Definition reply (r : request) : Type :=
  match r with
  | SearchMovie _ _ => list movie_record
  | SearchTv _ _ => list tv_record
  | Episode _ _ _ => option str
  | MovieExternalIds _ => option str
  | TvExternalIds _ => option str
  end.

(** The transport: [requests.get], [raise_for_status] and [response.json] on
    a provider in state [W]; any of them may raise. *)
Definition transport (W : Type) : Type :=
  forall r : request, W -> (exn + reply r) * W.

(** A directory: its regular files and its subdirectories, each list in the
    order the system lists them. *)
#[warnings="-register-all"]
Inductive tree : Type :=
| Dir (files : list str) (dirs : list (str * tree)).

(** The disk, in state [D]: the directory at a path when the path is one
    (what [isdir], [listdir], [isfile] and [os.walk] read), [os.getcwd],
    [os.path.exists], and the two calls that change it; these may raise,
    and return the exception with the state they leave. *)
Record filesystem (D : Type) : Type :=
  { fs_tree : D -> str -> option tree;
    fs_getcwd : D -> str;
    fs_exists : D -> str -> bool;
    fs_makedirs : str -> D -> option exn * D;
    fs_rename : str -> str -> D -> option exn * D }.

Arguments fs_tree {D}.
Arguments fs_getcwd {D}.
Arguments fs_exists {D}.
Arguments fs_makedirs {D}.
Arguments fs_rename {D}.

(** A dialog of [tkinter.messagebox]. *)
Inductive dialog : Type :=
| showerror (title message : str)
| showinfo (title message : str).

(** The attributes and widgets of [App] that scanning and renaming use. *)
Record App : Type :=
  { api_key_entry : str;
    dir_entry : str;
    api_key : str;
    file_preview_list : list (str * str);
    folder_preview_list : list (str * str);
    orig_text : str;
    new_text : str;
    messagebox : list dialog }.

(** One catalog request with the exception it raised, if any; one call of
    [os.rename] likewise. *)
Definition call : Type := request * option exn.
Definition renaming : Type := str * str * option exn.

Record world (W D : Type) : Type :=
  { gui : App;
    net : W;
    calls : list call;
    disk : D;
    renames : list renaming }.

Arguments gui {W D}.
Arguments net {W D}.
Arguments calls {W D}.
Arguments disk {W D}.
Arguments renames {W D}.

(** [os.walk(top)]: top-down, a directory before its subdirectories. *)
Fixpoint walk (top : str) (t : tree) : list (str * list str * list str) :=
  match t with
  | Dir files dirs =>
      (top, map fst dirs, files)
        :: (fix walk_dirs (ds : list (str * tree)) :=
              match ds with
              | [] => []
              | (d, sub) :: ds' => walk (PosixPath.join top d) sub ++ walk_dirs ds'
              end) dirs
  end.

(** [d[k] = v] on a [dict], which keeps the position of a key it has. *)
Fixpoint dict_set (k : str) (v : Z) (d : list (str * Z)) : list (str * Z) :=
  match d with
  | [] => [(k, v)]
  | (k', v') :: d' =>
      if str_eqb k' k then (k', v) :: d' else (k', v') :: dict_set k v d'
  end.

(** [x or ''] *)
Definition or_empty (x : option str) : str :=
  match x with Some s => s | None => [] end.

(** Truth of an [Optional[int]]: neither [None] nor zero. *)
Definition truthy_int (x : option Z) : bool :=
  match x with Some z => negb (z =? 0)%Z | None => false end.

(** Truth of an [Optional[str]]: neither [None] nor empty. *)
Definition truthy_str (x : option str) : bool :=
  match x with Some (_ :: _) => true | _ => false end.

Section Program.

Context {W D : Type}.
Variable tr : transport W.
Variable fs : filesystem D.

(** *** The monad *)

Definition M (A : Type) : Type := world W D -> (exn + A) * world W D.

Definition ret {A} (a : A) : M A := fun w => (inr a, w).

Definition bind {A B} (m : M A) (k : A -> M B) : M B :=
  fun w =>
    match m w with
    | (inr a, w') => k a w'
    | (inl e, w') => (inl e, w')
    end.

Definition raise {A} (e : exn) : M A := fun w => (inl e, w).

(** [try: m except Exception as e: h e] *)
Definition try_except {A} (m : M A) (h : exn -> M A) : M A :=
  fun w =>
    match m w with
    | (inl e, w') => h e w'
    | (inr a, w') => (inr a, w')
    end.

Notation "x <- m ;; k" := (bind m (fun x => k))
  (at level 61, m at next level, right associativity).
Notation "m ;;; k" := (bind m (fun _ => k))
  (at level 61, right associativity).

(** [for x in l: body x] *)
Fixpoint for_each {A} (l : list A) (body : A -> M unit) : M unit :=
  match l with
  | [] => ret tt
  | x :: l' => body x ;;; for_each l' body
  end.

(** A loop that updates a local variable [acc]. *)
Fixpoint for_acc {A B} (l : list A) (acc : B) (body : B -> A -> M B) : M B :=
  match l with
  | [] => ret acc
  | x :: l' => acc' <- body acc x ;; for_acc l' acc' body
  end.

Definition self : M App := fun w => (inr (gui w), w).

Definition update (f : App -> App) : M unit :=
  fun w =>
    (inr tt,
     {| gui := f (gui w); net := net w; calls := calls w;
        disk := disk w; renames := renames w |}).

Definition the_disk : M D := fun w => (inr (disk w), w).

Definition show_dialog (d : dialog) : M unit :=
  update (fun a =>
    {| api_key_entry := api_key_entry a; dir_entry := dir_entry a;
       api_key := api_key a;
       file_preview_list := file_preview_list a;
       folder_preview_list := folder_preview_list a;
       orig_text := orig_text a; new_text := new_text a;
       messagebox := messagebox a ++ [d] |}).

Definition set_api_key (k : str) : M unit :=
  update (fun a =>
    {| api_key_entry := api_key_entry a; dir_entry := dir_entry a;
       api_key := k;
       file_preview_list := file_preview_list a;
       folder_preview_list := folder_preview_list a;
       orig_text := orig_text a; new_text := new_text a;
       messagebox := messagebox a |}).

(** The texts are cleared and both preview lists start empty. *)
Definition clear_previews : M unit :=
  update (fun a =>
    {| api_key_entry := api_key_entry a; dir_entry := dir_entry a;
       api_key := api_key a;
       file_preview_list := [];
       folder_preview_list := [];
       orig_text := []; new_text := [];
       messagebox := messagebox a |}).

(** [self.folder_preview_list.append(e)] *)
Definition folder_preview_append (e : str * str) : M unit :=
  update (fun a =>
    {| api_key_entry := api_key_entry a; dir_entry := dir_entry a;
       api_key := api_key a;
       file_preview_list := file_preview_list a;
       folder_preview_list := folder_preview_list a ++ [e];
       orig_text := orig_text a; new_text := new_text a;
       messagebox := messagebox a |}).

(** [self.file_preview_list.append(e)] *)
Definition file_preview_append (e : str * str) : M unit :=
  update (fun a =>
    {| api_key_entry := api_key_entry a; dir_entry := dir_entry a;
       api_key := api_key a;
       file_preview_list := file_preview_list a ++ [e];
       folder_preview_list := folder_preview_list a;
       orig_text := orig_text a; new_text := new_text a;
       messagebox := messagebox a |}).

(** [self.orig_text.insert(END, o)] and [self.new_text.insert(END, n)] *)
Definition text_insert (o n : str) : M unit :=
  update (fun a =>
    {| api_key_entry := api_key_entry a; dir_entry := dir_entry a;
       api_key := api_key a;
       file_preview_list := file_preview_list a;
       folder_preview_list := folder_preview_list a;
       orig_text := orig_text a ++ o; new_text := new_text a ++ n;
       messagebox := messagebox a |}).

(** *** tmdb_client.py *)

(** One round trip; the request and its outcome are recorded in [calls]. *)
Definition requests_get (r : request) : M (reply r) :=
  fun w =>
    let (res, n') := tr r (net w) in
    (res,
     {| gui := gui w; net := n';
        calls := calls w ++ [(r, match res with inl e => Some e | inr _ => None end)];
        disk := disk w; renames := renames w |}).

(** [if year: params[...] = year] *)
Definition year_param (year : option Z) : option Z :=
  if truthy_int year then year else None.

Definition search_movie (title : str) (year : option Z) : M (option movie_record) :=
  results <- requests_get (SearchMovie title (year_param year)) ;;
  ret (match results with r :: _ => Some r | [] => None end).

(** [normalize] of [search_tv] *)
Definition normalize (s : option str) : str :=
  lower (Re.sub_plus is_nonword [] (or_empty s)).

(** The loop [for r in results] of [search_tv]. *)
Fixpoint exact_loop (norm_query : str) (results : list tv_record) : option tv_record :=
  match results with
  | [] => None
  | r :: rest =>
      if str_eqb (normalize (t_name r)) norm_query then Some r
      else exact_loop norm_query rest
  end.

Definition search_tv (title : str) (year : option Z) : M (option tv_record) :=
  results <- requests_get (SearchTv title (year_param year)) ;;
  match results with
  | [] => ret None
  | first :: _ =>
      let norm_query := normalize (Some title) in
      match exact_loop norm_query results with
      | Some r => ret (Some r)
      | None => ret (Some first)
      end
  end.

Definition get_episode_name (tv_id season episode : Z) : M (option str) :=
  requests_get (Episode tv_id season episode).

Definition get_movie_imdb_id (movie_id : option Z) : M (option str) :=
  requests_get (MovieExternalIds movie_id).

Definition get_tv_imdb_id (tv_id : Z) : M (option str) :=
  requests_get (TvExternalIds tv_id).

(** *** main.py: [App.get_new_name] *)

Definition get_new_name (filename : str) : M str :=
  let ext := snd (PosixPath.splitext filename) in
  match parse_movie filename with
  | Some movie =>
      result <- search_movie (title movie) (year movie) ;;
      match result with
      | Some result =>
          let title := match m_title result with Some t => t | None => title movie end in
          let release_date := or_empty (m_release_date result) in
          let year := firstn 4 release_date in
          match year with
          | _ :: _ => ret (title ++ L" (" ++ year ++ L")" ++ ext)
          | [] => ret (title ++ ext)
          end
      | None =>
          match year movie with
          | Some y =>
              if truthy_int (Some y)
              then ret (title movie ++ L" (" ++ str_of_int y ++ L")" ++ ext)
              else ret (title movie ++ ext)
          | None => ret (title movie ++ ext)
          end
      end
  | None =>
      match parse_tv filename with
      | Some tv =>
          result <- search_tv (show tv) None ;;
          match result with
          | Some result =>
              let show_name := match t_name result with Some n => n | None => show tv end in
              ep_name <- try_except
                           (match t_id result with
                            | Some id => get_episode_name id (season tv) (episode tv)
                            | None => raise L"'id'"
                            end)
                           (fun _ => ret None) ;;
              let season_ep := L"S" ++ fmt02 (season tv) ++ L"E" ++ fmt02 (episode tv) in
              if truthy_str ep_name
              then ret (show_name ++ L" - " ++ season_ep ++ L" - " ++ or_empty ep_name ++ ext)
              else ret (show_name ++ L" - " ++ season_ep ++ ext)
          | None =>
              ret (show tv ++ L" - S" ++ fmt02 (season tv) ++ L"E" ++ fmt02 (episode tv) ++ ext)
          end
      | None => ret filename
      end
  end.

(** *** main.py: [App.scan_folder] *)

(** The body of the loop that builds the file previews, for the file [f]
    of the directory listed as [rel_dir]. *)
Definition preview_file (rel_dir f : str) : M unit :=
  let nested :=
    match rel_dir with [] => false | _ => negb (str_eqb rel_dir L".") end in
  let old_rel := if nested then PosixPath.join rel_dir f else f in
  new_file <- get_new_name f ;;
  let new_rel := if nested then PosixPath.join rel_dir new_file else new_file in
  file_preview_append (old_rel, new_rel) ;;;
  text_insert (old_rel ++ [newline]) (new_rel ++ [newline]).

(** The first file of the walk that [parse_tv] accepts (the two loops left
    by [break]). *)
Fixpoint first_tv (files : list str) : option episode_candidate :=
  match files with
  | [] => None
  | f :: rest =>
      match parse_tv f with
      | Some tv => Some tv
      | None => first_tv rest
      end
  end.

(** The loop that fills [season_map]. *)
Definition season_map_of (cwd folder : str) (t : tree) : list (str * Z) :=
  fold_left
    (fun season_map entry =>
       let '(rootp, _, files) := entry in
       let rel := PosixPath.relpath cwd rootp folder in
       if str_eqb rel L"." then season_map
       else
         let season_dir := hd [] (split_chr PosixPath.sep rel) in
         fold_left
           (fun season_map f =>
              match parse_tv f with
              | Some tv => dict_set season_dir (season tv) season_map
              | None => season_map
              end)
           files season_map)
    (walk folder t) [].

(** ["{imdb-" + imdb + "}"], appended when the identifier is there. *)
Definition with_imdb (name : str) (imdb : option str) : str :=
  if truthy_str imdb then name ++ L" {imdb-" ++ or_empty imdb ++ L"}" else name.

Definition scan_folder : M unit :=
  a <- self ;;
  let key := strip (api_key_entry a) in
  match key with
  | [] => show_dialog (showerror L"Error" L"Please enter your API key in the Configuration panel")
  | _ =>
    (if negb (str_eqb key (api_key a)) then set_api_key key else ret tt) ;;;
    let folder := dir_entry a in
    d <- the_disk ;;
    match (match folder with [] => None | _ => fs_tree fs d folder end) with
    | None => show_dialog (showerror L"Error" L"Please select a valid directory")
    | Some (Dir files_root dirs as t) =>
      clear_previews ;;;
      let base_name := PosixPath.basename folder in
      let subdirs := map fst dirs in
      (match subdirs, files_root with
       | [], [f0] =>
           match parse_movie f0 with
           | Some movie =>
               result <- search_movie (title movie) (year movie) ;;
               match result with
               | Some result =>
                   let title := match m_title result with Some x => x | None => title movie end in
                   let year := firstn 4 (or_empty (m_release_date result)) in
                   let movie_id := m_id result in
                   imdb <- try_except (get_movie_imdb_id movie_id) (fun _ => ret None) ;;
                   let new_name := with_imdb (title ++ L" (" ++ year ++ L")") imdb in
                   folder_preview_append (base_name, new_name)
               | None => ret tt
               end
           | None => ret tt
           end
       | _, _ =>
           let tv_info := first_tv (flat_map snd (walk folder t)) in
           match tv_info with
           | Some tv_info =>
               result <- search_tv (show tv_info) None ;;
               let show_name :=
                 match result with
                 | Some r => match t_name r with Some n => n | None => show tv_info end
                 | None => show tv_info
                 end in
               let year :=
                 match result with
                 | Some r =>
                     if truthy_str (t_first_air_date r)
                     then firstn 4 (or_empty (t_first_air_date r)) else []
                 | None => []
                 end in
               let tv_id := match result with Some r => t_id r | None => None end in
               imdb <- try_except
                         (match tv_id with
                          | Some id => if truthy_int tv_id then get_tv_imdb_id id else ret None
                          | None => ret None
                          end)
                         (fun _ => ret None) ;;
               let new_show :=
                 with_imdb (match year with
                            | _ :: _ => show_name ++ L" (" ++ year ++ L")"
                            | [] => show_name
                            end) imdb in
               folder_preview_append (base_name, new_show) ;;;
               let season_map := season_map_of (fs_getcwd fs d) folder t in
               for_each season_map
                 (fun item =>
                    let new_dir := L"Season " ++ fmt02 (snd item) in
                    folder_preview_append (fst item, new_dir))
           | None => ret tt
           end
       end) ;;;
      a' <- self ;;
      for_each (folder_preview_list a')
        (fun e => text_insert (fst e ++ [newline]) (snd e ++ [newline])) ;;;
      for_each (walk folder t)
        (fun entry =>
           let '(rootp, _, files) := entry in
           let rel_dir := PosixPath.relpath (fs_getcwd fs d) rootp folder in
           for_each files (preview_file rel_dir))
    end
  end.

(** *** main.py: [App.rename_files] *)

Definition os_makedirs (p : str) : M unit :=
  fun w =>
    let (e, d') := fs_makedirs fs p (disk w) in
    (match e with Some e => inl e | None => inr tt end,
     {| gui := gui w; net := net w; calls := calls w;
        disk := d'; renames := renames w |}).

(** [os.rename(src, dst)]; the call and its outcome are recorded in
    [renames]. *)
Definition os_rename (src dst : str) : M unit :=
  fun w =>
    let (e, d') := fs_rename fs src dst (disk w) in
    (match e with Some e => inl e | None => inr tt end,
     {| gui := gui w; net := net w; calls := calls w;
        disk := d'; renames := renames w ++ [(src, dst, e)] |}).

Definition rename_files : M unit :=
  a <- self ;;
  let folder := dir_entry a in
  match folder with
  | [] => ret tt
  | _ =>
    let errors : list str := [] in
    errors <- for_acc (file_preview_list a) errors
      (fun errors entry =>
         let '(orig_rel, new_rel) := entry in
         let src := PosixPath.join folder orig_rel in
         let dst := PosixPath.join folder new_rel in
         let dst_dir := PosixPath.dirname dst in
         d <- the_disk ;;
         (match dst_dir with
          | _ :: _ => if negb (fs_exists fs d dst_dir) then os_makedirs dst_dir else ret tt
          | [] => ret tt
          end) ;;;
         try_except (os_rename src dst ;;; ret errors)
           (fun e => ret (errors ++ [L"File " ++ orig_rel ++ L": " ++ e]))) ;;
    let base_name := PosixPath.basename folder in
    errors <- for_acc (folder_preview_list a) errors
      (fun errors entry =>
         let '(old_dir, new_dir) := entry in
         if str_eqb old_dir base_name then ret errors
         else
           let src := PosixPath.join folder old_dir in
           let dst := PosixPath.join folder new_dir in
           try_except (os_rename src dst ;;; ret errors)
             (fun e => ret (errors ++ [L"Folder " ++ old_dir ++ L": " ++ e]))) ;;
    errors <- for_acc (folder_preview_list a) errors
      (fun errors entry =>
         let '(old_dir, new_dir) := entry in
         if str_eqb old_dir base_name then
           let parent := PosixPath.dirname folder in
           let src := folder in
           let dst := PosixPath.join parent new_dir in
           try_except (os_rename src dst ;;; ret errors)
             (fun e => ret (errors ++ [L"Root folder " ++ old_dir ++ L": " ++ e]))
         else ret errors) ;;
    match errors with
    | _ :: _ => show_dialog (showerror L"Errors occurred" (str_join [newline] errors))
    | [] => show_dialog (showinfo L"Success" L"Files renamed successfully")
    end
  end.

End Program.

Arguments ret {W D A}.
Arguments raise {W D A}.
Arguments bind {W D A B}.
Arguments try_except {W D A}.
Arguments for_each {W D A}.
Arguments for_acc {W D A B}.
Arguments self {W D}.
Arguments update {W D}.
Arguments the_disk {W D}.

(** ** Concrete catalogs and disks, for the examples *)

(** A catalog that knows nothing: every search is empty, every detail absent. *)
Definition no_results : transport unit :=
  fun r n =>
    (match r as r0 return exn + reply r0 with
     | SearchMovie _ _ => inr []
     | SearchTv _ _ => inr []
     | Episode _ _ _ => inr None
     | MovieExternalIds _ => inr None
     | TvExternalIds _ => inr None
     end, n).

(** A small catalog: one film, one show with one episode title. *)
Definition small_catalog : transport unit :=
  fun r n =>
    (match r as r0 return exn + reply r0 with
     | SearchMovie q _ =>
         if str_eqb q L"Face Off"
         then inr [ {| m_title := Some L"Face/Off";
                       m_release_date := Some L"1997-06-27";
                       m_id := Some 754%Z |} ]
         else inr []
     | SearchTv q _ =>
         if str_eqb q L"Show Name"
         then inr [ {| t_name := Some L"Show Name: The Return";
                       t_first_air_date := Some L"2017-01-01";
                       t_id := Some 7%Z |};
                    {| t_name := Some L"Show-Name";
                       t_first_air_date := Some L"2008-01-20";
                       t_id := Some 1396%Z |} ]
         else inr []
     | Episode _ _ _ => inr (Some L"Pilot")
     | MovieExternalIds _ => inr (Some L"tt0119094")
     | TvExternalIds _ => inr (Some L"tt0903747")
     end, n).

(** The same catalog when every detail request fails and searches work. *)
Definition details_down : transport unit :=
  fun r n =>
    (match r as r0 return exn + reply r0 with
     | SearchMovie q y => fst (small_catalog (SearchMovie q y) n)
     | SearchTv q y => fst (small_catalog (SearchTv q y) n)
     | Episode _ _ _ => inl L"404 Client Error"
     | MovieExternalIds _ => inl L"404 Client Error"
     | TvExternalIds _ => inl L"404 Client Error"
     end, n).

(** A catalog that cannot be reached. *)
Definition unreachable : transport unit :=
  fun r n =>
    (match r as r0 return exn + reply r0 with
     | SearchMovie _ _ => inl L"Connection refused"
     | SearchTv _ _ => inl L"Connection refused"
     | Episode _ _ _ => inl L"Connection refused"
     | MovieExternalIds _ => inl L"Connection refused"
     | TvExternalIds _ => inl L"Connection refused"
     end, n).

Fixpoint mem_str (x : str) (l : list str) : bool :=
  match l with
  | [] => false
  | y :: l' => str_eqb x y || mem_str x l'
  end.

(** A probe disk: the directories it shows, the paths that do not exist yet
    and the paths that may not be written.  Creating or renaming onto a
    protected path is refused; everything else succeeds. *)
Record probe : Type :=
  { shown : list (str * tree);
    absent : list str;
    protected : list str }.

Fixpoint lookup_tree (p : str) (l : list (str * tree)) : option tree :=
  match l with
  | [] => None
  | (q, t) :: l' => if str_eqb p q then Some t else lookup_tree p l'
  end.

Definition probe_fs : filesystem probe :=
  {| fs_tree := fun d p => lookup_tree p (shown d);
     fs_getcwd := fun _ => L"/";
     fs_exists := fun d p => negb (mem_str p (absent d));
     fs_makedirs := fun p d =>
       if mem_str p (protected d)
       then (Some (L"[Errno 13] Permission denied: '" ++ p ++ L"'"), d)
       else (None,
             {| shown := shown d;
                absent := filter (fun q => negb (str_eqb p q)) (absent d);
                protected := protected d |});
     fs_rename := fun src dst d =>
       if mem_str dst (protected d)
       then (Some (L"[Errno 13] Permission denied: '" ++ src ++ L"' -> '" ++ dst ++ L"'"), d)
       else (None, d) |}.

(** A window with the key and the folder typed in, before any scan. *)
Definition window (key folder : str) : App :=
  {| api_key_entry := key; dir_entry := folder; api_key := key;
     file_preview_list := []; folder_preview_list := [];
     orig_text := []; new_text := []; messagebox := [] |}.

(** The window after a scan left the two lists [files] and [folders]. *)
Definition planned (folder : str) (files folders : list (str * str)) : App :=
  {| api_key_entry := L"k"; dir_entry := folder; api_key := L"k";
     file_preview_list := files; folder_preview_list := folders;
     orig_text := []; new_text := []; messagebox := [] |}.

Definition start {D} (a : App) (d : D) : world unit D :=
  {| gui := a; net := tt; calls := []; disk := d; renames := [] |}.

(** ** The parsers and the show search, as the specification words them *)

Module Spec.

(** "Both strip the file extension first and operate only on the base
    name." *)
Definition base_name (filename : str) : str := fst (PosixPath.splitext filename).

(** "split the base name on runs of dots and/or whitespace into tokens" *)
Definition tokens (name : str) : list str := Re.split_plus is_dot_or_space name.

(** "a token matching exactly a 4-digit year in the ranges 1900-1999 or
    2000-2099" *)
Definition is_year_token (t : str) : bool :=
  Nat.eqb (length t) 4 && forallb is_digit t
  && (1900 <=? int_of_str t)%Z && (int_of_str t <=? 2099)%Z.

(** "a resolution marker ([NNNp] where N is 3-4 digits, case-insensitive, or
    the literal [4k]/[4K])" *)
Definition is_resolution_marker (t : str) : bool :=
  match rev t with
  | p :: digits =>
      (between 3 4 (length digits) && forallb is_digit digits
       && (chr_eqb p "p" || chr_eqb p "P"))
      || (str_eqb t L"4k" || str_eqb t L"4K")
  | [] => false
  end.

(** The index of the first token that is a year. *)
Fixpoint first_year (parts : list str) : option nat :=
  match parts with
  | [] => None
  | t :: rest => if is_year_token t then Some 0 else option_map S (first_year rest)
  end.

Definition parseMovie (filename : str) : option movie_candidate :=
  let parts := tokens (base_name filename) in
  match first_year parts with
  | Some i =>
      Some {| title := str_join L" " (firstn i parts);
              year := Some (int_of_str (nth i parts [])) |}
  | None =>
      if Nat.leb 2 (length parts) && is_resolution_marker (nth 1 parts [])
      then Some {| title := nth 0 parts []; year := None |}
      else None
  end.

Definition is_S (c : ascii) : bool := chr_eqb c "S" || chr_eqb c "s".
Definition is_E (c : ascii) : bool := chr_eqb c "E" || chr_eqb c "e".

(** "[E] + exactly 2 digits (episode)" at the head of [s]. *)
Definition episode_part (s : str) : option str :=
  match s with
  | e :: d1 :: d2 :: _ =>
      if is_E e && is_digit d1 && is_digit d2 then Some [d1; d2] else None
  | _ => None
  end.

(** "[S] + 1-2 digits (season) + [E] + exactly 2 digits (episode)" at the
    head of [s]: the digits of the season and of the episode. *)
Definition marker (s : str) : option (str * str) :=
  match s with
  | c :: d1 :: rest =>
      if is_S c && is_digit d1 then
        match rest with
        | d2 :: rest' =>
            if is_digit d2
            then option_map (pair [d1; d2]) (episode_part rest')
            else option_map (pair [d1]) (episode_part rest)
        | [] => None
        end
      else None
  | _ => None
  end.

(** "one-or-more non-word/underscore separator characters", then the
    marker. *)
Fixpoint separators_then_marker (s : str) : option (str * str) :=
  match s with
  | c :: t =>
      if is_separator c then
        match marker t with
        | Some r => Some r
        | None => separators_then_marker t
        end
      else None
  | [] => None
  end.

(** "a lazy run of any characters (the show name)": the shortest run from
    the head of [s], after the characters [run] already taken, that the
    separators and the marker follow. *)
Fixpoint lazy_run (run s : str) : option (str * (str * str)) :=
  match s with
  | c :: t =>
      if is_dot c then
        match separators_then_marker t with
        | Some r => Some (run ++ [c], r)
        | None => lazy_run (run ++ [c]) t
        end
      else None
  | [] => None
  end.

(** "search (not anchor)": from the leftmost position that works. *)
Fixpoint search_marker (s : str) : option (str * (str * str)) :=
  match lazy_run [] s with
  | Some r => Some r
  | None =>
      match s with
      | _ :: t => search_marker t
      | [] => None
      end
  end.

Definition parseEpisode (filename : str) : option episode_candidate :=
  match search_marker (base_name filename) with
  | None => None
  | Some (name, (s, e)) =>
      Some {| show := strip (replace_chr "." " " name);
              season := int_of_str s;
              episode := int_of_str e |}
  end.

(** "normalized name (strip all non-word characters, lowercase)" *)
Definition normalized (s : str) : str := map to_lower (filter is_word s).

(** "the result whose normalized name exactly equals the normalized query
    if one exists; otherwise the provider's first-ranked result; none if
    the result set is empty" *)
Definition searchShow (title : str) (results : list tv_record) : option tv_record :=
  match results with
  | [] => None
  | first :: _ =>
      match find (fun r => str_eqb (normalized (or_empty (t_name r))) (normalized title))
                 results with
      | Some r => Some r
      | None => Some first
      end
  end.

End Spec.

(** Whether a match was found. *)
Definition matched {A} (o : option A) : bool :=
  match o with Some _ => true | None => false end.

(** The groups of the match the matcher prefers. *)
Definition first_groups (l : list (str * Re.groups)) : option Re.groups :=
  option_map snd (hd_error l).

(** The pattern, in parts: the marker, and the separators before it. *)
Definition marker_re : Re.regex :=
  Re.Seq (Re.Lit "S")
    (Re.Seq (Re.Grp "season" (Re.Rep true 1 (Some 2) is_digit))
       (Re.Seq (Re.Lit "E")
          (Re.Grp "episode" (Re.Rep true 2 (Some 2) is_digit)))).

Definition tail_re : Re.regex :=
  Re.Seq (Re.Rep true 1 None is_separator) marker_re.

(** The groups a match of the marker adds to [g]. *)
Definition marker_groups (g : Re.groups) (r : str * str) : Re.groups :=
  ("episode", snd r) :: ("season", fst r) :: g.

(** The groups of a whole match: the show, then the marker's. *)
Definition show_groups (g : Re.groups) (r : str * (str * str)) : Re.groups :=
  marker_groups (("show", fst r) :: g) (snd r).

Module Plan.

(** The renames of a plan, in the order the specification gives for the
    executor: the file entries, then the folder entries other than the
    root's, then the root's, each with the paths it resolves to. *)
Definition is_root (folder : str) (e : str * str) : bool :=
  str_eqb (fst e) (PosixPath.basename folder).

Definition inside (folder : str) (e : str * str) : str * str :=
  (PosixPath.join folder (fst e), PosixPath.join folder (snd e)).

(** The root moves to a sibling: same parent directory, new base name. *)
Definition sibling (folder : str) (e : str * str) : str * str :=
  (folder, PosixPath.join (PosixPath.dirname folder) (snd e)).

Definition file_phase (folder : str) (files : list (str * str)) :=
  map (inside folder) files.

Definition folder_phase (folder : str) (folders : list (str * str)) :=
  map (inside folder) (filter (fun e => negb (is_root folder e)) folders).

Definition root_phase (folder : str) (folders : list (str * str)) :=
  map (sibling folder) (filter (is_root folder) folders).

Definition order (folder : str) (files folders : list (str * str)) : list (str * str) :=
  file_phase folder files ++ folder_phase folder folders ++ root_phase folder folders.

End Plan.

Section Replay.

Context {D : Type}.
Variable fs : filesystem D.

(** What a loop of guarded renames leaves: the messages, the disk and the
    record of the calls.  [pick] gives, for an entry of the plan, the rename
    to attempt and the label of its message, or nothing when the loop skips
    the entry. *)
Fixpoint replay {A} (pick : A -> option (str * str * (exn -> str))) (l : list A)
         (errors : list str) (d : D) (log : list renaming)
  : list str * D * list renaming :=
  match l with
  | [] => (errors, d, log)
  | x :: l' =>
      match pick x with
      | None => replay pick l' errors d log
      | Some (src, dst, label) =>
          let r := fs_rename fs src dst d in
          replay pick l'
            (match fst r with Some e => errors ++ [label e] | None => errors end)
            (snd r) (log ++ [(src, dst, fst r)])
      end
  end.

End Replay.

Definition picked {A} (pick : A -> option (str * str * (exn -> str))) (l : list A)
  : list (str * str) :=
  flat_map (fun x => match pick x with Some (s, d, _) => [(s, d)] | None => [] end) l.

(** What the first loop of [rename_files] leaves; it stops at the first
    directory it cannot create. *)
Fixpoint replay_files {D} (fs : filesystem D) (folder : str) (l : list (str * str))
         (errors : list str) (d : D) (log : list renaming)
  : (exn + list str) * D * list renaming :=
  match l with
  | [] => (inr errors, d, log)
  | (orig_rel, new_rel) :: l' =>
      let src := PosixPath.join folder orig_rel in
      let dst := PosixPath.join folder new_rel in
      let dst_dir := PosixPath.dirname dst in
      let m :=
        match dst_dir with
        | _ :: _ => if negb (fs_exists fs d dst_dir) then fs_makedirs fs dst_dir d else (None, d)
        | [] => (None, d)
        end in
      match fst m with
      | Some e => (inl e, snd m, log)
      | None =>
          let r := fs_rename fs src dst (snd m) in
          replay_files fs folder l'
            (match fst r with
             | Some e => errors ++ [L"File " ++ orig_rel ++ L": " ++ e]
             | None => errors
             end)
            (snd r) (log ++ [(src, dst, fst r)])
      end
  end.

(** The body of the first loop of [rename_files]. *)
Definition file_body {W D} (fs : filesystem D) (folder : str)
  : list str -> str * str -> @M W D (list str) :=
  fun errors entry =>
    let '(orig_rel, new_rel) := entry in
    let src := PosixPath.join folder orig_rel in
    let dst := PosixPath.join folder new_rel in
    let dst_dir := PosixPath.dirname dst in
    bind the_disk (fun d =>
    bind (match dst_dir with
          | _ :: _ => if negb (fs_exists fs d dst_dir) then os_makedirs fs dst_dir else ret tt
          | [] => ret tt
          end) (fun _ =>
    try_except (bind (os_rename fs src dst) (fun _ => ret errors))
      (fun e => ret (errors ++ [L"File " ++ orig_rel ++ L": " ++ e])))).

Definition pick_folder (folder : str) (e : str * str) : option (str * str * (exn -> str)) :=
  if Plan.is_root folder e then None
  else Some (PosixPath.join folder (fst e), PosixPath.join folder (snd e),
             fun x => L"Folder " ++ fst e ++ L": " ++ x).

Definition pick_root (folder : str) (e : str * str) : option (str * str * (exn -> str)) :=
  if Plan.is_root folder e
  then Some (folder, PosixPath.join (PosixPath.dirname folder) (snd e),
             fun x => L"Root folder " ++ fst e ++ L": " ++ x)
  else None.

(** The three loops of [rename_files] one after the other. *)
Definition replay_plan {D} (fs : filesystem D) (folder : str)
           (files folders : list (str * str)) (d : D) (log : list renaming)
  : (exn + list str) * D * list renaming :=
  let r1 := replay_files fs folder files [] d log in
  match fst (fst r1) with
  | inl e => r1
  | inr errors =>
      let r2 := replay fs (pick_folder folder) folders errors (snd (fst r1)) (snd r1) in
      let r3 := replay fs (pick_root folder) folders (fst (fst r2)) (snd (fst r2)) (snd r2) in
      (inr (fst (fst r3)), snd (fst r3), snd r3)
  end.

(** The dialog that closes [rename_files]. *)
Definition report (errors : list str) : dialog :=
  match errors with
  | _ :: _ => showerror L"Errors occurred" (str_join [newline] errors)
  | [] => showinfo L"Success" L"Files renamed successfully"
  end.

Definition with_dialog (a : App) (d : dialog) : App :=
  {| api_key_entry := api_key_entry a; dir_entry := dir_entry a;
     api_key := api_key a;
     file_preview_list := file_preview_list a;
     folder_preview_list := folder_preview_list a;
     orig_text := orig_text a; new_text := new_text a;
     messagebox := messagebox a ++ [d] |}.

(** A show folder on the probe disk, and the plan a scan made for it. *)
Definition show_plan : App :=
  planned L"/m/show"
    [(L"S1/a.S01E01.mkv", L"S1/Show - S01E01.mkv"); (L"notes.txt", L"notes.txt")]
    [(L"show", L"Show (2008)"); (L"S1", L"Season 01")].

Definition plain_disk : probe := {| shown := []; absent := []; protected := [] |}.

Definition with_file_preview (a : App) (old_rel new_rel : str) : App :=
  {| api_key_entry := api_key_entry a; dir_entry := dir_entry a;
     api_key := api_key a;
     file_preview_list := file_preview_list a ++ [(old_rel, new_rel)];
     folder_preview_list := folder_preview_list a;
     orig_text := orig_text a ++ old_rel ++ [newline];
     new_text := new_text a ++ new_rel ++ [newline];
     messagebox := messagebox a |}.

(** The path of the file [f] relative to the scanned folder, for the
    directory listed as [rel_dir]. *)
Definition rel_path (rel_dir f : str) : str :=
  match rel_dir with
  | [] => f
  | _ => if str_eqb rel_dir L"." then f else PosixPath.join rel_dir f
  end.

Section Program_logic.

Context {W D : Type}.

(** Every run of [p] takes a world to one that [R] relates to it. *)
Definition steps {A} (R : world W D -> world W D -> Prop) (p : M A) : Prop :=
  forall w, R w (snd (p w)).

(** Every value [p] returns satisfies [P]. *)
Definition returns {A} (P : A -> Prop) (p : @M W D A) : Prop :=
  forall w v w', p w = (inr v, w') -> P v.

(** The scan leaves the disk and the record of renames alone; the naming
    function leaves the window alone as well. *)
Definition same_disk (w w' : world W D) : Prop :=
  disk w' = disk w /\ renames w' = renames w.

Definition same_window (w w' : world W D) : Prop :=
  gui w' = gui w /\ disk w' = disk w /\ renames w' = renames w.

Definition same_folders (w w' : world W D) : Prop :=
  folder_preview_list (gui w') = folder_preview_list (gui w).

Definition same_calls (w w' : world W D) : Prop :=
  calls w' = calls w /\ net w' = net w.

(** A relation that composes along a program. *)
Class Order (R : world W D -> world W D -> Prop) : Prop :=
  { order_refl : forall w, R w w;
    order_trans : forall w1 w2 w3, R w1 w2 -> R w2 w3 -> R w1 w3 }.

End Program_logic.

Definition ends_with (suffix s : str) : Prop := exists stem, s = stem ++ suffix.

(** A name without a path separator. *)
Definition plain (x : str) : bool := negb (existsb (chr_eqb PosixPath.sep) x).

(** A folder with one film, and a show folder with a season, on the probe
    disk. *)
Definition film_disk : probe :=
  {| shown := [(L"/m/film", Dir [L"Face.Off.1997.mkv"] [])];
     absent := [L"/m/film/Face"];
     protected := [L"/m/film/Face"] |}.

Definition show_disk : probe :=
  {| shown := [(L"/m/show",
                Dir [L"notes.txt"]
                    [(L"S1", Dir [L"Show.Name.S01E01.mkv"] [])])];
     absent := [];
     protected := [] |}.

(** The season entries of a scan: one for each directory [season_map] holds,
    in the order of the map. *)
Definition season_entries {D} (fs : filesystem D) (d : D) (folder : str) (t : tree)
  : list (str * str) :=
  map (fun item => (fst item, L"Season " ++ fmt02 (snd item)))
      (season_map_of (fs_getcwd fs d) folder t).

(** The folder entries grow by nothing, or by a root entry followed by
    nothing or by the season entries. *)
Definition root_then_seasons {W D} (base : str) (seasons : list (str * str))
           (w w' : world W D) : Prop :=
  folder_preview_list (gui w') = folder_preview_list (gui w)
  \/ exists new rest,
      folder_preview_list (gui w')
      = folder_preview_list (gui w) ++ (base, new) :: rest
      /\ (rest = [] \/ rest = seasons).

(** The relative paths of the files of a scanned folder, in the order of the
    walk. *)
Definition listing (cwd folder : str) (t : tree) : list str :=
  flat_map
    (fun entry => map (rel_path (PosixPath.relpath cwd (fst (fst entry)) folder))
                      (snd entry))
    (walk folder t).

(** A name neither parser accepts. *)
Definition unparsed (f : str) : Prop := parse_movie f = None /\ parse_tv f = None.

(** A tidy film folder on the probe disk. *)
Definition tidy_disk : probe :=
  {| shown := [(L"/m/tidy",
                Dir [L"Inception (2010).mkv"; L"readme.txt"]
                    [(L"extras", Dir [L"making of.mkv"] [])])];
     absent := [];
     protected := [] |}.

(** What a scan keeps when it only adds identity entries. *)
Definition identities_added {W D} (added : list str) (w w' : world W D) : Prop :=
  calls w' = calls w /\ net w' = net w
  /\ folder_preview_list (gui w') = folder_preview_list (gui w)
  /\ file_preview_list (gui w')
     = file_preview_list (gui w) ++ map (fun p => (p, p)) added.

(** The primary requests are the two searches; the others are secondary
    lookups. *)
Definition search_request (r : request) : bool :=
  match r with
  | SearchMovie _ _ | SearchTv _ _ => true
  | _ => false
  end.

(** No search among the calls [l] raised. *)
Definition quiet (l : list call) : Prop :=
  Forall (fun c => search_request (fst c) = true -> snd c = None) l.

(** Only secondary lookups among the calls [l]. *)
Definition secondary_only (l : list call) : Prop :=
  Forall (fun c => search_request (fst c) = false) l.

(** A run that made the calls [l] ended normally with no search failing, or
    raised the exception of the search it made last. *)
Definition search_failure {A} (l : list call) (res : exn + A) : Prop :=
  match res with
  | inr _ => quiet l
  | inl e =>
      exists l' q, l = l' ++ [(q, Some e)] /\ search_request q = true /\ quiet l'
  end.

Definition propagating {W D A} (p : @M W D A) : Prop :=
  forall w, exists l,
    calls (snd (p w)) = calls w ++ l /\ search_failure l (fst (p w)).

(** A program that makes secondary lookups only. *)
Definition secondary {W D A} (p : @M W D A) : Prop :=
  forall w, exists l, calls (snd (p w)) = calls w ++ l /\ secondary_only l.

(** The transport whose secondary lookups answer "absent" where those of
    [tr] raise; its searches are those of [tr]. *)
Definition absent_on_error {W} (tr : transport W) : transport W :=
  fun r =>
    match r as r0 return W -> (exn + reply r0) * W with
    | SearchMovie q y => tr (SearchMovie q y)
    | SearchTv q y => tr (SearchTv q y)
    | Episode i s e =>
        fun n => match tr (Episode i s e) n with
                 | (inl _, n') => (inr None, n')
                 | (inr x, n') => (inr x, n')
                 end
    | MovieExternalIds i =>
        fun n => match tr (MovieExternalIds i) n with
                 | (inl _, n') => (inr None, n')
                 | (inr x, n') => (inr x, n')
                 end
    | TvExternalIds i =>
        fun n => match tr (TvExternalIds i) n with
                 | (inl _, n') => (inr None, n')
                 | (inr x, n') => (inr x, n')
                 end
    end.

(** Two worlds that differ at most in the outcomes recorded for the calls. *)
Definition alike {W D} (w1 w2 : world W D) : Prop :=
  gui w1 = gui w2 /\ net w1 = net w2 /\ disk w1 = disk w2
  /\ renames w1 = renames w2 /\ map fst (calls w1) = map fst (calls w2).

(** Two programs that return the same and leave like worlds, from like
    worlds. *)
Definition same_run {W D A} (p1 p2 : @M W D A) : Prop :=
  forall w1 w2, alike w1 w2 ->
    fst (p1 w1) = fst (p2 w2) /\ alike (snd (p1 w1)) (snd (p2 w2)).

(** What a wrapped lookup hands on: the value, or nothing when it raised. *)
Definition or_absent (r : exn + option str) : option str :=
  match r with inl _ => None | inr x => x end.

(** Two lookups that hand on the same once wrapped. *)
Definition same_lookup {W D} (m1 m2 : @M W D (option str)) : Prop :=
  forall w1 w2, alike w1 w2 ->
    or_absent (fst (m1 w1)) = or_absent (fst (m2 w2))
    /\ alike (snd (m1 w1)) (snd (m2 w2)).

(** A plan whose first entry needs a directory the disk refuses to create. *)
Definition film_plan : App :=
  planned L"/m/film"
    [(L"Face.Off.1997.mkv", L"Face/Off (1997).mkv"); (L"notes.txt", L"notes.txt")]
    [(L"film", L"Face-Off (1997)")].

(** A folder before and after a first renaming, with a catalog that knows
    nothing. *)
Definition raw_disk : probe :=
  {| shown := [(L"/m/a", Dir [L"A.1080p.2010.mkv"] [])]; absent := []; protected := [] |}.

Definition renamed_disk : probe :=
  {| shown := [(L"/m/a", Dir [L"A 1080p (2010).mkv"] [])]; absent := []; protected := [] |}.

(** One or two decimal digits. *)
Definition short_number (s : str) : Prop :=
  (length s = 1 \/ length s = 2) /\ Forall (fun c => is_digit c = true) s.

(** A program that always returns. *)
Definition completes {W D A} (p : @M W D A) : Prop :=
  forall w, exists a, fst (p w) = inr a.

(** A transport whose searches never raise. *)
Definition searches_answer {W} (tr : transport W) : Prop :=
  forall q n, search_request q = true -> exists x, fst (tr q n) = inr x.

(** The window with the key [k] taken over. *)
Definition set_key (a : App) (k : str) : App :=
  {| api_key_entry := api_key_entry a; dir_entry := dir_entry a;
     api_key := k;
     file_preview_list := file_preview_list a;
     folder_preview_list := folder_preview_list a;
     orig_text := orig_text a; new_text := new_text a;
     messagebox := messagebox a |}.

(** The window after the file previews [added], one after the other. *)
Definition previews_added (a : App) (added : list (str * str)) : App :=
  fold_left (fun a e => with_file_preview a (fst e) (snd e)) added a.

(** The names [l], one per line, as a text box holds them. *)
Definition lines (l : list str) : str := flat_map (fun s => s ++ [newline]) l.

(** The window with its folder entries set aside. *)
Definition without_folders (a : App) : App :=
  {| api_key_entry := api_key_entry a; dir_entry := dir_entry a;
     api_key := api_key a;
     file_preview_list := file_preview_list a;
     folder_preview_list := [];
     orig_text := orig_text a; new_text := new_text a;
     messagebox := messagebox a |}.

(** The window changed in its folder entries at most. *)
Definition folders_only {W D} (w w' : world W D) : Prop :=
  without_folders (gui w') = without_folders (gui w).

(** The window with the lines [o] and [n] added to its two texts. *)
Definition with_text (a : App) (o n : str) : App :=
  {| api_key_entry := api_key_entry a; dir_entry := dir_entry a;
     api_key := api_key a;
     file_preview_list := file_preview_list a;
     folder_preview_list := folder_preview_list a;
     orig_text := orig_text a ++ o; new_text := new_text a ++ n;
     messagebox := messagebox a |}.

(** A program that leaves the folder entries as they were whenever it
    raises. *)
Definition raises_early {W D A} (p : @M W D A) : Prop :=
  forall w e, fst (p w) = inl e -> same_folders w (snd (p w)).

(** The form of the window: the two entries and the key in use. *)
Definition same_form {W D} (w w' : world W D) : Prop :=
  api_key_entry (gui w') = api_key_entry (gui w)
  /\ dir_entry (gui w') = dir_entry (gui w)
  /\ api_key (gui w') = api_key (gui w)
  /\ messagebox (gui w') = messagebox (gui w).

(** A rename that raised. *)
Definition failed (r : renaming) : bool :=
  match snd r with Some _ => true | None => false end.

(** The line of the error dialog for the failed rename [r]: a label, a
    colon, and the text of the exception. *)
Definition reported (message : str) (r : renaming) : Prop :=
  exists label e, snd r = Some e /\ message = label ++ L": " ++ e.

(** A disk that refuses the new name of the season directory. *)
Definition guarded_disk : probe :=
  {| shown := []; absent := []; protected := [L"/m/show/Season 01"] |}.

(** Two decimal digits. *)
Definition two_digits (s : str) : bool :=
  match s with
  | [a; b] => is_digit a && is_digit b
  | _ => false
  end.

(** What the loop over the tree keeps of [season_map]: no key twice, no
    separator in a key, a season below 100. *)
Definition season_map_ok (m : list (str * Z)) : Prop :=
  NoDup (map fst m)
  /\ Forall (fun kv => plain (fst kv) = true /\ (0 <= snd kv <= 99)%Z) m.

(** A separator of [s] with the marker of an episode right after it. *)
Fixpoint holds_marker (s : str) : bool :=
  match s with
  | c :: t =>
      (is_separator c && match Spec.marker t with Some _ => true | None => false end)
      || holds_marker t
  | [] => false
  end.

(** A name the parsers give back as it is: it starts and ends with a letter
    or a digit, holds neither a dot nor a line break, and no marker of an
    episode after a separator. *)
Definition settled (name : str) : bool :=
  match name, rev name with
  | c :: _, z :: _ =>
      negb (is_separator c) && negb (is_separator z)
      && forallb (fun x => negb (chr_eqb x ".") && is_dot x) name
      && negb (holds_marker name)
  | _, _ => false
  end.

(** A name of the episode scheme for the show [sh]; [rest] is what follows
    the marker: the title of the episode if there is one, and the extension. *)
Definition episode_name (sh : str) (s e : Z) (rest : str) : str :=
  sh ++ L" - S" ++ fmt02 s ++ L"E" ++ fmt02 e ++ rest.

(** A name of the film scheme: the title, the year in brackets, the
    extension. *)
Definition film_name (title y ext : str) : str :=
  title ++ L" (" ++ y ++ L")" ++ ext.

(** The folder of the entry is left as it was. *)
Definition same_folder {W D} (w w' : world W D) : Prop :=
  dir_entry (gui w') = dir_entry (gui w).

(** The sources of renames. *)
Definition sources (log : list renaming) : list str := map fst (map fst log).

(** The year of a film in brackets, as a name carries it. *)
Definition bracketed (y : option Z) : str :=
  match y with
  | Some y => L" (" ++ str_of_int y ++ L")"
  | None => []
  end.

(** * Facts *)

(** ** Characters and strings *)

Ltac by_cases_on c :=
  destruct c as [[] [] [] [] [] [] [] []]; vm_compute; intuition congruence.

Lemma chr_eqb_eq (a b : ascii) : chr_eqb a b = true <-> a = b.
Proof. apply Ascii.eqb_eq. Qed.

Lemma chr_eqb_refl (a : ascii) : chr_eqb a a = true.
Proof. apply Ascii.eqb_refl. Qed.

Lemma str_eqb_eq (a b : str) : str_eqb a b = true <-> a = b.
Proof.
  revert b; induction a as [|x a IH]; intros [|y b]; simpl; split; intro H;
    try congruence; try discriminate.
  - apply andb_true_iff in H as [H1 H2].
    apply chr_eqb_eq in H1. apply IH in H2. congruence.
  - injection H as -> ->. rewrite chr_eqb_refl. simpl. now apply IH.
Qed.

Lemma str_eqb_refl (a : str) : str_eqb a a = true.
Proof. now apply str_eqb_eq. Qed.

Lemma str_eqb_neq (a b : str) : str_eqb a b = false <-> a <> b.
Proof.
  split; intro H.
  - intro E. apply str_eqb_eq in E. congruence.
  - destruct (str_eqb a b) eqn:E; [|reflexivity]. apply str_eqb_eq in E. contradiction.
Qed.

Lemma digit_val_range c : is_digit c = true -> (0 <= digit_val c <= 9)%Z.
Proof. by_cases_on c. Qed.

Lemma digit_one c : is_digit c = true -> chr_eqb c "1" = (digit_val c =? 1)%Z.
Proof. by_cases_on c. Qed.

Lemma digit_or_not c :
  (is_digit c = true /\ (0 <= digit_val c <= 9)%Z
   /\ chr_eqb c "0" = (digit_val c =? 0)%Z /\ chr_eqb c "1" = (digit_val c =? 1)%Z
   /\ chr_eqb c "2" = (digit_val c =? 2)%Z /\ chr_eqb c "9" = (digit_val c =? 9)%Z)
  \/ (is_digit c = false
      /\ chr_eqb c "0" = false /\ chr_eqb c "1" = false
      /\ chr_eqb c "2" = false /\ chr_eqb c "9" = false).
Proof. by_cases_on c. Qed.

Lemma rep_done greedy p s : Re.rep greedy p 0 (Some 0) s = [s].
Proof.
  destruct s as [|c s]; destruct greedy; cbn; rewrite ?andb_false_r; reflexivity.
Qed.

(** Run the matcher on a string whose length is known, deciding each test
    on a character as it comes up. *)
Ltac run_matcher_step :=
  cbn -[chr_eqb is_digit is_separator is_dot Re.lit_match int_of_str
        Z.leb Z.eqb digit_val Z.mul Z.add];
  change (Re.lit_match false) with (fun c x => chr_eqb x c); cbv beta;
  rewrite ?rep_done, ?andb_true_r, ?andb_false_r, ?app_nil_r.

Ltac run_matcher :=
  repeat (run_matcher_step;
          match goal with
          | |- context [if ?b then _ else _] => destruct b eqn:?
          end);
  run_matcher_step.

Ltac use_digit c :=
  destruct (digit_or_not c) as [(? & ? & ? & ? & ? & ?) | (? & ? & ? & ? & ?)];
  try congruence.

Ltac to_Z :=
  repeat match goal with
    | H1 : ?b = (?x =? ?y)%Z, H2 : ?b = true |- _ =>
        rewrite H2 in H1; symmetry in H1; apply Z.eqb_eq in H1
    | H1 : ?b = (?x =? ?y)%Z, H2 : ?b = false |- _ =>
        rewrite H2 in H1; symmetry in H1; apply Z.eqb_neq in H1
    end.

Ltac decide_Z :=
  repeat match goal with
    | |- context [(?x =? ?y)%Z] => destruct (Z.eqb_spec x y)
    | |- context [(?x <=? ?y)%Z] => destruct (Z.leb_spec x y)
    end; cbn; try reflexivity; try lia.

Lemma year_re_spec t :
  matched (Re.fullmatch false year_re t) = Spec.is_year_token t.
Proof.
  unfold Re.fullmatch, year_re, Spec.is_year_token.
  destruct t as [|a [|b [|c [|d [|e t]]]]]; try (run_matcher; reflexivity).
  run_matcher; use_digit a; use_digit b; use_digit c; use_digit d; to_Z;
      repeat match goal with H : is_digit _ = _ |- _ => rewrite H end;
      cbn -[Z.leb digit_val Z.mul Z.add]; try reflexivity; decide_Z.
Qed.

Lemma lit_p x : Re.lit_match true "p" x = (chr_eqb x "p" || chr_eqb x "P").
Proof. by_cases_on x. Qed.
Lemma lit_k x : Re.lit_match true "k" x = (chr_eqb x "k" || chr_eqb x "K").
Proof. by_cases_on x. Qed.
Lemma lit_4 x : Re.lit_match true "4" x = chr_eqb x "4".
Proof. by_cases_on x. Qed.
Lemma lit_S x : Re.lit_match true "S" x = Spec.is_S x.
Proof. by_cases_on x. Qed.
Lemma lit_E x : Re.lit_match true "E" x = Spec.is_E x.
Proof. by_cases_on x. Qed.

Ltac settle :=
  repeat match goal with
    | H : ?b = _ |- context [?b] => rewrite H
    end;
  cbn; rewrite ?andb_false_r, ?andb_true_r, ?orb_false_r, ?orb_true_r;
  try reflexivity;
  repeat match goal with
    | |- context [chr_eqb ?a ?b] => destruct (chr_eqb a b)
    | |- context [is_digit ?a] => destruct (is_digit a)
    end;
  try reflexivity; try discriminate.

Lemma resolution_long t :
  6 <= length t -> Spec.is_resolution_marker t = false.
Proof.
  intro H. unfold Spec.is_resolution_marker.
  destruct t as [|a [|b [|c t]]]; cbn in H; try lia.
  assert (Hlen : length (rev (a :: b :: c :: t)) = S (S (S (length t))))
    by now rewrite length_rev.
  destruct (rev (a :: b :: c :: t)) as [|p digits]; [reflexivity|].
  cbn in Hlen. replace (between 3 4 (length digits)) with false.
  - cbn. now rewrite !andb_false_r.
  - unfold between. symmetry. apply andb_false_iff. right.
    apply Nat.leb_gt. lia.
Qed.

Lemma resolution_re_spec t :
  matched (Re.fullmatch true resolution_re t) = Spec.is_resolution_marker t.
Proof.
  destruct t as [|a [|b [|c [|d [|e [|f t]]]]]].
  7: { rewrite resolution_long by (cbn; lia).
       unfold Re.fullmatch, resolution_re. run_matcher; reflexivity. }
  all: unfold Re.fullmatch, resolution_re, Spec.is_resolution_marker;
    run_matcher; rewrite ?lit_p, ?lit_k, ?lit_4 in *; settle.
Qed.

Lemma year_loop_spec parts pre rest :
  parts = pre ++ rest ->
  year_loop parts rest (length pre) =
  match Spec.first_year rest with
  | Some i =>
      Some {| title := str_join L" " (firstn (length pre + i) parts);
              year := Some (int_of_str (nth i rest [])) |}
  | None => None
  end.
Proof.
  revert pre; induction rest as [|t rest IH]; intros pre E; [reflexivity|].
  cbn [year_loop Spec.first_year].
  rewrite <- year_re_spec.
  destruct (Re.fullmatch false year_re t) as [g|]; cbn [matched].
  - now rewrite Nat.add_0_r.
  - specialize (IH (pre ++ [t])).
    rewrite length_app, Nat.add_1_r in IH.
    rewrite IH by now rewrite <- app_assoc.
    destruct (Spec.first_year rest) as [i|]; cbn; [|reflexivity].
    now rewrite Nat.add_succ_r.
Qed.

(** C3. [parse_movie] does what the specification says of [parseMovie]: it
    strips the extension, splits the base name on runs of dots and white
    space, returns on the earliest token that is a four-digit year between
    1900 and 2099 with the title made of the tokens before it joined by single
    spaces and the year as an integer; failing that, when there are at least
    two tokens and the second is a resolution marker, it returns the first
    token with no year; and otherwise nothing. *)
Theorem parse_movie_meets_spec :
  (forall filename, parse_movie filename = Spec.parseMovie filename)
  /\ parse_movie L"Inception.2010.1080p.mkv"
     = Some {| title := L"Inception"; year := Some 2010%Z |}
  /\ parse_movie L"Movie.4k.mkv" = Some {| title := L"Movie"; year := None |}.
Proof.
  split; [|split; reflexivity].
  intro filename. unfold parse_movie, Spec.parseMovie, Spec.tokens, Spec.base_name.
  set (parts := Re.split_plus is_dot_or_space (fst (PosixPath.splitext filename))).
  change (year_loop parts parts 0) with (year_loop parts parts (length (@nil str))).
  rewrite (year_loop_spec parts [] parts eq_refl). cbn [length Nat.add].
  destruct (Spec.first_year parts) as [i|]; [reflexivity|].
  destruct parts as [|p0 [|p1 rest]]; try reflexivity.
  cbn [length Nat.leb nth andb]. rewrite <- resolution_re_spec.
  now destruct (Re.fullmatch true resolution_re p1).
Qed.

Lemma capture1 (a : ascii) t : firstn (length (a :: t) - length t) (a :: t) = [a].
Proof.
  replace (length (a :: t) - length t) with 1 by (cbn [length]; lia). reflexivity.
Qed.

Lemma capture2 (a b : ascii) t :
  firstn (length (a :: b :: t) - length t) (a :: b :: t) = [a; b].
Proof.
  replace (length (a :: b :: t) - length t) with 2 by (cbn [length]; lia). reflexivity.
Qed.

Lemma digit_not_E x : is_digit x = true -> Spec.is_E x = false.
Proof. by_cases_on x. Qed.

Lemma separator_not_S x : is_separator x = true -> Spec.is_S x = false.
Proof. by_cases_on x. Qed.

Ltac run_marker_step :=
  cbn -[chr_eqb is_digit is_separator is_dot Re.lit_match int_of_str
        firstn length Nat.sub Spec.is_S Spec.is_E];
  rewrite ?rep_done, ?andb_true_r, ?andb_false_r, ?app_nil_r,
    ?lit_S, ?lit_E, ?capture1, ?capture2.

Ltac run_marker :=
  repeat (run_marker_step;
          match goal with
          | |- context [if ?b then _ else _] => destruct b eqn:?
          end);
  run_marker_step.

Ltac clash :=
  repeat match goal with
    | H : _ && _ = true |- _ => apply andb_true_iff in H as [? ?]
    end;
  match goal with
  | H1 : is_digit ?x = true, H2 : Spec.is_E ?x = true |- _ =>
      rewrite (digit_not_E x H1) in H2; discriminate
  | H1 : ?b = true, H2 : ?b = false |- _ => congruence
  end.

Lemma marker_re_spec s g :
  first_groups (Re.matches true marker_re s g)
  = option_map (marker_groups g) (Spec.marker s).
Proof.
  unfold first_groups, marker_re, Spec.marker, Spec.episode_part, marker_groups.
  destruct s as [|c [|d1 [|d2 [|x3 [|x4 [|x5 t]]]]]];
    run_marker; try reflexivity; try clash.
  all: idtac.
Qed.

Lemma first_groups_app a b :
  first_groups (a ++ b)
  = match first_groups a with Some x => Some x | None => first_groups b end.
Proof. now destruct a. Qed.

Lemma first_groups_none_nil a : first_groups a = None -> a = [].
Proof. destruct a; [reflexivity|discriminate]. Qed.

Lemma marker_needs_S c t : Spec.is_S c = false -> Spec.marker (c :: t) = None.
Proof. intro H. unfold Spec.marker. rewrite H. now destruct t. Qed.

(** The greedy run of separators, from a position where one was taken. *)
Lemma separators_greedy t g :
  first_groups
    (flat_map (fun m => Re.matches true marker_re (fst m) (snd m))
       (map (fun x => (x, g)) (Re.rep true is_separator 0 None t)))
  = match Spec.marker t with
    | Some r => Some (marker_groups g r)
    | None => option_map (marker_groups g) (Spec.separators_then_marker t)
    end.
Proof.
  induction t as [|c t IH].
  - cbn. reflexivity.
  - cbn [Re.rep Re.may_repeat Nat.pred option_map].
    rewrite andb_true_r, map_app, flat_map_app, first_groups_app.
    cbn [map flat_map fst snd]. rewrite app_nil_r, marker_re_spec.
    cbn [Spec.separators_then_marker].
    destruct (is_separator c) eqn:Hc.
    + rewrite IH, (marker_needs_S c t (separator_not_S c Hc)).
      destruct (Spec.marker t); [reflexivity|].
      now destruct (Spec.separators_then_marker t).
    + cbn. now destruct (Spec.marker (c :: t)).
Qed.

Lemma tail_re_spec s g :
  first_groups (Re.matches true tail_re s g)
  = option_map (marker_groups g) (Spec.separators_then_marker s).
Proof.
  unfold tail_re. cbn [Re.matches].
  destruct s as [|c t]; [reflexivity|].
  cbn [Re.rep Re.may_repeat Nat.pred option_map Spec.separators_then_marker].
  rewrite andb_true_r, app_nil_r.
  destruct (is_separator c); [|reflexivity].
  rewrite separators_greedy. now destruct (Spec.marker t).
Qed.

Lemma capture_app (run t : str) :
  firstn (length (run ++ t) - length t) (run ++ t) = run.
Proof.
  rewrite length_app, Nat.add_sub, firstn_app, Nat.sub_diag, firstn_all.
  cbn. apply app_nil_r.
Qed.

(** The lazy run of the show name, after the characters [run]. *)
Lemma show_lazy run t g :
  first_groups
    (flat_map (fun m => Re.matches true tail_re (fst m) (snd m))
       (map (fun m => (fst m,
                       ("show", firstn (length (run ++ t) - length (fst m)) (run ++ t))
                         :: snd m))
          (map (fun x => (x, g)) (Re.rep false is_dot 0 None t))))
  = match Spec.separators_then_marker t with
    | Some r => Some (show_groups g (run, r))
    | None => option_map (show_groups g) (Spec.lazy_run run t)
    end.
Proof.
  revert run; induction t as [|c t IH]; intro run.
  - cbn [Re.rep app map flat_map fst snd]. rewrite app_nil_r, capture_app, tail_re_spec.
    reflexivity.
  - cbn [Re.rep Re.may_repeat Nat.pred option_map app].
    rewrite andb_true_r. cbn [map flat_map fst snd].
    rewrite first_groups_app, capture_app, tail_re_spec.
    destruct (Spec.separators_then_marker (c :: t)) as [r|] eqn:E; [reflexivity|].
    cbn [option_map Spec.lazy_run].
    destruct (is_dot c); [|reflexivity].
    replace (run ++ c :: t) with ((run ++ [c]) ++ t) by now rewrite <- app_assoc.
    rewrite IH. now destruct (Spec.separators_then_marker t).
Qed.

Lemma tv_pattern_at s :
  first_groups (Re.matches true tv_pattern s [])
  = option_map (show_groups []) (Spec.lazy_run [] s).
Proof.
  change tv_pattern with
    (Re.Seq (Re.Grp "show" (Re.Rep false 1 None is_dot)) tail_re).
  cbn [Re.matches].
  destruct s as [|c t]; [reflexivity|].
  cbn [Re.rep Re.may_repeat Nat.pred option_map app Spec.lazy_run].
  rewrite andb_true_r.
  destruct (is_dot c); [|reflexivity].
  pose proof (show_lazy [c] t []) as H. cbn [app] in H.
  etransitivity; [exact H|].
  now destruct (Spec.separators_then_marker t).
Qed.

Lemma search_tv_pattern s :
  Re.search true tv_pattern s = option_map (show_groups []) (Spec.search_marker s).
Proof.
  induction s as [|c t IH].
  - reflexivity.
  - cbn [Re.search Spec.search_marker].
    pose proof (tv_pattern_at (c :: t)) as H. unfold first_groups in H.
    destruct (Re.matches true tv_pattern (c :: t) []) as [|m ms];
      destruct (Spec.lazy_run [] (c :: t)) as [r|]; cbn in H; try discriminate.
    + exact IH.
    + now injection H as ->.
Qed.

(** C4. [parse_tv] does what the specification says of [parseEpisode]: it
    strips the extension and searches the base name, from the leftmost
    position and without regard to case, for the shortest run of characters
    followed by one or more separators (non-word characters or underscores),
    then [S], one or two digits, [E] and two digits; without a match it
    returns nothing, and with one it returns the run with dots replaced by
    spaces and stripped of surrounding white space, and the season and the
    episode as integers. *)
Theorem parse_tv_meets_spec :
  (forall filename, parse_tv filename = Spec.parseEpisode filename)
  /\ parse_tv L"Show Name - s2e04.mkv"
     = Some {| show := L"Show Name"; season := 2; episode := 4 |}
  /\ parse_tv L"Show.Name.S02E04.mkv"
     = Some {| show := L"Show Name"; season := 2; episode := 4 |}.
Proof.
  split; [|split; reflexivity].
  intro filename. unfold parse_tv, Spec.parseEpisode, Spec.base_name.
  rewrite search_tv_pattern.
  destruct (Spec.search_marker (fst (PosixPath.splitext filename)))
    as [[name [s e]]|]; reflexivity.
Qed.

Lemma str_join_empty_cons x l : str_join [] (x :: l) = x ++ str_join [] l.
Proof. destruct l; cbn; [now rewrite app_nil_r|reflexivity]. Qed.

Lemma split_go_joined p b cur s :
  str_join [] (Re.split_go p b cur s) = cur ++ filter (fun c => negb (p c)) s.
Proof.
  revert b cur; induction s as [|c s IH]; intros b cur; cbn [Re.split_go filter].
  - cbn. now rewrite app_nil_r.
  - destruct (p c); cbn [negb].
    + destruct b; [apply IH|]. rewrite str_join_empty_cons, IH. reflexivity.
    + rewrite IH, <- app_assoc. reflexivity.
Qed.

Lemma normalize_spec o : normalize o = Spec.normalized (or_empty o).
Proof.
  unfold normalize, Spec.normalized, lower, Re.sub_plus, Re.split_plus.
  rewrite split_go_joined. cbn [app]. f_equal.
  apply filter_ext. intro c. unfold is_nonword. apply negb_involutive.
Qed.

Lemma exact_loop_find q results :
  exact_loop q results
  = find (fun r => str_eqb (Spec.normalized (or_empty (t_name r))) q) results.
Proof.
  induction results as [|r rest IH]; [reflexivity|].
  cbn [exact_loop find]. rewrite normalize_spec, IH. reflexivity.
Qed.

(** [search_tv], run. *)
Lemma search_tv_run {W D} (tr : transport W) title yr (w : world W D) :
  search_tv tr title yr w
  = match requests_get tr (SearchTv title (year_param yr)) w with
    | (inr results, w') => (inr (Spec.searchShow title results), w')
    | (inl e, w') => (inl e, w')
    end.
Proof.
  unfold search_tv, bind.
  destruct (requests_get tr (SearchTv title (year_param yr)) w) as [[e|results] w'];
    [reflexivity|].
  unfold Spec.searchShow. destruct results as [|first rest]; [reflexivity|].
  rewrite exact_loop_find, normalize_spec. cbn [or_empty].
  now destruct (find _ (first :: rest)).
Qed.

(** C8. For every title and every response of the catalog, [search_tv]
    returns what the specification says of [searchShow]: nothing when the
    result set is empty; otherwise the first result whose normalized name
    (non-word characters removed, lowercased) equals the normalized query, and
    the provider's first result when no name does.  A failed request raises
    and nothing is returned. *)
Theorem search_tv_meets_spec {W D} (tr : transport W) title yr (w : world W D) :
  search_tv tr title yr w
  = match requests_get tr (SearchTv title (year_param yr)) w with
    | (inr results, w') => (inr (Spec.searchShow title results), w')
    | (inl e, w') => (inl e, w')
    end.
Proof.
  unfold search_tv, bind.
  destruct (requests_get tr (SearchTv title (year_param yr)) w) as [[e|results] w'];
    [reflexivity|].
  destruct results as [|first rest]; [reflexivity|].
  cbn [Spec.searchShow]. rewrite exact_loop_find, normalize_spec. cbn [or_empty].
  destruct (find _ (first :: rest)) as [r|]; reflexivity.
Qed.

Section Monad_facts.

Context {W D : Type}.
Implicit Types w : world W D.

Lemma bind_inr {A B} (m : M A) (k : A -> M B) w a w' :
  m w = (inr a, w') -> bind m k w = k a w'.
Proof. unfold bind. now intros ->. Qed.

Lemma bind_inl {A B} (m : M A) (k : A -> M B) w e w' :
  m w = (inl e, w') -> bind m k w = (inl e, w').
Proof. unfold bind. now intros ->. Qed.

(** The guarded rename of each loop of [rename_files]: it never raises,
    records the call, and adds one labelled message when the call fails. *)
Lemma guarded_rename (fs : filesystem D) src dst errors (label : exn -> str) w :
  try_except (bind (os_rename fs src dst) (fun _ => ret errors))
             (fun e => ret (errors ++ [label e])) w
  = (inr (match fst (fs_rename fs src dst (disk w)) with
          | Some e => errors ++ [label e]
          | None => errors
          end),
     {| gui := gui w; net := net w; calls := calls w;
        disk := snd (fs_rename fs src dst (disk w));
        renames := renames w ++ [(src, dst, fst (fs_rename fs src dst (disk w)))] |}).
Proof.
  unfold try_except, bind, os_rename, ret.
  destruct (fs_rename fs src dst (disk w)) as [[e|] d']; reflexivity.
Qed.

End Monad_facts.

Section Loop_facts.

Context {W D : Type}.
Variable fs : filesystem D.
Implicit Types w : world W D.

Lemma for_acc_ext {A B} (l : list A) (f g : B -> A -> M B) :
  (forall acc x w, f acc x w = g acc x w) ->
  forall acc w, for_acc l acc f w = for_acc l acc g w.
Proof.
  intro H. induction l as [|x l IH]; intros acc w; [reflexivity|].
  cbn [for_acc]. unfold bind. rewrite H.
  destruct (g acc x w) as [[e|acc'] w']; [reflexivity|apply IH].
Qed.

Lemma guarded_loop {A} (pick : A -> option (str * str * (exn -> str)))
      (body : list str -> A -> M (list str)) :
  (forall errors x w,
      body errors x w
      = match pick x with
        | None => ret errors w
        | Some (src, dst, label) =>
            try_except (bind (os_rename fs src dst) (fun _ => ret errors))
                       (fun e => ret (errors ++ [label e])) w
        end) ->
  forall l errors w,
    for_acc l errors body w
    = (inr (fst (fst (replay fs pick l errors (disk w) (renames w)))),
       {| gui := gui w; net := net w; calls := calls w;
          disk := snd (fst (replay fs pick l errors (disk w) (renames w)));
          renames := snd (replay fs pick l errors (disk w) (renames w)) |}).
Proof.
  intro H. induction l as [|x l IH]; intros errors w.
  - cbn. now destruct w.
  - cbn [for_acc replay]. unfold bind at 1. rewrite H.
    destruct (pick x) as [[[src dst] label]|].
    + rewrite guarded_rename, IH. reflexivity.
    + unfold ret. rewrite IH. reflexivity.
Qed.

Lemma replay_log {A} (pick : A -> option (str * str * (exn -> str))) l errors d log :
  map fst (snd (replay fs pick l errors d log)) = map fst log ++ picked pick l.
Proof.
  revert errors d log; induction l as [|x l IH]; intros errors d log; cbn [replay picked flat_map].
  - now rewrite app_nil_r.
  - destruct (pick x) as [[[src dst] label]|]; [|apply IH].
    rewrite IH, map_app, <- app_assoc. reflexivity.
Qed.

End Loop_facts.

Section Executor_facts.

Context {W D : Type}.
Variable fs : filesystem D.
Implicit Types w : world W D.

Lemma file_loop folder l errors w :
  for_acc l errors (file_body fs folder) w
  = (fst (fst (replay_files fs folder l errors (disk w) (renames w))),
     {| gui := gui w; net := net w; calls := calls w;
        disk := snd (fst (replay_files fs folder l errors (disk w) (renames w)));
        renames := snd (replay_files fs folder l errors (disk w) (renames w)) |}).
Proof.
  revert errors w; induction l as [|[orig_rel new_rel] l IH]; intros errors w.
  - cbn. now destruct w.
  - cbn [for_acc replay_files]. unfold bind at 1. unfold file_body at 1.
    unfold bind at 1. unfold the_disk at 1. cbn iota beta.
    unfold bind at 1.
    set (dst_dir := PosixPath.dirname (PosixPath.join folder new_rel)).
    destruct dst_dir as [|c dd] eqn:Edir.
    + unfold ret at 1. rewrite guarded_rename, IH. cbn [fst snd disk renames]. reflexivity.
    + destruct (fs_exists fs (disk w) (c :: dd)); cbn [negb].
      * unfold ret at 1. rewrite guarded_rename, IH. reflexivity.
      * unfold os_makedirs at 1.
        destruct (fs_makedirs fs (c :: dd) (disk w)) as [[e|] d'] eqn:Em; cbn [fst snd].
        -- reflexivity.
        -- rewrite guarded_rename, IH. reflexivity.
Qed.

Lemma replay_files_log folder l errors d log :
  exists n,
    n <= length l
    /\ map fst (snd (replay_files fs folder l errors d log))
       = map fst log ++ Plan.file_phase folder (firstn n l)
    /\ (forall errs, fst (fst (replay_files fs folder l errors d log)) = inr errs ->
        n = length l).
Proof.
  revert errors d log; induction l as [|[orig_rel new_rel] l IH]; intros errors d log.
  - exists 0. cbn. rewrite app_nil_r. auto.
  - cbn [replay_files].
    set (m := match PosixPath.dirname (PosixPath.join folder new_rel) with
              | [] => (None, d)
              | _ :: _ => _
              end).
    destruct (fst m) as [e|].
    + exists 0. cbn. rewrite app_nil_r. repeat split; [lia|discriminate].
    + match goal with
      | |- context [replay_files fs folder l ?e ?d' ?g] =>
          destruct (IH e d' g) as (n & Hn & Hlog & Hall)
      end.
      exists (S n). cbn [length firstn]. repeat split; [lia| |].
      * rewrite Hlog, map_app, <- app_assoc. reflexivity.
      * intros errs H. f_equal. eauto.
Qed.

End Executor_facts.

Section Executor_run.

Context {W D : Type}.
Variable fs : filesystem D.
Implicit Types w : world W D.

Lemma picked_folder folder l : picked (pick_folder folder) l = Plan.folder_phase folder l.
Proof.
  unfold Plan.folder_phase, pick_folder.
  induction l as [|e l IH]; [reflexivity|].
  cbn [picked flat_map filter]. fold (picked (pick_folder folder) l).
  destruct (Plan.is_root folder e); cbn; [exact IH|]. f_equal. exact IH.
Qed.

Lemma picked_root folder l : picked (pick_root folder) l = Plan.root_phase folder l.
Proof.
  unfold Plan.root_phase, pick_root.
  induction l as [|e l IH]; [reflexivity|].
  cbn [picked flat_map filter]. fold (picked (pick_root folder) l).
  destruct (Plan.is_root folder e); cbn; [|exact IH]. f_equal. exact IH.
Qed.

(** [rename_files], run: nothing without a folder; otherwise the three
    loops, and the closing dialog unless a directory could not be made. *)
Lemma rename_files_run w :
  rename_files fs w
  = match dir_entry (gui w) with
    | [] => (inr tt, w)
    | _ :: _ =>
        let r := replay_plan fs (dir_entry (gui w)) (file_preview_list (gui w))
                   (folder_preview_list (gui w)) (disk w) (renames w) in
        match fst (fst r) with
        | inl e =>
            (inl e, {| gui := gui w; net := net w; calls := calls w;
                       disk := snd (fst r); renames := snd r |})
        | inr errors =>
            (inr tt, {| gui := with_dialog (gui w) (report errors);
                        net := net w; calls := calls w;
                        disk := snd (fst r); renames := snd r |})
        end
    end.
Proof.
  unfold rename_files. unfold bind at 1. unfold self at 1.
  destruct (dir_entry (gui w)) as [|c folder'] eqn:Ef; [reflexivity|].
  unfold bind at 1.
  rewrite (for_acc_ext _ _ (file_body fs (c :: folder'))) by (intros ? [? ?] ?; reflexivity).
  rewrite file_loop. unfold replay_plan. cbn zeta.
  destruct (fst (fst (replay_files fs (c :: folder') (file_preview_list (gui w)) []
                        (disk w) (renames w)))) as [e|errors1] eqn:E1.
  - cbn [fst snd]. rewrite E1. reflexivity.
  - unfold bind at 1.
    rewrite (guarded_loop fs (pick_folder (c :: folder')))
      by (intros ? [? ?] ?; unfold pick_folder, Plan.is_root; cbn [fst snd];
          now destruct (str_eqb _ _)).
    unfold bind at 1.
    rewrite (guarded_loop fs (pick_root (c :: folder')))
      by (intros ? [? ?] ?; unfold pick_root, Plan.is_root; cbn [fst snd];
          now destruct (str_eqb _ _)).
    cbn [fst snd gui net calls disk renames].
    destruct (fst (fst (replay fs (pick_root (c :: folder')) _ _ _ _))); reflexivity.
Qed.

End Executor_run.



Section Naming_facts.

Context {W D : Type}.
Variable tr : transport W.
Implicit Types w : world W D.

(** One file of the preview loop, run. *)
Lemma preview_file_run rel_dir f w :
  preview_file tr rel_dir f w
  = match get_new_name tr f w with
    | (inl e, w') => (inl e, w')
    | (inr new_file, w') =>
        (inr tt,
         {| gui := with_file_preview (gui w') (rel_path rel_dir f) (rel_path rel_dir new_file);
            net := net w'; calls := calls w';
            disk := disk w'; renames := renames w' |})
    end.
Proof.
  unfold preview_file, bind.
  destruct (get_new_name tr f w) as [[e|new_file] w']; [reflexivity|].
  unfold rel_path. destruct rel_dir as [|c r]; [reflexivity|].
  destruct (str_eqb (c :: r) L"."); reflexivity.
Qed.

(** C5. [get_new_name] tries [parse_movie] first: when it succeeds the one
    catalog request made is the movie search for the parsed title and year,
    whatever [parse_tv] would say of the name.  Only when [parse_movie]
    returns nothing is [parse_tv] consulted: its success opens with the show
    search for the parsed show, followed at most by the lookup of the episode
    title.  When both return nothing the name is returned as it is, no request
    is made, and the entry the scan adds for the file is an identity: the
    same relative path on both sides. *)
Theorem naming_order f rel_dir w :
  match parse_movie f with
  | Some m =>
      exists out,
        calls (snd (get_new_name tr f w))
        = calls w ++ [(SearchMovie (title m) (year_param (year m)), out)]
  | None =>
      match parse_tv f with
      | Some t =>
          exists out more,
            calls (snd (get_new_name tr f w))
            = calls w ++ (SearchTv (show t) None, out) :: more
            /\ (more = [] \/ exists i o, more = [(Episode i (season t) (episode t), o)])
      | None =>
          get_new_name tr f w = (inr f, w)
          /\ preview_file tr rel_dir f w
             = (inr tt,
                {| gui := with_file_preview (gui w) (rel_path rel_dir f) (rel_path rel_dir f);
                   net := net w; calls := calls w;
                   disk := disk w; renames := renames w |})
      end
  end.
Proof.
  destruct (parse_movie f) as [m|] eqn:Em; [|destruct (parse_tv f) as [t|] eqn:Et].
  - unfold get_new_name. rewrite Em.
    unfold search_movie, bind, requests_get.
    destruct (tr (SearchMovie (title m) (year_param (year m))) (net w)) as [[e|results] n'].
    + eexists; reflexivity.
    + unfold ret at 1. destruct results as [|r rest].
      * destruct (year m) as [y|]; [destruct (truthy_int (Some y))|]; eexists; reflexivity.
      * destruct (firstn 4 (or_empty (m_release_date r))); eexists; reflexivity.
  - unfold get_new_name. rewrite Em, Et.
    unfold bind at 1. rewrite search_tv_run. unfold requests_get.
    change (year_param None) with (@None Z).
    destruct (tr (SearchTv (show t) None) (net w)) as [[e|results] n'].
    + exists (Some e), []. split; [reflexivity|now left].
    + destruct (Spec.searchShow (show t) results) as [r|].
      * unfold bind, try_except.
        destruct (t_id r) as [i|].
        -- unfold get_episode_name, requests_get. cbn [net calls].
           destruct (tr (Episode i (season t) (episode t)) n') as [[e|name] n''].
           ++ unfold ret at 1. cbn [truthy_str].
              exists None, [(Episode i (season t) (episode t), Some e)].
              split; [|right; eauto].
              cbn. now rewrite <- app_assoc.
           ++ exists None, [(Episode i (season t) (episode t), None)].
              split; [|right; eauto].
              destruct (truthy_str name); cbn; now rewrite <- app_assoc.
        -- exists None, []. split; [reflexivity|now left].
      * exists None, []. split; [reflexivity|now left].
  - assert (H : get_new_name tr f w = (inr f, w))
      by (unfold get_new_name; now rewrite Em, Et).
    split; [exact H|]. now rewrite preview_file_run, H.
Qed.

End Naming_facts.

Section Logic_facts.

Context {W D : Type}.
Implicit Types w : world W D.

Section Steps.

Variable R : world W D -> world W D -> Prop.
Context {HR : Order R}.

Lemma steps_ret {A} (a : A) : steps R (ret a).
Proof. intro w. apply order_refl. Qed.

Lemma steps_raise {A} e : steps R (@raise W D A e).
Proof. intro w. apply order_refl. Qed.

Lemma steps_self : steps R self.
Proof. intro w. apply order_refl. Qed.

Lemma steps_the_disk : steps R the_disk.
Proof. intro w. apply order_refl. Qed.

Lemma steps_bind {A B} (m : M A) (k : A -> M B) :
  steps R m -> (forall a, steps R (k a)) -> steps R (bind m k).
Proof.
  intros Hm Hk w. unfold bind. specialize (Hm w).
  destruct (m w) as [[e|a] w']; cbn [snd] in *; [exact Hm|].
  eapply order_trans; [exact Hm|apply Hk].
Qed.

Lemma steps_try {A} (m : M A) (h : exn -> M A) :
  steps R m -> (forall e, steps R (h e)) -> steps R (try_except m h).
Proof.
  intros Hm Hh w. unfold try_except. specialize (Hm w).
  destruct (m w) as [[e|a] w']; cbn [snd] in *; [|exact Hm].
  eapply order_trans; [exact Hm|apply Hh].
Qed.

Lemma steps_for_each {A} (l : list A) (body : A -> M unit) :
  (forall x, steps R (body x)) -> steps R (for_each l body).
Proof.
  intro Hb. induction l as [|x l IH]; cbn [for_each].
  - apply steps_ret.
  - apply steps_bind; auto.
Qed.

End Steps.

Lemma returns_ret {A} (P : A -> Prop) a : P a -> returns P (@ret W D A a).
Proof. intros H w v w' E. unfold ret in E. congruence. Qed.

Lemma returns_bind {A B} (P : B -> Prop) (m : @M W D A) (k : A -> M B) :
  (forall a, returns P (k a)) -> returns P (bind m k).
Proof.
  intros Hk w v w' E. unfold bind in E.
  destruct (m w) as [[e|a] w1]; [discriminate|]. eapply Hk, E.
Qed.

Lemma ends_with_refl s : ends_with s s.
Proof. now exists []. Qed.

Lemma ends_with_app suffix x s : ends_with suffix s -> ends_with suffix (x ++ s).
Proof. intros [stem ->]. exists (x ++ stem). now rewrite app_assoc. Qed.

End Logic_facts.

#[export] Instance same_disk_order {W D} : Order (@same_disk W D).
Proof. split; unfold same_disk; intuition congruence. Qed.

#[export] Instance same_window_order {W D} : Order (@same_window W D).
Proof. split; unfold same_window; intuition congruence. Qed.

#[export] Instance same_folders_order {W D} : Order (@same_folders W D).
Proof. split; unfold same_folders; intuition congruence. Qed.

#[export] Instance same_calls_order {W D} : Order (@same_calls W D).
Proof. split; unfold same_calls; intuition congruence. Qed.

Section Frame_facts.

Context {W D : Type}.
Variable tr : transport W.
Variable fs : filesystem D.
Implicit Types w : world W D.

Lemma requests_get_window r : steps (@same_window W D) (requests_get tr r).
Proof.
  intro w. unfold requests_get. destruct (tr r (net w)). now repeat split.
Qed.

Lemma requests_get_folders r : steps (@same_folders W D) (requests_get tr r).
Proof. intro w. unfold requests_get. now destruct (tr r (net w)). Qed.

Lemma requests_get_disk r : steps (@same_disk W D) (requests_get tr r).
Proof. intro w. unfold requests_get. destruct (tr r (net w)). now split. Qed.

Lemma update_disk f : steps (@same_disk W D) (update f).
Proof. intro w. now split. Qed.

Lemma update_calls f : steps (@same_calls W D) (update f).
Proof. intro w. now split. Qed.

End Frame_facts.

Ltac open_client :=
  unfold search_movie, search_tv, get_episode_name, get_movie_imdb_id, get_tv_imdb_id.

(** Walk through a program, applying the rule for each construct. *)
Ltac walk_steps prim :=
  repeat first
    [ match goal with |- Order _ => exact _ end
    | apply steps_ret | apply steps_raise | apply steps_self | apply steps_the_disk
    | prim
    | apply steps_bind; [| |intro]
    | apply steps_try; [| |intro]
    | apply steps_for_each; [|intro]
    | match goal with
      | |- steps _ (match ?x with _ => _ end) => destruct x
      end ].

Ltac window_prim :=
  idtac;
  match goal with
  | |- steps _ (requests_get ?t ?r) => exact (requests_get_window t r)
  end.

Ltac walk_returns :=
  repeat first
    [ apply returns_bind; intro
    | apply returns_ret
    | match goal with
      | |- returns _ (match ?x with _ => _ end) => destruct x
      end ].

Lemma splitext_joined p :
  fst (PosixPath.splitext p) ++ snd (PosixPath.splitext p) = p.
Proof.
  unfold PosixPath.splitext.
  destruct (_ && _); cbn [fst snd]; [apply firstn_skipn|apply app_nil_r].
Qed.

Section Naming_frame.

Context {W D : Type}.
Variable tr : transport W.
Implicit Types w : world W D.

(** [get_new_name] only talks to the catalog: the window, the disk and the
    record of renames are as before. *)
Lemma get_new_name_window f : steps (@same_window W D) (get_new_name tr f).
Proof.
  unfold get_new_name. open_client.
  walk_steps window_prim.

Qed.

Lemma get_new_name_ext f :
  returns (ends_with (snd (PosixPath.splitext f))) (@get_new_name W D tr f).
Proof.
  unfold get_new_name.
  walk_returns; try (repeat apply ends_with_app; apply ends_with_refl).
  exists (fst (PosixPath.splitext f)). symmetry. apply splitext_joined.
Qed.

End Naming_frame.

(** ** Paths *)

Lemma rfind_lower c s : (-1 <= rfind c s)%Z.
Proof.
  induction s as [|x s IH]; cbn [rfind]; [lia|].
  destruct (Z.leb_spec 0 (rfind c s)); [lia|]. destruct (chr_eqb x c); lia.
Qed.

Lemma rfind_upper c s : (rfind c s < Z.of_nat (length s))%Z.
Proof.
  induction s as [|x s IH]; cbn [rfind length]; [lia|].
  destruct (Z.leb_spec 0 (rfind c s)); [lia|]. destruct (chr_eqb x c); lia.
Qed.

Lemma rfind_absent c s : ~ In c s -> rfind c s = (-1)%Z.
Proof.
  induction s as [|x s IH]; intro H; cbn [rfind]; [reflexivity|].
  rewrite IH by (intro; apply H; now right). cbn.
  destruct (chr_eqb x c) eqn:E; [|reflexivity].
  apply chr_eqb_eq in E. subst. exfalso. apply H. now left.
Qed.

Lemma rfind_present c s : In c s -> (0 <= rfind c s)%Z.
Proof.
  induction s as [|x s IH]; intro H; [contradiction|]. cbn [rfind].
  destruct (Z.leb_spec 0 (rfind c s)); [lia|].
  destruct H as [->|H]; [now rewrite chr_eqb_refl|]. apply IH in H. lia.
Qed.

Lemma rfind_app_absent c x y : ~ In c y -> rfind c (x ++ y) = rfind c x.
Proof.
  intro H. induction x as [|a x IH]; cbn [app rfind]; [now apply rfind_absent|].
  now rewrite IH.
Qed.

Lemma rfind_app_present c x y :
  (0 <= rfind c y)%Z -> rfind c (x ++ y) = (Z.of_nat (length x) + rfind c y)%Z.
Proof.
  intro H. induction x as [|a x IH]; cbn [app rfind length]; [lia|].
  rewrite IH. destruct (Z.leb_spec 0 (Z.of_nat (length x) + rfind c y)); lia.
Qed.

Lemma rfind_after c s n : (rfind c s < Z.of_nat n)%Z -> ~ In c (skipn n s).
Proof.
  revert n; induction s as [|x s IH]; intros n H.
  - now rewrite skipn_nil.
  - destruct n as [|n].
    + cbn [skipn]. intro Hin. apply rfind_present in Hin. lia.
    + cbn [skipn]. apply IH. cbn [rfind] in H.
      destruct (Z.leb_spec 0 (rfind c s)); [lia|]. lia.
Qed.

(** The extension [splitext] gives holds no separator. *)
Lemma splitext_ext_plain p : ~ In PosixPath.sep (snd (PosixPath.splitext p)).
Proof.
  unfold PosixPath.splitext.
  destruct (_ && _) eqn:E; cbn [snd]; [|auto].
  apply andb_true_iff in E as [E _]. apply Z.ltb_lt in E.
  apply rfind_after. pose proof (rfind_lower PosixPath.sep p). lia.
Qed.

Lemma join_ends e a b : ends_with e b -> ends_with e (PosixPath.join a b).
Proof.
  intro H. unfold PosixPath.join.
  destruct (PosixPath.startswith_sep b); [exact H|].
  destruct (match a with [] => true | _ => PosixPath.endswith_sep a end);
    [now apply ends_with_app|].
  change (a ++ PosixPath.sep :: b) with (a ++ [PosixPath.sep] ++ b).
  now repeat apply ends_with_app.
Qed.

Lemma rel_path_ends e rel_dir x : ends_with e x -> ends_with e (rel_path rel_dir x).
Proof.
  intro H. unfold rel_path. destruct rel_dir; [exact H|].
  destruct (str_eqb _ _); [exact H|now apply join_ends].
Qed.

Lemma basename_ends e x :
  ~ In PosixPath.sep e -> ends_with e x -> ends_with e (PosixPath.basename x).
Proof.
  intros He [stem ->]. unfold PosixPath.basename, from.
  rewrite (rfind_app_absent _ stem e He), skipn_app.
  pose proof (rfind_upper PosixPath.sep stem).
  pose proof (rfind_lower PosixPath.sep stem).
  replace (Z.to_nat (rfind PosixPath.sep stem + 1) - length stem) with 0 by lia.
  cbn [skipn]. now eexists.
Qed.

Lemma plain_not_absolute x : ~ In PosixPath.sep x -> PosixPath.startswith_sep x = false.
Proof.
  intro H. destruct x as [|c x]; [reflexivity|]. cbn.
  destruct (chr_eqb c PosixPath.sep) eqn:E; [|reflexivity].
  apply chr_eqb_eq in E. subst. exfalso. apply H. now left.
Qed.

Lemma endswith_sep_shape a :
  PosixPath.endswith_sep a = true -> exists a', a = a' ++ [PosixPath.sep].
Proof.
  unfold PosixPath.endswith_sep. intro H.
  destruct (rev a) as [|c r] eqn:E; [discriminate|].
  apply chr_eqb_eq in H. subst. exists (rev r).
  rewrite <- (rev_involutive a), E. reflexivity.
Qed.

(** Under a directory prefix that ends with the separator, a plain name
    does not change what [dirname] and [basename] cut. *)
Lemma cut_after_prefix p x :
  ~ In PosixPath.sep x ->
  Z.to_nat (rfind PosixPath.sep ((p ++ [PosixPath.sep]) ++ x) + 1)
  = length (p ++ [PosixPath.sep]).
Proof.
  intro H. rewrite <- app_assoc. cbn [app].
  rewrite rfind_app_present.
  - cbn [rfind]. rewrite (rfind_absent _ x H).
    change (0 <=? -1)%Z with false. cbv iota. rewrite chr_eqb_refl.
    rewrite length_app. cbn [length]. lia.
  - apply rfind_present. now left.
Qed.

Lemma dirname_under_prefix p x :
  ~ In PosixPath.sep x ->
  PosixPath.dirname ((p ++ [PosixPath.sep]) ++ x)
  = PosixPath.dirname (p ++ [PosixPath.sep]).
Proof.
  intro H. unfold PosixPath.dirname, upto.
  rewrite (cut_after_prefix p x H), firstn_app, Nat.sub_diag, firstn_all.
  cbn [firstn]. rewrite app_nil_r.
  pose proof (cut_after_prefix p [] (fun F => F)) as E. rewrite app_nil_r in E.
  rewrite E, firstn_all. reflexivity.
Qed.

Lemma basename_under_prefix p x :
  ~ In PosixPath.sep x ->
  PosixPath.basename ((p ++ [PosixPath.sep]) ++ x) = x.
Proof.
  intro H. unfold PosixPath.basename, from.
  rewrite (cut_after_prefix p x H), skipn_app, Nat.sub_diag, skipn_all.
  reflexivity.
Qed.

Lemma plain_dirname x : ~ In PosixPath.sep x -> PosixPath.dirname x = [].
Proof.
  intro H. unfold PosixPath.dirname, upto. now rewrite (rfind_absent _ x H).
Qed.

Lemma plain_basename x : ~ In PosixPath.sep x -> PosixPath.basename x = x.
Proof.
  intro H. unfold PosixPath.basename, from. now rewrite (rfind_absent _ x H).
Qed.

(** A plain name joined to a directory: a prefix ending with the separator,
    then the name. *)
Lemma join_plain a x :
  a <> [] -> ~ In PosixPath.sep x ->
  exists p, forall y, ~ In PosixPath.sep y ->
    PosixPath.join a y = (p ++ [PosixPath.sep]) ++ y.
Proof.
  intros Ha _. destruct (PosixPath.endswith_sep a) eqn:E.
  - destruct (endswith_sep_shape a E) as [a' ->]. exists a'. intros y Hy.
    unfold PosixPath.join. rewrite (plain_not_absolute y Hy), E.
    now destruct (a' ++ [PosixPath.sep]).
  - exists a. intros y Hy. unfold PosixPath.join.
    rewrite (plain_not_absolute y Hy), E.
    destruct a; [contradiction|]. now rewrite <- app_assoc.
Qed.

Lemma rel_path_plain rel_dir x y :
  ~ In PosixPath.sep x -> ~ In PosixPath.sep y ->
  PosixPath.dirname (rel_path rel_dir y) = PosixPath.dirname (rel_path rel_dir x)
  /\ PosixPath.basename (rel_path rel_dir y) = y.
Proof.
  intros Hx Hy. unfold rel_path.
  destruct rel_dir as [|c r].
  - now rewrite !plain_dirname, plain_basename.
  - destruct (str_eqb (c :: r) L".").
    + now rewrite !plain_dirname, plain_basename.
    + destruct (join_plain (c :: r) x) as [p Hp]; [discriminate|exact Hx|].
      rewrite (Hp x Hx), (Hp y Hy), !dirname_under_prefix, basename_under_prefix by assumption.
      now split.
Qed.

Lemma plain_sound x : plain x = true -> ~ In PosixPath.sep x.
Proof.
  unfold plain. intros H Hin. apply negb_true_iff in H.
  assert (E : existsb (chr_eqb PosixPath.sep) x = true).
  { apply existsb_exists. exists PosixPath.sep. split; [exact Hin|apply chr_eqb_refl]. }
  congruence.
Qed.




Section Scan_facts.

Context {W D : Type}.
Variable tr : transport W.
Variable fs : filesystem D.
Implicit Types w : world W D.

Lemma steps_bind_into {A B} (R1 R2 R3 : world W D -> world W D -> Prop)
      (m : M A) (k : A -> M B) :
  (forall w w', R1 w w' -> R3 w w') ->
  (forall w1 w2 w3, R1 w1 w2 -> R2 w2 w3 -> R3 w1 w3) ->
  steps R1 m -> (forall a, steps R2 (k a)) -> steps R3 (bind m k).
Proof.
  intros H13 H123 Hm Hk w. unfold bind. specialize (Hm w).
  destruct (m w) as [[e|a] w']; cbn [snd] in *; [now apply H13|].
  eapply H123; [exact Hm|apply Hk].
Qed.

Lemma update_folders f :
  (forall a, folder_preview_list (f a) = folder_preview_list a) ->
  steps (@same_folders W D) (update f).
Proof. intros H w. apply H. Qed.

Lemma text_insert_folders o n : steps (@same_folders W D) (text_insert o n).
Proof. now apply update_folders. Qed.

Lemma file_preview_append_folders e : steps (@same_folders W D) (file_preview_append e).
Proof. now apply update_folders. Qed.

Lemma get_new_name_folders f : steps (@same_folders W D) (get_new_name tr f).
Proof.
  intro w. destruct (get_new_name_window tr f w) as (H & _).
  unfold same_folders. now rewrite H.
Qed.

Lemma preview_file_folders rel_dir f : steps (@same_folders W D) (preview_file tr rel_dir f).
Proof.
  unfold preview_file.
  walk_steps ltac:(first [apply get_new_name_folders | apply file_preview_append_folders
                         | apply text_insert_folders]).
Qed.

(** The loop that adds the season entries. *)
Lemma season_loop (g : str * Z -> str * str) l w :
  for_each l (fun item => folder_preview_append (g item)) w
  = (inr tt, snd (for_each l (fun item => folder_preview_append (g item)) w))
  /\ folder_preview_list
       (gui (snd (for_each l (fun item => folder_preview_append (g item)) w)))
     = folder_preview_list (gui w) ++ map g l.
Proof.
  revert w; induction l as [|x l IH]; intro w.
  - cbn. now rewrite app_nil_r.
  - cbn [for_each map].
    assert (E : forall k : unit -> M unit,
               bind (folder_preview_append (g x)) k w
               = k tt (snd (folder_preview_append (g x) w))) by reflexivity.
    rewrite !E. destruct (IH (snd (folder_preview_append (g x) w))) as [E1 E2].
    split; [exact E1|].
    rewrite E2. cbn [gui folder_preview_list snd folder_preview_append update].
    now rewrite <- app_assoc.
Qed.

End Scan_facts.

Ltac folders_prim :=
  idtac;
  match goal with
  | |- steps _ (requests_get ?t ?r) => exact (requests_get_folders t r)
  | |- steps _ (get_new_name _ _) => apply get_new_name_folders
  | |- steps _ (preview_file _ _ _) => apply preview_file_folders
  | |- steps _ (file_preview_append _) => apply file_preview_append_folders
  | |- steps _ (text_insert _ _) => apply text_insert_folders
  end.

Section Scan_shape.

Context {W D : Type}.
Variable tr : transport W.
Variable fs : filesystem D.
Implicit Types w : world W D.

Lemma root_then_seasons_refl base seasons w : root_then_seasons base seasons w w.
Proof. now left. Qed.

Lemma root_nothing {A} base seasons (a : A) :
  steps (@root_then_seasons W D base seasons) (ret a).
Proof. intro w. apply root_then_seasons_refl. Qed.

Lemma root_alone base seasons new :
  steps (@root_then_seasons W D base seasons) (folder_preview_append (base, new)).
Proof. intro w. right. exists new, []. split; [reflexivity|now left]. Qed.

Lemma root_and_seasons base new (sm : list (str * Z)) :
  steps (@root_then_seasons W D base
           (map (fun item => (fst item, L"Season " ++ fmt02 (snd item))) sm))
    (bind (folder_preview_append (base, new))
       (fun _ => for_each sm
                   (fun item => folder_preview_append
                                  (fst item, L"Season " ++ fmt02 (snd item))))).
Proof.
  intro w. right. eexists new, _. split; [|right; reflexivity].
  change (bind (folder_preview_append (base, new)) ?k w)
    with (k tt (snd (folder_preview_append (base, new) w))).
  cbv beta.
  destruct (season_loop (fun item => (fst item, L"Season " ++ fmt02 (snd item))) sm
              (snd (folder_preview_append (base, new) w))) as [_ E].
  rewrite E. cbn [gui folder_preview_list snd folder_preview_append update].
  now rewrite <- app_assoc.
Qed.

Lemma after_same_folders {A B} base seasons (m : M A) (k : A -> M B) :
  steps (@same_folders W D) m ->
  (forall a, steps (root_then_seasons base seasons) (k a)) ->
  steps (root_then_seasons base seasons) (bind m k).
Proof.
  apply steps_bind_into.
  - intros w w' H. left. exact H.
  - intros w1 w2 w3 H12 H23. unfold same_folders, root_then_seasons in *.
    now rewrite <- H12.
Qed.

Lemma then_same_folders {A B} base seasons (m : M A) (k : A -> M B) :
  steps (root_then_seasons base seasons) m ->
  (forall a, steps (@same_folders W D) (k a)) ->
  steps (root_then_seasons base seasons) (bind m k).
Proof.
  apply steps_bind_into.
  - auto.
  - intros w1 w2 w3 H12 H23. unfold same_folders, root_then_seasons in *.
    now rewrite H23.
Qed.

End Scan_shape.

Ltac walk_roots :=
  repeat first
    [ apply root_and_seasons
    | apply root_alone
    | apply root_nothing
    | apply after_same_folders;
      [ open_client; walk_steps folders_prim | intro ]
    | match goal with
      | |- steps _ (match ?x with _ => _ end) => destruct x
      end ].

Section Scan_root.

Context {W D : Type}.
Variable tr : transport W.
Variable fs : filesystem D.
Implicit Types w : world W D.

(** C2, as the code has it.  A scan that passes its checks leaves either no
    folder entry, or the root entry (old name: the base name of the folder)
    in the first place, followed by the season entries when there are any:
    the root entry leads the sequence. *)
Theorem root_entry_first w t :
  strip (api_key_entry (gui w)) <> [] ->
  dir_entry (gui w) <> [] ->
  fs_tree fs (disk w) (dir_entry (gui w)) = Some t ->
  folder_preview_list (gui (snd (scan_folder tr fs w))) = []
  \/ exists new rest,
      folder_preview_list (gui (snd (scan_folder tr fs w)))
      = (PosixPath.basename (dir_entry (gui w)), new) :: rest
      /\ (rest = [] \/ rest = season_entries fs (disk w) (dir_entry (gui w)) t).
Proof.
  intros Hkey Hdir Htree.
  remember (folder_preview_list (gui (snd (scan_folder tr fs w)))) as l eqn:El.
  unfold scan_folder in El. unfold bind at 1 in El. unfold self at 1 in El.
  destruct (strip (api_key_entry (gui w))) as [|k0 key'] eqn:Ek; [contradiction|].
  set (w1 := snd ((if negb (str_eqb (k0 :: key') (api_key (gui w)))
                   then set_api_key (k0 :: key') else ret tt) w)) in *.
  assert (E1 : forall k : unit -> M unit,
             bind (if negb (str_eqb (k0 :: key') (api_key (gui w)))
                   then set_api_key (k0 :: key') else ret tt) k w = k tt w1)
    by (intro k; subst w1; now destruct (negb _)).
  assert (Hd : disk w1 = disk w) by (subst w1; now destruct (negb _)).
  rewrite E1 in El. unfold bind at 1 in El. unfold the_disk at 1 in El. rewrite Hd in El.
  destruct (dir_entry (gui w)) as [|c f'] eqn:Ef; [contradiction|].
  rewrite Htree in El. destruct t as [files_root dirs].
  change (bind clear_previews ?k w1) with (k tt (snd (clear_previews w1))) in El.
  cbv beta in El.
  set (w2 := snd (clear_previews w1)) in *.
  set (base := PosixPath.basename (c :: f')) in *.
  set (seasons := season_entries fs (disk w) (c :: f') (Dir files_root dirs)).
  match type of El with
  | context [snd (?p w2)] =>
      assert (H : steps (root_then_seasons base seasons) p)
  end.
  { apply then_same_folders.
    - unfold seasons, season_entries. walk_roots.
    - intro. walk_steps folders_prim. }
  assert (E2 : folder_preview_list (gui w2) = []) by reflexivity.
  destruct (H w2) as [E|(new & rest & E & Hr)]; rewrite E2 in E; rewrite E in El;
    [left|right].
  - exact El.
  - exists new, rest. split; [exact El|exact Hr].
Qed.

End Scan_root.

Section Rescan_facts.

Context {W D : Type}.
Variable tr : transport W.
Variable fs : filesystem D.
Implicit Types w : world W D.

Lemma unparsed_name f w : unparsed f -> get_new_name tr f w = (inr f, w).
Proof. intros [Em Et]. unfold get_new_name. now rewrite Em, Et. Qed.

Lemma unparsed_preview rel_dir f w :
  unparsed f ->
  preview_file tr rel_dir f w
  = (inr tt,
     {| gui := with_file_preview (gui w) (rel_path rel_dir f) (rel_path rel_dir f);
        net := net w; calls := calls w; disk := disk w; renames := renames w |}).
Proof. intro H. now rewrite preview_file_run, unparsed_name. Qed.

Lemma unparsed_files rel_dir files w :
  Forall unparsed files ->
  fst (for_each files (preview_file tr rel_dir) w) = inr tt
  /\ identities_added (map (rel_path rel_dir) files) w
       (snd (for_each files (preview_file tr rel_dir) w)).
Proof.
  intro H. revert w. induction H as [|f files Hf _ IH]; intro w.
  - cbn. unfold identities_added. cbn. now rewrite app_nil_r.
  - cbn [for_each]. unfold bind. rewrite (unparsed_preview rel_dir f w Hf).
    specialize (IH {| gui := with_file_preview (gui w) (rel_path rel_dir f) (rel_path rel_dir f);
                      net := net w; calls := calls w; disk := disk w;
                      renames := renames w |}).
    destruct IH as (E & Hc & Hn & Hfo & Hfi). split; [exact E|].
    unfold identities_added. rewrite Hc, Hn, Hfo, Hfi.
    cbn [gui calls net with_file_preview file_preview_list folder_preview_list map].
    now rewrite <- app_assoc.
Qed.

Lemma unparsed_walk cwd folder (entries : list (str * list str * list str)) w :
  Forall unparsed (flat_map snd entries) ->
  let loop :=
    for_each entries
      (fun entry =>
         let '(rootp, _, files) := entry in
         for_each files (preview_file tr (PosixPath.relpath cwd rootp folder))) in
  fst (loop w) = inr tt
  /\ identities_added
       (flat_map (fun entry => map (rel_path (PosixPath.relpath cwd (fst (fst entry)) folder))
                                   (snd entry)) entries)
       w (snd (loop w)).
Proof.
  revert w. induction entries as [|[[rootp ds] files] entries IH]; intros w H.
  - cbn. unfold identities_added. cbn. now rewrite app_nil_r.
  - cbn [flat_map snd] in H. apply Forall_app in H as [Hf Hr].
    cbn zeta. cbn [for_each]. unfold bind.
    destruct (unparsed_files (PosixPath.relpath cwd rootp folder) files w Hf)
      as (E & Hc & Hn & Hfo & Hfi).
    destruct (for_each files _ w) as [[e|[]] w1]; cbn [fst snd] in *; [discriminate|].
    destruct (IH w1 Hr) as (E' & Hc' & Hn' & Hfo' & Hfi'). split; [exact E'|].
    unfold identities_added. rewrite Hc', Hn', Hfo', Hfi', Hc, Hn, Hfo, Hfi.
    cbn [flat_map fst snd]. now rewrite map_app, <- app_assoc.
Qed.

Lemma first_tv_unparsed files : Forall unparsed files -> first_tv files = None.
Proof.
  induction 1 as [|f files [_ Et] _ IH]; [reflexivity|]. cbn. now rewrite Et.
Qed.

Lemma walk_top folder files dirs :
  exists rest, walk folder (Dir files dirs) = (folder, map fst dirs, files) :: rest.
Proof. eexists. reflexivity. Qed.


End Rescan_facts.

Section Propagation.

Context {W D : Type}.
Variable tr : transport W.
Implicit Types w : world W D.

Lemma quiet_app l1 l2 : quiet l1 -> quiet l2 -> quiet (l1 ++ l2).
Proof. unfold quiet. intros. now apply Forall_app. Qed.

Lemma secondary_quiet l : secondary_only l -> quiet l.
Proof.
  unfold quiet, secondary_only. apply Forall_impl. intros c H1 H2. congruence.
Qed.

Lemma propagating_silent {A} (p : @M W D A) :
  (forall w, calls (snd (p w)) = calls w) ->
  (forall w, exists a, fst (p w) = inr a) ->
  propagating p.
Proof.
  intros Hc Hr w. exists []. rewrite app_nil_r. split; [apply Hc|].
  destruct (Hr w) as [a ->]. constructor.
Qed.

Lemma propagating_ret {A} (a : A) : propagating (@ret W D A a).
Proof. apply propagating_silent; intro w; [reflexivity|now exists a]. Qed.

Lemma propagating_self : propagating (@self W D).
Proof. apply propagating_silent; intro w; [reflexivity|now eexists]. Qed.

Lemma propagating_the_disk : propagating (@the_disk W D).
Proof. apply propagating_silent; intro w; [reflexivity|now eexists]. Qed.

Lemma propagating_update f : propagating (@update W D f).
Proof. apply propagating_silent; intro w; [reflexivity|now eexists]. Qed.

Lemma propagating_bind {A B} (m : @M W D A) (k : A -> @M W D B) :
  propagating m -> (forall a, propagating (k a)) -> propagating (bind m k).
Proof.
  intros Hm Hk w. unfold bind. destruct (Hm w) as (l1 & E1 & F1).
  destruct (m w) as [[e|a] w1]; cbn [fst snd] in *.
  - exists l1. now split.
  - destruct (Hk a w1) as (l2 & E2 & F2). exists (l1 ++ l2).
    split; [now rewrite E2, E1, app_assoc|].
    destruct (fst (k a w1)) as [e|b]; cbn in *.
    + destruct F2 as (l' & q & -> & Hq & Hl'). exists (l1 ++ l'), q.
      repeat split; [now rewrite app_assoc|exact Hq|now apply quiet_app].
    + now apply quiet_app.
Qed.

Lemma propagating_for_each {A} (l : list A) (body : A -> @M W D unit) :
  (forall x, propagating (body x)) -> propagating (for_each l body).
Proof.
  intro Hb. induction l as [|x l IH]; cbn [for_each].
  - apply propagating_ret.
  - apply propagating_bind; auto.
Qed.

(** A search is made in the open: its exception is the caller's. *)
Lemma propagating_search r :
  search_request r = true -> propagating (@requests_get W D tr r).
Proof.
  intros Hr w. unfold requests_get.
  destruct (tr r (net w)) as [[e|a] n']; cbn [fst snd calls].
  - exists [(r, Some e)]. split; [reflexivity|].
    exists [], r. repeat split; [exact Hr|constructor].
  - exists [(r, None)]. split; [reflexivity|]. repeat constructor.
Qed.

Lemma secondary_lookup r :
  search_request r = false -> secondary (@requests_get W D tr r).
Proof.
  intros Hr w. unfold requests_get.
  destruct (tr r (net w)) as [res n']; cbn [snd calls].
  eexists. split; [reflexivity|]. now repeat constructor.
Qed.

Lemma secondary_ret {A} (a : A) : secondary (@ret W D A a).
Proof. intro w. exists []. split; [now rewrite app_nil_r|constructor]. Qed.

Lemma secondary_raise {A} e : secondary (@raise W D A e).
Proof. intro w. exists []. split; [now rewrite app_nil_r|constructor]. Qed.

(** A secondary lookup is wrapped: whatever it raises stops there. *)
Lemma propagating_guarded {A} (m : @M W D A) (a : A) :
  secondary m -> propagating (try_except m (fun _ => ret a)).
Proof.
  intros Hm w. unfold try_except. destruct (Hm w) as (l & E & Hl).
  exists l. destruct (m w) as [[e|x] w1]; cbn [fst snd ret] in *;
    (split; [exact E|now apply secondary_quiet]).
Qed.

End Propagation.

Ltac walk_propagating :=
  repeat first
    [ apply propagating_ret | apply propagating_self | apply propagating_the_disk
    | apply propagating_update
    | apply propagating_guarded;
      repeat first
        [ apply secondary_ret | apply secondary_raise
        | match goal with
          | |- secondary (requests_get ?t ?r) => exact (secondary_lookup t r eq_refl)
          | |- secondary (match ?x with _ => _ end) => destruct x
          end ]
    | match goal with
      | |- propagating (requests_get ?t ?r) => exact (propagating_search t r eq_refl)
      end
    | apply propagating_bind; [|intro]
    | apply propagating_for_each; intro
    | match goal with
      | |- propagating (match ?x with _ => _ end) => destruct x
      end ].

Section Scan_propagation.

Context {W D : Type}.
Variable tr : transport W.
Variable fs : filesystem D.
Implicit Types w : world W D.

Lemma get_new_name_propagating f : propagating (@get_new_name W D tr f).
Proof.
  unfold get_new_name. open_client. walk_propagating.
Qed.

Lemma scan_folder_propagating : propagating (scan_folder tr fs).
Proof.
  unfold scan_folder, preview_file, show_dialog, set_api_key, clear_previews,
    folder_preview_append, file_preview_append, text_insert.
  open_client.
  walk_propagating; try apply get_new_name_propagating.
Qed.

End Scan_propagation.

Section Absent.

Context {W D : Type}.
Variable tr : transport W.
Implicit Types w : world W D.

Lemma alike_refl w : alike w w.
Proof. now repeat split. Qed.

Lemma same_run_ret {A} (a : A) : same_run (@ret W D A a) (ret a).
Proof. intros w1 w2 H. now split. Qed.

Lemma same_run_raise {A} e : same_run (@raise W D A e) (raise e).
Proof. intros w1 w2 H. now split. Qed.

Lemma same_run_self : same_run (@self W D) self.
Proof. intros w1 w2 H. split; [|exact H]. cbn. f_equal. apply H. Qed.

Lemma same_run_the_disk : same_run (@the_disk W D) the_disk.
Proof. intros w1 w2 H. split; [|exact H]. cbn. f_equal. apply H. Qed.

Lemma same_run_update f : same_run (@update W D f) (update f).
Proof.
  intros w1 w2 (Hg & Hn & Hd & Hr & Hc). split; [reflexivity|].
  repeat split; cbn; congruence.
Qed.

Lemma same_run_bind {A B} (m1 m2 : @M W D A) (k1 k2 : A -> @M W D B) :
  same_run m1 m2 -> (forall a, same_run (k1 a) (k2 a)) ->
  same_run (bind m1 k1) (bind m2 k2).
Proof.
  intros Hm Hk w1 w2 H. unfold bind. destruct (Hm w1 w2 H) as [E E'].
  destruct (m1 w1) as [[e1|a1] w1'], (m2 w2) as [[e2|a2] w2']; cbn [fst snd] in *;
    try discriminate.
  - injection E as ->. now split.
  - injection E as ->. now apply Hk.
Qed.

Lemma same_run_try {A} (m1 m2 : @M W D A) (h1 h2 : exn -> @M W D A) :
  same_run m1 m2 -> (forall e, same_run (h1 e) (h2 e)) ->
  same_run (try_except m1 h1) (try_except m2 h2).
Proof.
  intros Hm Hh w1 w2 H. unfold try_except. destruct (Hm w1 w2 H) as [E E'].
  destruct (m1 w1) as [[e1|a1] w1'], (m2 w2) as [[e2|a2] w2']; cbn [fst snd] in *;
    try discriminate.
  - injection E as ->. now apply Hh.
  - now split.
Qed.

Lemma same_run_for_each {A} (l : list A) (b1 b2 : A -> @M W D unit) :
  (forall x, same_run (b1 x) (b2 x)) -> same_run (for_each l b1) (for_each l b2).
Proof.
  intro Hb. induction l as [|x l IH]; cbn [for_each].
  - apply same_run_ret.
  - apply same_run_bind; auto.
Qed.

(** The searches of the two transports are the same. *)
Lemma same_run_search r :
  search_request r = true ->
  same_run (@requests_get W D tr r) (requests_get (absent_on_error tr) r).
Proof.
  intros Hr w1 w2 (Hg & Hn & Hd & Hre & Hc). unfold requests_get.
  rewrite Hn. destruct r; try discriminate; cbn [absent_on_error];
    match goal with
    | |- context [tr ?q (net w2)] => destruct (tr q (net w2)) as [res n']
    end; cbn [fst snd]; (split; [reflexivity|]); repeat split; cbn;
    rewrite ?map_app; cbn; first [congruence|f_equal; exact Hc].
Qed.

(** A wrapped lookup under [tr] is the same lookup under the transport that
    answers "absent". *)
Lemma same_run_lookup (m1 m2 : @M W D (option str)) :
  same_lookup m1 m2 ->
  same_run (try_except m1 (fun _ => ret None)) (try_except m2 (fun _ => ret None)).
Proof.
  intros H w1 w2 Hw. unfold try_except. destruct (H w1 w2 Hw) as [Hf Ha].
  destruct (m1 w1) as [[e1|a1] w1'], (m2 w2) as [[e2|a2] w2'];
    cbn [fst snd ret or_absent] in *; subst; now split.
Qed.

Lemma same_lookup_ret x : same_lookup (@ret W D _ x) (ret x).
Proof. intros w1 w2 H. now split. Qed.

Lemma same_lookup_raise e : same_lookup (@raise W D _ e) (raise e).
Proof. intros w1 w2 H. now split. Qed.

Lemma same_lookup_episode i s e :
  same_lookup (@requests_get W D tr (Episode i s e))
              (requests_get (absent_on_error tr) (Episode i s e)).
Proof.
  intros w1 w2 (Hg & Hn & Hd & Hre & Hc). unfold requests_get. cbn [absent_on_error].
  rewrite Hn. destruct (tr (Episode i s e) (net w2)) as [[x|x] n']; cbn [fst snd];
    (split; [reflexivity|]); repeat split; cbn; rewrite ?map_app; cbn;
    first [congruence|f_equal; exact Hc].
Qed.

Lemma same_lookup_movie_ids i :
  same_lookup (@requests_get W D tr (MovieExternalIds i))
              (requests_get (absent_on_error tr) (MovieExternalIds i)).
Proof.
  intros w1 w2 (Hg & Hn & Hd & Hre & Hc). unfold requests_get. cbn [absent_on_error].
  rewrite Hn. destruct (tr (MovieExternalIds i) (net w2)) as [[x|x] n']; cbn [fst snd];
    (split; [reflexivity|]); repeat split; cbn; rewrite ?map_app; cbn;
    first [congruence|f_equal; exact Hc].
Qed.

Lemma same_lookup_tv_ids i :
  same_lookup (@requests_get W D tr (TvExternalIds i))
              (requests_get (absent_on_error tr) (TvExternalIds i)).
Proof.
  intros w1 w2 (Hg & Hn & Hd & Hre & Hc). unfold requests_get. cbn [absent_on_error].
  rewrite Hn. destruct (tr (TvExternalIds i) (net w2)) as [[x|x] n']; cbn [fst snd];
    (split; [reflexivity|]); repeat split; cbn; rewrite ?map_app; cbn;
    first [congruence|f_equal; exact Hc].
Qed.

End Absent.

Ltac walk_same :=
  repeat first
    [ apply same_run_ret | apply same_run_raise | apply same_run_self
    | apply same_run_the_disk | apply same_run_update
    | apply same_run_lookup;
      repeat first
        [ apply same_lookup_ret | apply same_lookup_raise
        | apply same_lookup_episode | apply same_lookup_movie_ids
        | apply same_lookup_tv_ids
        | match goal with
          | |- same_lookup (match ?x with _ => _ end) _ => destruct x
          end ]
    | match goal with
      | |- same_run (requests_get ?t ?r) _ => exact (same_run_search t r eq_refl)
      end
    | apply same_run_bind; [|intro]
    | apply same_run_for_each; intro
    | match goal with
      | |- same_run (match ?x with _ => _ end) _ => destruct x
      end ].

Section Scan_absent.

Context {W D : Type}.
Variable tr : transport W.
Variable fs : filesystem D.
Implicit Types w : world W D.

Lemma get_new_name_absent f :
  same_run (@get_new_name W D tr f) (get_new_name (absent_on_error tr) f).
Proof.
  unfold get_new_name. open_client. walk_same.
Qed.

Lemma scan_folder_absent :
  same_run (scan_folder tr fs) (scan_folder (absent_on_error tr) fs).
Proof.
  unfold scan_folder, preview_file, show_dialog, set_api_key, clear_previews,
    folder_preview_append, file_preview_append, text_insert.
  open_client.
  walk_same; try apply get_new_name_absent.
Qed.

End Scan_absent.

(** C6. In a scan, the exception of a search is the caller's: if a search
    among the calls of the scan raised, the scan raised that exception, and a
    scan raises nothing but the exception of the search it made last, so no
    secondary lookup ever ends it.  What a secondary lookup raises counts as
    an absent field: the scan returns the same and leaves the same window,
    provider and disk as under the transport whose lookups answer "absent"
    where these raise. *)
Theorem scan_failure_handling {W D} (tr : transport W) (fs : filesystem D) (w : world W D) :
  (exists l,
      calls (snd (scan_folder tr fs w)) = calls w ++ l
      /\ (forall q e, In (q, Some e) l -> search_request q = true ->
                      fst (scan_folder tr fs w) = inl e)
      /\ (forall e, fst (scan_folder tr fs w) = inl e ->
                    exists l' q, l = l' ++ [(q, Some e)] /\ search_request q = true))
  /\ fst (scan_folder tr fs w) = fst (scan_folder (absent_on_error tr) fs w)
  /\ alike (snd (scan_folder tr fs w)) (snd (scan_folder (absent_on_error tr) fs w)).
Proof.
  split; [|apply scan_folder_absent, alike_refl].
  destruct (scan_folder_propagating tr fs w) as (l & E & F).
  exists l. split; [exact E|]. split.
  - intros q e Hin Hq. destruct (fst (scan_folder tr fs w)) as [e'|u]; cbn in F.
    + destruct F as (l' & q' & -> & Hq' & Hl').
      apply in_app_or in Hin as [Hin|[Hin|[]]].
      * unfold quiet in Hl'. rewrite Forall_forall in Hl'.
        specialize (Hl' _ Hin Hq). discriminate.
      * congruence.
    + unfold quiet in F. rewrite Forall_forall in F.
      specialize (F _ Hin Hq). discriminate.
  - intros e He. rewrite He in F. destruct F as (l' & q & -> & Hq & _). eauto.
Qed.

(** C7 fails on the code: the directory of the first entry cannot be made,
    [os.makedirs] raises outside the [try] of the rename, and the batch ends
    there.  No rename was attempted, not even that of the second entry or of
    the folder, and no dialog reports anything. *)
Theorem makedirs_failure_aborts :
  rename_files probe_fs (start film_plan film_disk)
  = (inl L"[Errno 13] Permission denied: '/m/film/Face'", start film_plan film_disk).
Proof. vm_compute. reflexivity. Qed.

(** C2 as stated fails: the scan of a show puts the root entry first and the
    season entry last. *)
Lemma root_entry_not_last :
  folder_preview_list
    (gui (snd (scan_folder small_catalog probe_fs (start (window L"k" L"/m/show") show_disk))))
  = [(L"show", L"Show-Name (2008) {imdb-tt0903747}"); (L"S1", L"Season 01")]
  /\ PosixPath.basename L"/m/show" = L"show".
Proof. split; vm_compute; reflexivity. Qed.

Lemma root_entry_first_witness :
  folder_preview_list
    (gui (snd (scan_folder small_catalog probe_fs (start (window L"k" L"/m/show") show_disk))))
  = []
  \/ exists new rest,
      folder_preview_list
        (gui (snd (scan_folder small_catalog probe_fs
                     (start (window L"k" L"/m/show") show_disk))))
      = (PosixPath.basename (dir_entry (gui (start (window L"k" L"/m/show") show_disk))), new)
          :: rest
      /\ (rest = []
          \/ rest = season_entries probe_fs (disk (start (window L"k" L"/m/show") show_disk))
                      (dir_entry (gui (start (window L"k" L"/m/show") show_disk)))
                      (Dir [L"notes.txt"] [(L"S1", Dir [L"Show.Name.S01E01.mkv"] [])])).
Proof.
  apply (root_entry_first small_catalog probe_fs
           (start (window L"k" L"/m/show") show_disk)
           (Dir [L"notes.txt"] [(L"S1", Dir [L"Show.Name.S01E01.mkv"] [])])).
  - discriminate.
  - discriminate.
  - reflexivity.
Defined.



(** ** More on the parsers *)

Lemma parse_movie_as_spec filename : parse_movie filename = Spec.parseMovie filename.
Proof.
  unfold parse_movie, Spec.parseMovie, Spec.tokens, Spec.base_name.
  set (parts := Re.split_plus is_dot_or_space (fst (PosixPath.splitext filename))).
  change (year_loop parts parts 0) with (year_loop parts parts (length (@nil str))).
  rewrite (year_loop_spec parts [] parts eq_refl). cbn [length Nat.add].
  destruct (Spec.first_year parts) as [i|]; [reflexivity|].
  destruct parts as [|p0 [|p1 rest]]; try reflexivity.
  cbn [length Nat.leb nth andb]. rewrite <- resolution_re_spec.
  now destruct (Re.fullmatch true resolution_re p1).
Qed.

Lemma parse_tv_as_spec filename : parse_tv filename = Spec.parseEpisode filename.
Proof.
  unfold parse_tv, Spec.parseEpisode, Spec.base_name.
  rewrite search_tv_pattern.
  destruct (Spec.search_marker (fst (PosixPath.splitext filename)))
    as [[name [s e]]|]; reflexivity.
Qed.

Lemma first_year_sound parts i :
  Spec.first_year parts = Some i ->
  i < length parts /\ Spec.is_year_token (nth i parts []) = true.
Proof.
  revert i; induction parts as [|t parts IH]; intros i H; [discriminate|].
  cbn [Spec.first_year] in H. destruct (Spec.is_year_token t) eqn:E.
  - injection H as <-. cbn. split; [lia|exact E].
  - destruct (Spec.first_year parts) as [j|]; [|discriminate].
    injection H as <-. destruct (IH j eq_refl). cbn. split; [lia|assumption].
Qed.

(** X1.  The year [parse_movie] returns lies between 1900 and 2099. *)
Theorem parsed_year_in_range filename m y :
  parse_movie filename = Some m -> year m = Some y -> (1900 <= y <= 2099)%Z.
Proof.
  rewrite parse_movie_as_spec. unfold Spec.parseMovie.
  destruct (Spec.first_year _) as [i|] eqn:E.
  - intros [= <-]. cbn [year]. intros [= <-].
    apply first_year_sound in E as [_ E]. unfold Spec.is_year_token in E.
    apply andb_true_iff in E as [E H2]. apply andb_true_iff in E as [_ H1].
    apply Z.leb_le in H1, H2. lia.
  - destruct (_ && _); [|discriminate]. intros [= <-]. discriminate.
Qed.

Lemma parsed_year_in_range_witness : (1900 <= 2010 <= 2099)%Z.
Proof.
  apply (parsed_year_in_range L"Inception.2010.1080p.mkv"
           {| title := L"Inception"; year := Some 2010%Z |} 2010%Z);
    reflexivity.
Defined.

(** The pieces [re.split] cuts hold none of the characters it cuts at. *)
Lemma split_go_pieces p in_run cur s t :
  Forall (fun c => p c = false) cur ->
  In t (Re.split_go p in_run cur s) -> Forall (fun c => p c = false) t.
Proof.
  revert in_run cur; induction s as [|c s IH]; intros in_run cur Hcur Hin.
  - cbn in Hin. destruct Hin as [<-|[]]. exact Hcur.
  - cbn [Re.split_go] in Hin. destruct (p c) eqn:E.
    + destruct in_run.
      * eapply IH; eauto.
      * destruct Hin as [<-|Hin]; [exact Hcur|]. eapply IH; [|exact Hin]. constructor.
    + eapply IH; [|exact Hin]. apply Forall_app. split; [exact Hcur|]. now repeat constructor.
Qed.

Lemma tokens_clean name t :
  In t (Spec.tokens name) -> Forall (fun c => is_dot_or_space c = false) t.
Proof. apply split_go_pieces. constructor. Qed.

Lemma joined_chars (parts : list str) c :
  In c (str_join L" " parts) -> c = " "%char \/ exists t, In t parts /\ In c t.
Proof.
  induction parts as [|p [|q parts] IH]; intro H.
  - contradiction.
  - right. exists p. split; [now left|exact H].
  - change (str_join L" " (p :: q :: parts))
      with (p ++ L" " ++ str_join L" " (q :: parts)) in H.
    apply in_app_or in H as [H|H]; [right; exists p; split; [now left|exact H]|].
    destruct H as [H|H]; [now left|].
    destruct (IH H) as [->|(t & Ht & Hc)]; [now left|].
    right. exists t. split; [now right|exact Hc].
Qed.

Lemma in_firstn {A} (x : A) n l : In x (firstn n l) -> In x l.
Proof.
  intro H. rewrite <- (firstn_skipn n l). apply in_or_app. now left.
Qed.

(** X2.  The title [parse_movie] returns holds no dot, and no white space other
    than the single spaces that join its tokens. *)
Theorem parsed_title_clean filename m c :
  parse_movie filename = Some m -> In c (title m) ->
  c <> "."%char /\ (is_space c = true -> c = " "%char).
Proof.
  rewrite parse_movie_as_spec. unfold Spec.parseMovie.
  set (parts := Spec.tokens (Spec.base_name filename)).
  assert (Hclean : forall t, In t parts -> In c t ->
                     c <> "."%char /\ (is_space c = true -> c = " "%char)).
  { intros t Ht Hc. apply tokens_clean in Ht. rewrite Forall_forall in Ht.
    specialize (Ht c Hc). unfold is_dot_or_space in Ht.
    apply orb_false_iff in Ht as [Hd Hs]. split.
    - intros ->. discriminate.
    - congruence. }
  destruct (Spec.first_year parts) as [i|].
  - intros [= <-]. cbn [title]. intro Hin.
    destruct (joined_chars _ _ Hin) as [->|(t & Ht & Hc)].
    + split; [discriminate|reflexivity].
    + apply (Hclean t); [|exact Hc]. eapply in_firstn; exact Ht.
  - destruct (_ && _) eqn:E; [|discriminate]. intros [= <-]. cbn [title]. intro Hin.
    apply andb_true_iff in E as [E _]. apply Nat.leb_le in E.
    apply (Hclean (nth 0 parts [])); [|exact Hin].
    apply nth_In. lia.
Qed.

Lemma parsed_title_clean_witness :
  "I"%char <> "."%char /\ (is_space "I" = true -> "I"%char = " "%char).
Proof.
  apply (parsed_title_clean L"Inception.2010.1080p.mkv"
           {| title := L"Inception"; year := Some 2010%Z |} "I"%char).
  - reflexivity.
  - now left.
Defined.

Lemma short_number_bound s : short_number s -> (0 <= int_of_str s <= 99)%Z.
Proof.
  intros [[H|H] D]; destruct s as [|a [|b [|c s]]]; try discriminate.
  - apply Forall_inv in D. apply digit_val_range in D. unfold int_of_str. cbn [fold_left]. lia.
  - pose proof (Forall_inv D) as Da. pose proof (Forall_inv (Forall_inv_tail D)) as Db.
    apply digit_val_range in Da, Db. unfold int_of_str. cbn [fold_left]. lia.
Qed.

Lemma episode_part_digits s e :
  Spec.episode_part s = Some e -> short_number e.
Proof.
  unfold Spec.episode_part. destruct s as [|c [|d1 [|d2 s]]]; try discriminate.
  destruct (_ && _) eqn:E; [|discriminate]. intros [= <-].
  apply andb_true_iff in E as [E H2]. apply andb_true_iff in E as [_ H1].
  split; [now right|]. now repeat constructor.
Qed.

Lemma marker_digits x s e :
  Spec.marker x = Some (s, e) -> short_number s /\ short_number e.
Proof.
  unfold Spec.marker. destruct x as [|c [|d1 rest]]; try discriminate.
  destruct (_ && _) eqn:E; [|discriminate].
  apply andb_true_iff in E as [_ H1].
  destruct rest as [|d2 rest']; [discriminate|].
  destruct (is_digit d2) eqn:H2.
  - destruct (Spec.episode_part rest') as [e'|] eqn:Ee; [|discriminate].
    intros [= <- <-]. split; [|eapply episode_part_digits; eassumption].
    split; [now right|]. now repeat constructor.
  - destruct (Spec.episode_part (d2 :: rest')) as [e'|] eqn:Ee; [|discriminate].
    intros [= <- <-]. split; [|eapply episode_part_digits; eassumption].
    split; [now left|]. now repeat constructor.
Qed.

Lemma separators_then_marker_digits x s e :
  Spec.separators_then_marker x = Some (s, e) -> short_number s /\ short_number e.
Proof.
  induction x as [|c x IH]; [discriminate|]. cbn [Spec.separators_then_marker].
  destruct (is_separator c); [|discriminate].
  destruct (Spec.marker x) as [[s' e']|] eqn:E.
  - intros [= <- <-]. eapply marker_digits; eassumption.
  - exact IH.
Qed.

Lemma lazy_run_digits run x name s e :
  Spec.lazy_run run x = Some (name, (s, e)) -> short_number s /\ short_number e.
Proof.
  revert run; induction x as [|c x IH]; intro run; [discriminate|].
  cbn [Spec.lazy_run]. destruct (is_dot c); [|discriminate].
  destruct (Spec.separators_then_marker x) as [[s' e']|] eqn:E.
  - intros [= _ <- <-]. eapply separators_then_marker_digits; eassumption.
  - apply IH.
Qed.

Lemma search_marker_digits x name s e :
  Spec.search_marker x = Some (name, (s, e)) -> short_number s /\ short_number e.
Proof.
  induction x as [|c x IH]; cbn [Spec.search_marker].
  - cbn. discriminate.
  - destruct (Spec.lazy_run [] (c :: x)) as [[n' [s' e']]|] eqn:E.
    + intros [= _ <- <-]. eapply lazy_run_digits; eassumption.
    + exact IH.
Qed.

(** X3.  The season and the episode [parse_tv] returns lie between 0 and 99. *)
Theorem parsed_numbers_in_range filename tv :
  parse_tv filename = Some tv ->
  (0 <= season tv <= 99)%Z /\ (0 <= episode tv <= 99)%Z.
Proof.
  rewrite parse_tv_as_spec. unfold Spec.parseEpisode.
  destruct (Spec.search_marker _) as [[name [s e]]|] eqn:E; [|discriminate].
  intros [= <-]. cbn [season episode].
  apply search_marker_digits in E as [Hs He].
  split; now apply short_number_bound.
Qed.

Lemma parsed_numbers_in_range_witness :
  (0 <= 2 <= 99)%Z /\ (0 <= 4 <= 99)%Z.
Proof.
  apply (parsed_numbers_in_range L"Show Name - s2e04.mkv"
           {| show := L"Show Name"; season := 2; episode := 4 |}).
  reflexivity.
Defined.

(** ** [str.strip] *)

Lemma lstrip_suffix s : exists z, s = z ++ lstrip s.
Proof.
  induction s as [|c s [z IH]]; [now exists []|]. cbn [lstrip].
  destruct (is_space c); [|now exists []].
  exists (c :: z). cbn. now rewrite <- IH.
Qed.

Lemma lstrip_head s c t : lstrip s = c :: t -> is_space c = false.
Proof.
  induction s as [|x s IH]; [discriminate|]. cbn [lstrip].
  destruct (is_space x) eqn:E; [exact IH|]. now intros [= <- _].
Qed.

Lemma rstrip_prefix s : exists z, s = rstrip s ++ z.
Proof.
  unfold rstrip. destruct (lstrip_suffix (rev s)) as [z E].
  exists (rev z). rewrite <- rev_app_distr, <- E. symmetry. apply rev_involutive.
Qed.

Lemma rstrip_last s c t : rev (rstrip s) = c :: t -> is_space c = false.
Proof. unfold rstrip. rewrite rev_involutive. apply lstrip_head. Qed.

(** What [strip] returns neither starts nor ends with white space. *)
Lemma strip_trimmed s :
  (forall c t, strip s = c :: t -> is_space c = false)
  /\ (forall c t, rev (strip s) = c :: t -> is_space c = false).
Proof.
  unfold strip. split; [|intros c t; apply rstrip_last].
  intros c t H. destruct (rstrip_prefix (lstrip s)) as [z E].
  rewrite H in E. cbn in E. eapply lstrip_head. exact E.
Qed.

Lemma strip_part s c : In c (strip s) -> In c s.
Proof.
  unfold strip. intro H.
  destruct (rstrip_prefix (lstrip s)) as [z E]. destruct (lstrip_suffix s) as [y F].
  rewrite F. apply in_or_app. right. rewrite E. apply in_or_app. now left.
Qed.

(** X4.  The show name [parse_tv] returns holds no dot, and neither starts nor
    ends with white space. *)
Theorem parsed_show_clean filename tv :
  parse_tv filename = Some tv ->
  ~ In "."%char (show tv)
  /\ (forall c t, show tv = c :: t -> is_space c = false)
  /\ (forall c t, rev (show tv) = c :: t -> is_space c = false).
Proof.
  rewrite parse_tv_as_spec. unfold Spec.parseEpisode.
  destruct (Spec.search_marker _) as [[name [s e]]|]; [|discriminate].
  intros [= <-]. cbn [show]. split; [|apply strip_trimmed].
  intro H. apply strip_part in H. unfold replace_chr in H.
  apply in_map_iff in H as (c & Hc & _).
  destruct (chr_eqb c ".") eqn:E; [discriminate|].
  subst c. rewrite chr_eqb_refl in E. discriminate.
Qed.

Lemma parsed_show_clean_witness :
  ~ In "."%char L"Show Name"
  /\ (forall c t, L"Show Name" = c :: t -> is_space c = false)
  /\ (forall c t, rev L"Show Name" = c :: t -> is_space c = false).
Proof.
  apply (parsed_show_clean L"Show.Name.S02E04.mkv"
           {| show := L"Show Name"; season := 2; episode := 4 |}).
  reflexivity.
Defined.

(** ** More on the catalog client *)

Lemma exact_loop_found q results r :
  exact_loop q results = Some r ->
  In r results /\ normalize (t_name r) = q.
Proof.
  induction results as [|x rest IH]; [discriminate|]. cbn [exact_loop].
  destruct (str_eqb (normalize (t_name x)) q) eqn:E.
  - intros [= <-]. split; [now left|now apply str_eqb_eq].
  - intro H. destruct (IH H). split; [now right|assumption].
Qed.

Lemma exact_loop_missed q results :
  exact_loop q results = None ->
  Forall (fun x => normalize (t_name x) <> q) results.
Proof.
  induction results as [|x rest IH]; [constructor|]. cbn [exact_loop].
  destruct (str_eqb (normalize (t_name x)) q) eqn:E; [discriminate|].
  intro H. constructor; [now apply str_eqb_neq|auto].
Qed.

(** X5.  [search_tv] never makes a record up: what it returns is one of the
    results of the request, either one whose normalized name is the
    normalized title, or the first of a list in which no name is; it
    returns nothing only for an empty list, and raises only what the request
    raised. *)
Theorem search_tv_picks_a_result {W D} (tr : transport W) title yr (w : world W D) :
  match requests_get tr (SearchTv title (year_param yr)) w with
  | (inl e, w') => search_tv tr title yr w = (inl e, w')
  | (inr results, w') =>
      match fst (search_tv tr title yr w) with
      | inl _ => False
      | inr None => results = []
      | inr (Some r) =>
          In r results
          /\ (normalize (t_name r) = normalize (Some title)
              \/ (hd_error results = Some r
                  /\ Forall (fun x => normalize (t_name x) <> normalize (Some title))
                       results))
      end
  end.
Proof.
  unfold search_tv, bind.
  destruct (requests_get tr (SearchTv title (year_param yr)) w) as [[e|results] w'];
    [reflexivity|].
  destruct results as [|first rest]; [reflexivity|].
  destruct (exact_loop (normalize (Some title)) (first :: rest)) as [r|] eqn:E;
    cbn [fst ret].
  - apply exact_loop_found in E as [Hin Hn]. split; [exact Hin|now left].
  - apply exact_loop_missed in E. split; [now left|right]. now split.
Qed.

Lemma to_lower_twice c : to_lower (to_lower c) = to_lower c.
Proof. by_cases_on c. Qed.

Lemma to_lower_word c : is_word (to_lower c) = is_word c.
Proof. by_cases_on c. Qed.

Lemma normalized_twice s : Spec.normalized (Spec.normalized s) = Spec.normalized s.
Proof.
  unfold Spec.normalized. induction s as [|c s IH]; [reflexivity|].
  cbn [filter]. destruct (is_word c) eqn:E; [|exact IH].
  cbn [map filter]. rewrite to_lower_word, E. cbn [map].
  rewrite to_lower_twice. f_equal. exact IH.
Qed.

Lemma normalized_lower s : Spec.normalized (lower s) = Spec.normalized s.
Proof.
  unfold Spec.normalized, lower. induction s as [|c s IH]; [reflexivity|].
  cbn [map filter]. rewrite to_lower_word. destruct (is_word c); [|exact IH].
  cbn [map]. rewrite to_lower_twice. f_equal. exact IH.
Qed.


(** ** More on the scan *)

Ltac disk_prim :=
  idtac;
  match goal with
  | |- steps _ (requests_get ?t ?r) => exact (requests_get_disk t r)
  | |- steps _ (update _) => apply update_disk
  end.

(** X7.  A scan reads the disk and never changes it: the disk and the record of
    renames are after the scan what they were before, however it ends. *)
Theorem scan_leaves_the_disk {W D} (tr : transport W) (fs : filesystem D) (w : world W D) :
  disk (snd (scan_folder tr fs w)) = disk w
  /\ renames (snd (scan_folder tr fs w)) = renames w.
Proof.
  revert w. change (steps same_disk (scan_folder tr fs)).
  unfold scan_folder, preview_file, get_new_name, show_dialog, set_api_key, clear_previews,
    folder_preview_append, file_preview_append, text_insert.
  open_client. walk_steps disk_prim.
Qed.

(** X8.  A scan with a blank key (nothing but white space), with no folder
    typed in, or with a folder that is no directory, ends at once: it shows
    one error dialog, asks the catalog nothing and leaves the two preview
    lists and the two texts as they were. *)
Theorem scan_refuses_bad_input {W D} (tr : transport W) (fs : filesystem D) (w : world W D) :
  strip (api_key_entry (gui w)) = []
  \/ dir_entry (gui w) = []
  \/ fs_tree fs (disk w) (dir_entry (gui w)) = None ->
  fst (scan_folder tr fs w) = inr tt
  /\ calls (snd (scan_folder tr fs w)) = calls w
  /\ file_preview_list (gui (snd (scan_folder tr fs w))) = file_preview_list (gui w)
  /\ folder_preview_list (gui (snd (scan_folder tr fs w))) = folder_preview_list (gui w)
  /\ orig_text (gui (snd (scan_folder tr fs w))) = orig_text (gui w)
  /\ new_text (gui (snd (scan_folder tr fs w))) = new_text (gui w)
  /\ exists message,
      messagebox (gui (snd (scan_folder tr fs w)))
      = messagebox (gui w) ++ [showerror L"Error" message].
Proof.
  intro H.
  assert (E : exists a message,
             scan_folder tr fs w
             = (inr tt, {| gui := with_dialog a (showerror L"Error" message);
                           net := net w; calls := calls w;
                           disk := disk w; renames := renames w |})
             /\ file_preview_list a = file_preview_list (gui w)
             /\ folder_preview_list a = folder_preview_list (gui w)
             /\ orig_text a = orig_text (gui w)
             /\ new_text a = new_text (gui w)
             /\ messagebox a = messagebox (gui w)).
  { unfold scan_folder. unfold bind at 1. unfold self at 1.
    destruct (strip (api_key_entry (gui w))) as [|k0 key'] eqn:Ek.
    - exists (gui w). eexists. split; [reflexivity|]. now repeat split.
    - assert (Hbad : match dir_entry (gui w) with
                     | [] => None
                     | _ :: _ => fs_tree fs (disk w) (dir_entry (gui w))
                     end = None).
      { destruct H as [H|[H|H]]; [discriminate|now rewrite H|].
        now destruct (dir_entry (gui w)). }
      destruct (negb (str_eqb (k0 :: key') (api_key (gui w)))).
      + eexists (set_key (gui w) (k0 :: key')), _. cbn. rewrite Hbad.
        split; [reflexivity|]. now repeat split.
      + exists (gui w). eexists. cbn. rewrite Hbad. split; [reflexivity|]. now repeat split. }
  destruct E as (a & message & -> & Hf & Hfo & Ho & Hn & Hm).
  cbn [fst snd gui calls with_dialog file_preview_list folder_preview_list orig_text
       new_text messagebox].
  repeat split; try assumption. exists message. now rewrite Hm.
Qed.

Lemma scan_refuses_bad_input_witness :
  fst (scan_folder no_results probe_fs (start (window L"  " L"/m/show") show_disk)) = inr tt
  /\ calls (snd (scan_folder no_results probe_fs (start (window L"  " L"/m/show") show_disk)))
     = calls (start (window L"  " L"/m/show") show_disk)
  /\ file_preview_list
       (gui (snd (scan_folder no_results probe_fs (start (window L"  " L"/m/show") show_disk))))
     = file_preview_list (gui (start (window L"  " L"/m/show") show_disk))
  /\ folder_preview_list
       (gui (snd (scan_folder no_results probe_fs (start (window L"  " L"/m/show") show_disk))))
     = folder_preview_list (gui (start (window L"  " L"/m/show") show_disk))
  /\ orig_text
       (gui (snd (scan_folder no_results probe_fs (start (window L"  " L"/m/show") show_disk))))
     = orig_text (gui (start (window L"  " L"/m/show") show_disk))
  /\ new_text
       (gui (snd (scan_folder no_results probe_fs (start (window L"  " L"/m/show") show_disk))))
     = new_text (gui (start (window L"  " L"/m/show") show_disk))
  /\ exists message,
      messagebox
        (gui (snd (scan_folder no_results probe_fs (start (window L"  " L"/m/show") show_disk))))
      = messagebox (gui (start (window L"  " L"/m/show") show_disk))
          ++ [showerror L"Error" message].
Proof.
  apply (scan_refuses_bad_input no_results probe_fs
           (start (window L"  " L"/m/show") show_disk)).
  left. reflexivity.
Defined.

Section Completion.

Context {W D : Type}.
Variable tr : transport W.
Hypothesis Htr : searches_answer tr.
Implicit Types w : world W D.

Lemma completes_ret {A} (a : A) : completes (@ret W D A a).
Proof. intro w. now exists a. Qed.

Lemma completes_self : completes (@self W D).
Proof. intro w. now eexists. Qed.

Lemma completes_the_disk : completes (@the_disk W D).
Proof. intro w. now eexists. Qed.

Lemma completes_update f : completes (@update W D f).
Proof. intro w. now eexists. Qed.

Lemma completes_bind {A B} (m : @M W D A) (k : A -> @M W D B) :
  completes m -> (forall a, completes (k a)) -> completes (bind m k).
Proof.
  intros Hm Hk w. unfold bind. destruct (Hm w) as [a Ha].
  destruct (m w) as [[e|a'] w']; [discriminate|]. apply Hk.
Qed.

Lemma completes_for_each {A} (l : list A) (body : A -> @M W D unit) :
  (forall x, completes (body x)) -> completes (for_each l body).
Proof.
  intro Hb. induction l as [|x l IH]; cbn [for_each].
  - apply completes_ret.
  - apply completes_bind; auto.
Qed.

(** Whatever the wrapped lookup does, the handler returns. *)
Lemma completes_guarded {A} (m : @M W D A) (a : A) :
  completes (try_except m (fun _ => ret a)).
Proof.
  intro w. unfold try_except. destruct (m w) as [[e|x] w']; now eexists.
Qed.

Lemma completes_search r :
  search_request r = true -> completes (@requests_get W D tr r).
Proof.
  intros Hr w. unfold requests_get. destruct (Htr r (net w) Hr) as [x Hx].
  destruct (tr r (net w)) as [res n']. cbn [fst] in *. now exists x.
Qed.

End Completion.

Ltac walk_completes H :=
  repeat first
    [ apply completes_ret | apply completes_self | apply completes_the_disk
    | apply completes_update | apply completes_guarded
    | match goal with
      | |- completes (requests_get ?t ?r) => exact (completes_search t H r eq_refl)
      end
    | apply completes_bind; [|intro]
    | apply completes_for_each; intro
    | match goal with
      | |- completes (match ?x with _ => _ end) => destruct x
      end ].


Lemma details_down_answers : searches_answer details_down.
Proof.
  intros q n Hq. destruct q; try discriminate; unfold details_down, small_catalog;
    cbn [fst]; destruct (str_eqb _ _); eexists; reflexivity.
Qed.


#[export] Instance folders_only_order {W D} : Order (@folders_only W D).
Proof. split; unfold folders_only; intuition congruence. Qed.

Lemma previews_added_app a l1 l2 :
  previews_added a (l1 ++ l2) = previews_added (previews_added a l1) l2.
Proof. unfold previews_added. apply fold_left_app. Qed.

Lemma previews_added_fields a added :
  file_preview_list (previews_added a added) = file_preview_list a ++ added
  /\ folder_preview_list (previews_added a added) = folder_preview_list a
  /\ orig_text (previews_added a added) = orig_text a ++ lines (map fst added)
  /\ new_text (previews_added a added) = new_text a ++ lines (map snd added).
Proof.
  revert a; induction added as [|[o n] added IH]; intro a.
  - cbn. now rewrite !app_nil_r.
  - change (previews_added a ((o, n) :: added))
      with (previews_added (with_file_preview a o n) added).
    destruct (IH (with_file_preview a o n)) as (H1 & H2 & H3 & H4).
    rewrite H1, H2, H3, H4. cbn [with_file_preview file_preview_list folder_preview_list
                                  orig_text new_text map fst snd lines flat_map].
    fold (lines (map fst added)). fold (lines (map snd added)).
    now rewrite <- !app_assoc.
Qed.

Section Preview_loops.

Context {W D : Type}.
Variable tr : transport W.
Implicit Types w : world W D.

(** The loop over the files of one directory: every file it got through
    added one preview, old path first, in the order of the files. *)
Lemma preview_loop rel_dir files w :
  exists added,
    gui (snd (for_each files (preview_file tr rel_dir) w)) = previews_added (gui w) added
    /\ map fst added = map (rel_path rel_dir) (firstn (length added) files)
    /\ (forall u, fst (for_each files (preview_file tr rel_dir) w) = inr u ->
        length added = length files).
Proof.
  revert w; induction files as [|f files IH]; intro w.
  - exists []. cbn. auto.
  - cbn [for_each]. unfold bind. rewrite preview_file_run.
    pose proof (get_new_name_window tr f w) as (Hg & _).
    destruct (get_new_name tr f w) as [[e|new_file] w1]; cbn [snd] in Hg.
    + exists []. cbn [fst snd previews_added fold_left map length firstn].
      repeat split; [exact Hg|discriminate].
    + match goal with
      | |- context [for_each files _ ?w2] => destruct (IH w2) as (added & E & Hm & Hl)
      end.
      exists ((rel_path rel_dir f, rel_path rel_dir new_file) :: added).
      repeat split.
      * rewrite E. cbn [gui]. now rewrite Hg.
      * cbn [map fst length firstn]. now rewrite Hm.
      * intros u Hu. cbn [length]. f_equal. eauto.
Qed.

Lemma preview_walk cwd folder (entries : list (str * list str * list str)) w :
  let loop :=
    for_each entries
      (fun entry =>
         let '(rootp, _, files) := entry in
         for_each files (preview_file tr (PosixPath.relpath cwd rootp folder))) in
  let paths :=
    flat_map (fun entry => map (rel_path (PosixPath.relpath cwd (fst (fst entry)) folder))
                               (snd entry)) entries in
  exists added,
    gui (snd (loop w)) = previews_added (gui w) added
    /\ map fst added = firstn (length added) paths
    /\ (forall u, fst (loop w) = inr u -> length added = length paths).
Proof.
  cbn zeta. revert w; induction entries as [|[[rootp ds] files] entries IH]; intro w.
  - exists []. cbn. auto.
  - cbn [for_each flat_map fst snd]. unfold bind.
    destruct (preview_loop (PosixPath.relpath cwd rootp folder) files w)
      as (added1 & E1 & Hm1 & Hl1).
    destruct (for_each files _ w) as [[e|[]] w1]; cbn [fst snd] in *.
    + exists added1. repeat split; [exact E1| |discriminate].
      assert (Hle : length added1 <= length files).
      { rewrite <- (length_map fst added1), Hm1, length_map, length_firstn. lia. }
      rewrite firstn_app, length_map.
      replace (length added1 - length files) with 0 by lia.
      cbn [firstn]. now rewrite app_nil_r, firstn_map.
    + destruct (IH w1) as (added2 & E2 & Hm2 & Hl2).
      exists (added1 ++ added2). specialize (Hl1 tt eq_refl).
      repeat split.
      * rewrite E2, E1. symmetry. apply previews_added_app.
      * rewrite map_app, Hm1, Hm2, Hl1, firstn_all, length_app, Hl1.
        rewrite firstn_app, length_map.
        replace (length files + length added2 - length files) with (length added2) by lia.
        f_equal. symmetry. apply firstn_all2. rewrite length_map. lia.
      * intros u Hu. rewrite !length_app, length_map, Hl1. f_equal. eauto.
Qed.

(** The loop that shows the folder entries. *)
Lemma folder_text_loop (l : list (str * str)) w :
  for_each l (fun e => text_insert (fst e ++ [newline]) (snd e ++ [newline])) w
  = (inr tt,
     {| gui := with_text (gui w) (lines (map fst l)) (lines (map snd l));
        net := net w; calls := calls w; disk := disk w; renames := renames w |}).
Proof.
  revert w; induction l as [|e l IH]; intro w.
  - cbn. unfold ret, with_text. cbn. rewrite !app_nil_r. now destruct w as [[] ? ? ? ?].
  - cbn [for_each]. unfold bind. unfold text_insert at 1. unfold update at 1.
    rewrite IH. cbn [gui net calls disk renames]. f_equal. f_equal.
    unfold with_text. cbn [api_key_entry dir_entry api_key file_preview_list
                            folder_preview_list orig_text new_text messagebox
                            map fst snd lines flat_map].
    fold (lines (map fst l)). fold (lines (map snd l)).
    now rewrite <- !app_assoc.
Qed.

End Preview_loops.

#[export] Instance same_form_order {W D} : Order (@same_form W D).
Proof. split; unfold same_form; intuition congruence. Qed.

Lemma lines_app l1 l2 : lines (l1 ++ l2) = lines l1 ++ lines l2.
Proof. unfold lines. apply flat_map_app. Qed.

Lemma without_folders_fields a b :
  without_folders a = without_folders b ->
  file_preview_list a = file_preview_list b
  /\ orig_text a = orig_text b /\ new_text a = new_text b.
Proof.
  intro H. repeat split.
  - exact (f_equal file_preview_list H).
  - exact (f_equal orig_text H).
  - exact (f_equal new_text H).
Qed.

Section Layout_facts.

Context {W D : Type}.
Variable tr : transport W.
Implicit Types w : world W D.

Lemma requests_get_layout r : steps (@folders_only W D) (requests_get tr r).
Proof.
  intro w. destruct (requests_get_window tr r w) as (H & _).
  unfold folders_only. now rewrite H.
Qed.

Lemma folder_preview_append_layout e :
  steps (@folders_only W D) (folder_preview_append e).
Proof. intro w. reflexivity. Qed.

Lemma raises_early_completes {A} (p : @M W D A) : completes p -> raises_early p.
Proof. intros H w e E. destruct (H w) as [a Ea]. congruence. Qed.

Lemma raises_early_bind {A B} (m : @M W D A) (k : A -> @M W D B) :
  steps (@same_folders W D) m -> (forall a, raises_early (k a)) ->
  raises_early (bind m k).
Proof.
  intros Hm Hk w e. unfold bind. specialize (Hm w).
  destruct (m w) as [[e'|a] w'] eqn:E; cbn [fst snd] in *; intro H; [exact Hm|].
  unfold same_folders in *. rewrite <- Hm. exact (Hk a w' e H).
Qed.

End Layout_facts.

Section Form_facts.

Context {W D : Type}.
Variable tr : transport W.

Lemma requests_get_form r : steps (@same_form W D) (requests_get tr r).
Proof.
  intro w. destruct (requests_get_window tr r w) as (H & _).
  unfold same_form. now rewrite H.
Qed.

Lemma update_form f :
  (forall a, api_key_entry (f a) = api_key_entry a /\ dir_entry (f a) = dir_entry a
             /\ api_key (f a) = api_key a /\ messagebox (f a) = messagebox a) ->
  steps (@same_form W D) (update f).
Proof. intros H w. apply H. Qed.

End Form_facts.

Ltac form_prim :=
  idtac;
  match goal with
  | |- steps _ (requests_get ?t ?r) => exact (requests_get_form t r)
  | |- steps _ (update _) => apply update_form; intro; now repeat split
  end.

Ltac layout_prim :=
  idtac;
  match goal with
  | |- steps _ (requests_get ?t ?r) => exact (requests_get_layout t r)
  | |- steps _ (folder_preview_append _) => apply folder_preview_append_layout
  end.

Ltac never_raises :=
  unfold folder_preview_append;
  solve [ repeat first
            [ apply completes_ret | apply completes_update | apply completes_guarded
            | apply completes_bind; [|intro]
            | apply completes_for_each; intro
            | match goal with
              | |- completes (match ?x with _ => _ end) => destruct x
              end ] ].

Ltac walk_raises :=
  repeat first
    [ apply raises_early_completes; never_raises
    | apply raises_early_bind; [open_client; walk_steps folders_prim|intro]
    | match goal with
      | |- raises_early (match ?x with _ => _ end) => destruct x
      end ].

Section Scan_plan.

Context {W D : Type}.
Variable tr : transport W.
Variable fs : filesystem D.
Implicit Types w : world W D.

(** What a scan that passed its checks leaves in the window. *)
Lemma scan_shape w t :
  strip (api_key_entry (gui w)) <> [] ->
  dir_entry (gui w) <> [] ->
  fs_tree fs (disk w) (dir_entry (gui w)) = Some t ->
  exists folders added,
    folder_preview_list (gui (snd (scan_folder tr fs w))) = folders
    /\ file_preview_list (gui (snd (scan_folder tr fs w))) = added
    /\ orig_text (gui (snd (scan_folder tr fs w)))
       = lines (map fst folders) ++ lines (map fst added)
    /\ new_text (gui (snd (scan_folder tr fs w)))
       = lines (map snd folders) ++ lines (map snd added)
    /\ map fst added
       = firstn (length added) (listing (fs_getcwd fs (disk w)) (dir_entry (gui w)) t)
    /\ (forall u, fst (scan_folder tr fs w) = inr u ->
        length added = length (listing (fs_getcwd fs (disk w)) (dir_entry (gui w)) t)).
Proof.
  intros Hkey Hdir Htree.
  remember (scan_folder tr fs w) as r eqn:El.
  unfold scan_folder in El. unfold bind at 1 in El. unfold self at 1 in El.
  destruct (strip (api_key_entry (gui w))) as [|k0 key'] eqn:Ek; [contradiction|].
  set (w1 := snd ((if negb (str_eqb (k0 :: key') (api_key (gui w)))
                   then set_api_key (k0 :: key') else ret tt) w)) in *.
  assert (E1 : forall k : unit -> M unit,
             bind (if negb (str_eqb (k0 :: key') (api_key (gui w)))
                   then set_api_key (k0 :: key') else ret tt) k w = k tt w1)
    by (intro k; subst w1; now destruct (negb _)).
  assert (Hd : disk w1 = disk w) by (subst w1; now destruct (negb _)).
  rewrite E1 in El. unfold bind at 1 in El. unfold the_disk at 1 in El. rewrite Hd in El.
  destruct (dir_entry (gui w)) as [|c f'] eqn:Ef; [contradiction|].
  rewrite Htree in El. destruct t as [files_root dirs].
  change (bind clear_previews ?k w1) with (k tt (snd (clear_previews w1))) in El.
  cbv beta in El.
  set (w2 := snd (clear_previews w1)) in *.
  unfold bind at 1 in El.
  match type of El with
  | context [?p w2] =>
      match type of p with
      | M unit =>
          assert (Hs : steps (@folders_only W D) p);
          [|assert (Hr : raises_early p)]
      end
  end.
  { open_client. walk_steps layout_prim. }
  { walk_raises. }
  assert (H2 : file_preview_list (gui w2) = [] /\ folder_preview_list (gui w2) = []
               /\ orig_text (gui w2) = [] /\ new_text (gui w2) = []) by now repeat split.
  destruct H2 as (Hfi & Hfo & Hot & Hnt).
  match type of El with
  | context [?p w2] =>
      match type of p with
      | M unit => specialize (Hs w2); specialize (Hr w2); destruct (p w2) as [[e|[]] w3]
      end
  end; cbn [fst snd] in Hs, Hr.
  - apply without_folders_fields in Hs as (Gfi & Got & Gnt).
    specialize (Hr e eq_refl). unfold same_folders in Hr.
    exists [], []. subst r. cbn [fst snd].
    rewrite Hr, Gfi, Got, Gnt. repeat split; auto. discriminate.
  - apply without_folders_fields in Hs as (Gfi & Got & Gnt).
    unfold bind at 1 in El. unfold self at 1 in El. unfold bind at 1 in El.
    rewrite folder_text_loop in El.
    match type of El with
    | context [for_each (walk _ _) _ ?w] => set (w4 := w) in *
    end.
    destruct (preview_walk tr (fs_getcwd fs (disk w)) (c :: f')
                (walk (c :: f') (Dir files_root dirs)) w4)
      as (added & E & Hm & Hlen).
    cbn zeta in E, Hm, Hlen. rewrite <- El in E, Hlen.
    destruct (previews_added_fields (gui w4) added) as (F1 & F2 & F3 & F4).
    rewrite <- E in F1, F2, F3, F4.
    exists (folder_preview_list (gui w3)), added.
    rewrite F1, F2, F3, F4. subst w4. cbn [gui with_text file_preview_list
      folder_preview_list orig_text new_text].
    rewrite Gfi, Got, Gnt, Hfi, Hot, Hnt. repeat split; auto.
Qed.

(** X10.  The two texts of the window show the plan: after a scan that passed its
    checks, whether it returned or raised, the left text holds the old names
    of the folder entries and then of the file entries, one per line, and
    the right text their new names in the same order. *)
Theorem scan_shows_its_plan w t :
  strip (api_key_entry (gui w)) <> [] ->
  dir_entry (gui w) <> [] ->
  fs_tree fs (disk w) (dir_entry (gui w)) = Some t ->
  orig_text (gui (snd (scan_folder tr fs w)))
  = lines (map fst (folder_preview_list (gui (snd (scan_folder tr fs w)))
                    ++ file_preview_list (gui (snd (scan_folder tr fs w)))))
  /\ new_text (gui (snd (scan_folder tr fs w)))
     = lines (map snd (folder_preview_list (gui (snd (scan_folder tr fs w)))
                       ++ file_preview_list (gui (snd (scan_folder tr fs w))))).
Proof.
  intros Hkey Hdir Htree.
  destruct (scan_shape w t Hkey Hdir Htree) as (folders & added & E1 & E2 & E3 & E4 & _).
  rewrite E1, E2, E3, E4, !map_app, !lines_app. now split.
Qed.

(** X11.  The file entries follow the walk: after a scan that passed its checks
    the old paths of the file entries are the relative paths of the files of
    the tree, in the order of the walk, up to the file at which the scan
    raised; a scan that returns has one entry for every file. *)
Theorem scan_lists_every_file w t :
  strip (api_key_entry (gui w)) <> [] ->
  dir_entry (gui w) <> [] ->
  fs_tree fs (disk w) (dir_entry (gui w)) = Some t ->
  map fst (file_preview_list (gui (snd (scan_folder tr fs w))))
  = firstn (length (file_preview_list (gui (snd (scan_folder tr fs w)))))
      (listing (fs_getcwd fs (disk w)) (dir_entry (gui w)) t)
  /\ (forall u, fst (scan_folder tr fs w) = inr u ->
      map fst (file_preview_list (gui (snd (scan_folder tr fs w))))
      = listing (fs_getcwd fs (disk w)) (dir_entry (gui w)) t).
Proof.
  intros Hkey Hdir Htree.
  destruct (scan_shape w t Hkey Hdir Htree) as (folders & added & _ & E2 & _ & _ & E5 & E6).
  rewrite E2. split; [exact E5|].
  intros u Hu. rewrite E5, (E6 u Hu). apply firstn_all.
Qed.

(** X12.  A scan whose key check passes works with the key of the entry, stripped:
    it is the key in use afterwards, whatever it was before.  The two
    entries are left as they were, and the only dialog such a scan can show
    is the one that refuses the folder. *)
Theorem scan_adopts_the_key w :
  strip (api_key_entry (gui w)) <> [] ->
  api_key (gui (snd (scan_folder tr fs w))) = strip (api_key_entry (gui w))
  /\ api_key_entry (gui (snd (scan_folder tr fs w))) = api_key_entry (gui w)
  /\ dir_entry (gui (snd (scan_folder tr fs w))) = dir_entry (gui w)
  /\ messagebox (gui (snd (scan_folder tr fs w)))
     = messagebox (gui w)
       ++ match (match dir_entry (gui w) with
                 | [] => None
                 | _ => fs_tree fs (disk w) (dir_entry (gui w))
                 end) with
          | None => [showerror L"Error" L"Please select a valid directory"]
          | Some _ => []
          end.
Proof.
  intros Hkey.
  remember (scan_folder tr fs w) as r eqn:El.
  unfold scan_folder in El. unfold bind at 1 in El. unfold self at 1 in El.
  destruct (strip (api_key_entry (gui w))) as [|k0 key'] eqn:Ek; [contradiction|].
  set (w1 := snd ((if negb (str_eqb (k0 :: key') (api_key (gui w)))
                   then set_api_key (k0 :: key') else ret tt) w)) in *.
  assert (E1 : forall k : unit -> M unit,
             bind (if negb (str_eqb (k0 :: key') (api_key (gui w)))
                   then set_api_key (k0 :: key') else ret tt) k w = k tt w1)
    by (intro k; subst w1; now destruct (negb _)).
  assert (H1 : api_key (gui w1) = k0 :: key'
               /\ api_key_entry (gui w1) = api_key_entry (gui w)
               /\ dir_entry (gui w1) = dir_entry (gui w)
               /\ messagebox (gui w1) = messagebox (gui w)
               /\ disk w1 = disk w).
  { subst w1. destruct (str_eqb (k0 :: key') (api_key (gui w))) eqn:E; cbn.
    - apply str_eqb_eq in E. now rewrite <- E.
    - now repeat split. }
  destruct H1 as (Hk & Hke & Hde & Hmb & Hd).
  rewrite E1 in El. unfold bind at 1 in El. unfold the_disk at 1 in El. rewrite Hd in El.
  destruct (dir_entry (gui w)) as [|c f'] eqn:Ef.
  { subst r. cbn. now rewrite Hk, Hke, Hde, Hmb. }
  destruct (fs_tree fs (disk w) (c :: f')) as [t|] eqn:Htree.
  2:{ subst r. cbn. now rewrite Hk, Hke, Hde, Hmb. }
  destruct t as [files_root dirs].
  match type of El with
  | r = ?p w1 => assert (Hs : steps (@same_form W D) p)
  end.
  { unfold clear_previews, preview_file, get_new_name, folder_preview_append,
      file_preview_append, text_insert.
    open_client. walk_steps form_prim. }
  destruct (Hs w1) as (G1 & G2 & G3 & G4). rewrite <- El in G1, G2, G3, G4.
  rewrite G1, G2, G3, G4, Hk, Hke, Hde, Hmb, app_nil_r. now repeat split.
Qed.

End Scan_plan.

Lemma scan_shows_its_plan_witness :
  orig_text (gui (snd (scan_folder small_catalog probe_fs
                         (start (window L"k" L"/m/show") show_disk))))
  = lines (map fst
             (folder_preview_list
                (gui (snd (scan_folder small_catalog probe_fs
                             (start (window L"k" L"/m/show") show_disk))))
              ++ file_preview_list
                   (gui (snd (scan_folder small_catalog probe_fs
                                (start (window L"k" L"/m/show") show_disk))))))
  /\ new_text (gui (snd (scan_folder small_catalog probe_fs
                           (start (window L"k" L"/m/show") show_disk))))
     = lines (map snd
                (folder_preview_list
                   (gui (snd (scan_folder small_catalog probe_fs
                                (start (window L"k" L"/m/show") show_disk))))
                 ++ file_preview_list
                      (gui (snd (scan_folder small_catalog probe_fs
                                   (start (window L"k" L"/m/show") show_disk)))))).
Proof.
  apply (scan_shows_its_plan small_catalog probe_fs
           (start (window L"k" L"/m/show") show_disk)
           (Dir [L"notes.txt"] [(L"S1", Dir [L"Show.Name.S01E01.mkv"] [])])).
  - discriminate.
  - discriminate.
  - reflexivity.
Defined.

Lemma scan_lists_every_file_witness :
  map fst (file_preview_list
             (gui (snd (scan_folder unreachable probe_fs
                          (start (window L"k" L"/m/show") show_disk)))))
  = firstn (length (file_preview_list
                      (gui (snd (scan_folder unreachable probe_fs
                                   (start (window L"k" L"/m/show") show_disk))))))
      (listing (fs_getcwd probe_fs (disk (start (window L"k" L"/m/show") show_disk)))
         (dir_entry (gui (start (window L"k" L"/m/show") show_disk)))
         (Dir [L"notes.txt"] [(L"S1", Dir [L"Show.Name.S01E01.mkv"] [])]))
  /\ (forall u,
        fst (scan_folder unreachable probe_fs (start (window L"k" L"/m/show") show_disk))
        = inr u ->
        map fst (file_preview_list
                   (gui (snd (scan_folder unreachable probe_fs
                                (start (window L"k" L"/m/show") show_disk)))))
        = listing (fs_getcwd probe_fs (disk (start (window L"k" L"/m/show") show_disk)))
            (dir_entry (gui (start (window L"k" L"/m/show") show_disk)))
            (Dir [L"notes.txt"] [(L"S1", Dir [L"Show.Name.S01E01.mkv"] [])])).
Proof.
  apply (scan_lists_every_file unreachable probe_fs
           (start (window L"k" L"/m/show") show_disk)
           (Dir [L"notes.txt"] [(L"S1", Dir [L"Show.Name.S01E01.mkv"] [])])).
  - discriminate.
  - discriminate.
  - reflexivity.
Defined.

Lemma scan_adopts_the_key_witness :
  api_key (gui (snd (scan_folder small_catalog probe_fs
                       (start (window L" k " L"/m/show") show_disk))))
  = L"k".
Proof.
  apply (scan_adopts_the_key small_catalog probe_fs
           (start (window L" k " L"/m/show") show_disk)).
  discriminate.
Defined.

Section Report_facts.

Context {D : Type}.
Variable fs : filesystem D.

Lemma replay_report {A} (pick : A -> option (str * str * (exn -> str))) l :
  (forall x src dst lab, pick x = Some (src, dst, lab) ->
     exists label, forall e, lab e = label ++ L": " ++ e) ->
  forall errors d log,
  exists errs' log',
    fst (fst (replay fs pick l errors d log)) = errors ++ errs'
    /\ snd (replay fs pick l errors d log) = log ++ log'
    /\ Forall2 reported errs' (filter failed log').
Proof.
  intro Hpick. induction l as [|x l IH]; intros errors d log.
  - exists [], []. cbn. rewrite !app_nil_r. repeat split. constructor.
  - cbn [replay]. destruct (pick x) as [[[src dst] lab]|] eqn:Ep; [|apply IH].
    destruct (Hpick x src dst lab Ep) as [label Hlab].
    destruct (fs_rename fs src dst d) as [[e|] d'] eqn:Er; cbn [fst snd].
    + destruct (IH (errors ++ [lab e]) d' (log ++ [(src, dst, Some e)]))
        as (errs' & log' & E1 & E2 & H).
      exists (lab e :: errs'), ((src, dst, Some e) :: log').
      rewrite E1, E2, <- !app_assoc. repeat split.
      cbn. constructor; [|exact H]. exists label, e. split; [reflexivity|apply Hlab].
    + destruct (IH errors d' (log ++ [(src, dst, None)])) as (errs' & log' & E1 & E2 & H).
      exists errs', ((src, dst, None) :: log').
      rewrite E1, E2, <- !app_assoc. repeat split. exact H.
Qed.

Lemma replay_files_report folder l :
  forall errors d log errs,
    fst (fst (replay_files fs folder l errors d log)) = inr errs ->
    exists errs' log',
      errs = errors ++ errs'
      /\ snd (replay_files fs folder l errors d log) = log ++ log'
      /\ Forall2 reported errs' (filter failed log').
Proof.
  induction l as [|[orig_rel new_rel] l IH]; intros errors d log errs.
  - cbn. intros [= <-]. exists [], []. rewrite !app_nil_r. repeat split. constructor.
  - cbn [replay_files]. cbv zeta.
    set (m := match PosixPath.dirname (PosixPath.join folder new_rel) with
              | [] => (None, d)
              | _ :: _ => _
              end).
    destruct (fst m) as [e|]; [discriminate|].
    destruct (fs_rename fs (PosixPath.join folder orig_rel) (PosixPath.join folder new_rel)
                (snd m)) as [[e|] d'] eqn:Er; cbn [fst snd]; intro H.
    + destruct (IH _ _ _ _ H) as (errs' & log' & E1 & E2 & H').
      exists ((L"File " ++ orig_rel ++ L": " ++ e) :: errs'),
        ((PosixPath.join folder orig_rel, PosixPath.join folder new_rel, Some e) :: log').
      rewrite E1, E2, <- !app_assoc. repeat split.
      cbn [filter failed snd]. constructor; [|exact H'].
      exists (L"File " ++ orig_rel), e. split; [reflexivity|].
      now rewrite <- !app_assoc.
    + destruct (IH _ _ _ _ H) as (errs' & log' & E1 & E2 & H').
      exists errs',
        ((PosixPath.join folder orig_rel, PosixPath.join folder new_rel, None) :: log').
      rewrite E1, E2, <- !app_assoc. repeat split. exact H'.
Qed.

Lemma pick_folder_label folder x src dst lab :
  pick_folder folder x = Some (src, dst, lab) ->
  exists label, forall e, lab e = label ++ L": " ++ e.
Proof.
  unfold pick_folder. destruct (Plan.is_root folder x); [discriminate|].
  intros [= _ _ <-]. exists (L"Folder " ++ fst x). intro e. now rewrite <- !app_assoc.
Qed.

Lemma pick_root_label folder x src dst lab :
  pick_root folder x = Some (src, dst, lab) ->
  exists label, forall e, lab e = label ++ L": " ++ e.
Proof.
  unfold pick_root. destruct (Plan.is_root folder x); [|discriminate].
  intros [= _ _ <-]. exists (L"Root folder " ++ fst x). intro e. now rewrite <- !app_assoc.
Qed.

Lemma replay_plan_report folder files folders d log errs :
  fst (fst (replay_plan fs folder files folders d log)) = inr errs ->
  exists log',
    snd (replay_plan fs folder files folders d log) = log ++ log'
    /\ Forall2 reported errs (filter failed log').
Proof.
  unfold replay_plan. cbv zeta.
  destruct (fst (fst (replay_files fs folder files [] d log))) as [e|errors] eqn:E1.
  { rewrite E1. discriminate. }
  cbn [fst snd]. intros [= <-].
  destruct (replay_files_report folder files [] d log errors E1) as (e1 & l1 & F1 & G1 & H1).
  cbn [app] in F1. subst e1.
  set (r1 := replay_files fs folder files [] d log) in *.
  destruct (replay_report (pick_folder folder) folders (pick_folder_label folder)
              errors (snd (fst r1)) (snd r1)) as (e2 & l2 & F2 & G2 & H2).
  set (r2 := replay fs (pick_folder folder) folders errors (snd (fst r1)) (snd r1)) in *.
  destruct (replay_report (pick_root folder) folders (pick_root_label folder)
              (fst (fst r2)) (snd (fst r2)) (snd r2)) as (e3 & l3 & F3 & G3 & H3).
  exists (l1 ++ l2 ++ l3). rewrite F3, G3, F2, G2, G1, <- !app_assoc. split; [reflexivity|].
  rewrite !filter_app. repeat apply Forall2_app; assumption.
Qed.

End Report_facts.

Section Rename_facts.

Context {W D : Type}.
Variable fs : filesystem D.
Implicit Types w : world W D.

(** X13.  The executor works from the plan and leaves it in place: it asks the
    catalog nothing, and the two entries, the key in use, the plan and the
    two texts are after the batch what they were before it, whether the
    batch returned or was aborted. *)
Theorem rename_keeps_the_plan w :
  calls (snd (rename_files fs w)) = calls w
  /\ net (snd (rename_files fs w)) = net w
  /\ file_preview_list (gui (snd (rename_files fs w))) = file_preview_list (gui w)
  /\ folder_preview_list (gui (snd (rename_files fs w))) = folder_preview_list (gui w)
  /\ orig_text (gui (snd (rename_files fs w))) = orig_text (gui w)
  /\ new_text (gui (snd (rename_files fs w))) = new_text (gui w)
  /\ api_key_entry (gui (snd (rename_files fs w))) = api_key_entry (gui w)
  /\ dir_entry (gui (snd (rename_files fs w))) = dir_entry (gui w)
  /\ api_key (gui (snd (rename_files fs w))) = api_key (gui w).
Proof.
  rewrite rename_files_run. destruct (dir_entry (gui w)) as [|c f] eqn:Ef.
  - cbn [snd]. now rewrite Ef.
  - cbv zeta. destruct (fst (fst (replay_plan _ _ _ _ _ _))); cbn; now rewrite Ef.
Qed.

(** X14.  A batch that returns closes with one dialog, and the dialog tells what
    failed: its lines are, in the order of the calls, one for each rename
    that raised, a label followed by the text of the exception; it is the
    success dialog exactly when no rename raised. *)
Theorem rename_reports_failures w u :
  dir_entry (gui w) <> [] ->
  fst (rename_files fs w) = inr u ->
  exists errors log',
    renames (snd (rename_files fs w)) = renames w ++ log'
    /\ messagebox (gui (snd (rename_files fs w))) = messagebox (gui w) ++ [report errors]
    /\ Forall2 reported errors (filter failed log')
    /\ (report errors = showinfo L"Success" L"Files renamed successfully"
        <-> filter failed log' = []).
Proof.
  intros Hdir. rewrite rename_files_run.
  destruct (dir_entry (gui w)) as [|c f] eqn:Ef; [contradiction|]. cbv zeta.
  destruct (fst (fst (replay_plan fs (c :: f) (file_preview_list (gui w))
                        (folder_preview_list (gui w)) (disk w) (renames w))))
    as [e|errors] eqn:E; [discriminate|]. intros _.
  destruct (replay_plan_report fs _ _ _ _ _ _ E) as (log' & E1 & H).
  exists errors, log'. cbn [snd gui renames with_dialog messagebox].
  repeat split; auto.
  - intro Hr. destruct errors; [now inversion H|discriminate].
  - intro Hf. rewrite Hf in H. now inversion H.
Qed.

End Rename_facts.

Lemma rename_reports_failures_witness :
  exists errors log',
    renames (snd (rename_files probe_fs (start show_plan guarded_disk)))
    = renames (start show_plan guarded_disk) ++ log'
    /\ messagebox (gui (snd (rename_files probe_fs (start show_plan guarded_disk))))
       = messagebox (gui (start show_plan guarded_disk)) ++ [report errors]
    /\ Forall2 reported errors (filter failed log')
    /\ (report errors = showinfo L"Success" L"Files renamed successfully"
        <-> filter failed log' = []).
Proof.
  apply (rename_reports_failures probe_fs (start show_plan guarded_disk) tt).
  - discriminate.
  - reflexivity.
Defined.

Lemma fold_left_keeps {A B} (P : A -> Prop) (f : A -> B -> A) l :
  (forall a x, P a -> P (f a x)) -> forall a, P a -> P (fold_left f l a).
Proof. intro H. induction l as [|x l IH]; intros a Ha; cbn; auto. Qed.

Lemma fmt02_two_digits n : (0 <= n <= 99)%Z -> two_digits (fmt02 n) = true.
Proof.
  intro H.
  assert (E : forallb (fun k => two_digits (fmt02 (Z.of_nat k))) (seq 0 100) = true)
    by (vm_compute; reflexivity).
  rewrite forallb_forall in E. specialize (E (Z.to_nat n)).
  rewrite Z2Nat.id in E by lia. apply E. apply in_seq. lia.
Qed.

Lemma fmt02_round_trip n : (0 <= n <= 99)%Z -> int_of_str (fmt02 n) = n.
Proof.
  intro H.
  assert (E : forallb (fun k => (int_of_str (fmt02 (Z.of_nat k)) =? Z.of_nat k)%Z)
                (seq 0 100) = true)
    by (vm_compute; reflexivity).
  rewrite forallb_forall in E. specialize (E (Z.to_nat n)).
  rewrite Z2Nat.id in E by lia. apply Z.eqb_eq. apply E. apply in_seq. lia.
Qed.

Lemma split_chr_pieces sep s :
  Forall (fun p => existsb (chr_eqb sep) p = false) (split_chr sep s).
Proof.
  induction s as [|c s IH]; cbn [split_chr].
  - now repeat constructor.
  - destruct (chr_eqb c sep) eqn:E.
    + constructor; [reflexivity|exact IH].
    + assert (E' : chr_eqb sep c = false).
      { destruct (chr_eqb sep c) eqn:E'; [|reflexivity].
        apply chr_eqb_eq in E'. subst c. now rewrite chr_eqb_refl in E. }
      destruct (split_chr sep s) as [|p ps].
      * repeat constructor. cbn. now rewrite E'.
      * inversion IH; subst. constructor; [|assumption]. cbn. now rewrite E'.
Qed.

Lemma first_component_plain rel : plain (hd [] (split_chr PosixPath.sep rel)) = true.
Proof.
  unfold plain. pose proof (split_chr_pieces PosixPath.sep rel) as H.
  destruct (split_chr PosixPath.sep rel) as [|p ps]; [reflexivity|].
  cbn [hd]. now rewrite (Forall_inv H).
Qed.

Lemma dict_set_members k v d x :
  In x (dict_set k v d) -> In x d \/ x = (k, v).
Proof.
  induction d as [|[k' v'] d IH]; cbn [dict_set].
  - intros [<-|[]]. now right.
  - destruct (str_eqb k' k) eqn:E.
    + apply str_eqb_eq in E. subst k'. intros [<-|H]; [now right|left; now right].
    + intros [<-|H]; [left; now left|].
      destruct (IH H) as [H'|H']; [left; now right|now right].
Qed.

Lemma dict_set_keys k v d y :
  In y (map fst (dict_set k v d)) -> y = k \/ In y (map fst d).
Proof.
  intro H. apply in_map_iff in H as (x & <- & Hx).
  apply dict_set_members in Hx as [Hx| ->]; [right; now apply in_map|now left].
Qed.

Lemma dict_set_nodup k v d : NoDup (map fst d) -> NoDup (map fst (dict_set k v d)).
Proof.
  induction d as [|[k' v'] d IH]; cbn [dict_set map fst]; intro H.
  - repeat constructor. intros [].
  - inversion H as [|? ? Hn Hd]; subst.
    destruct (str_eqb k' k) eqn:E; cbn [map fst]; [exact H|].
    constructor; [|now apply IH].
    intro Hin. apply dict_set_keys in Hin as [->|Hin]; [|contradiction].
    now rewrite str_eqb_refl in E.
Qed.

Lemma dict_set_ok k v m :
  plain k = true -> (0 <= v <= 99)%Z -> season_map_ok m -> season_map_ok (dict_set k v m).
Proof.
  intros Hk Hv [Hn Hf]. split; [now apply dict_set_nodup|].
  apply Forall_forall. intros x Hx. apply dict_set_members in Hx as [Hx| ->].
  - rewrite Forall_forall in Hf. now apply Hf.
  - now split.
Qed.

Lemma parse_tv_season f tv : parse_tv f = Some tv -> (0 <= season tv <= 99)%Z.
Proof.
  rewrite parse_tv_as_spec. unfold Spec.parseEpisode.
  destruct (Spec.search_marker _) as [[name [s e]]|] eqn:E; [|discriminate].
  intros [= <-]. cbn [season].
  apply search_marker_digits in E as [Hs _]. now apply short_number_bound.
Qed.

Lemma season_map_of_ok cwd folder t : season_map_ok (season_map_of cwd folder t).
Proof.
  unfold season_map_of. apply fold_left_keeps.
  - intros m [[rootp ds] files] Hm.
    destruct (str_eqb _ _); [exact Hm|].
    apply fold_left_keeps; [|exact Hm].
    intros m' f Hm'. destruct (parse_tv f) as [tv|] eqn:E; [|exact Hm'].
    apply dict_set_ok; [apply first_component_plain|eapply parse_tv_season; eassumption|].
    exact Hm'.
  - split; constructor.
Qed.

(** X15.  The season entries of a scan: no old name has two of them, the old name
    of each is a single path component (it holds no separator), and the new
    name of each is the word Season, a space and two digits. *)
Theorem season_entries_shape {D} (fs : filesystem D) d folder t :
  NoDup (map fst (season_entries fs d folder t))
  /\ Forall (fun e => plain (fst e) = true
                      /\ exists digits, two_digits digits = true
                                        /\ snd e = L"Season " ++ digits)
       (season_entries fs d folder t).
Proof.
  unfold season_entries.
  destruct (season_map_of_ok (fs_getcwd fs d) folder t) as [Hn Hf]. split.
  - now rewrite map_map.
  - apply Forall_map. eapply Forall_impl; [|exact Hf].
    intros [k v] [Hk Hv]. cbn [fst snd] in *. split; [exact Hk|].
    exists (fmt02 v). split; [now apply fmt02_two_digits|reflexivity].
Qed.

Lemma two_digits_shape s :
  two_digits s = true -> exists a b, s = [a; b] /\ is_digit a = true /\ is_digit b = true.
Proof.
  destruct s as [|a [|b [|c s]]]; try discriminate. cbn.
  intro H. apply andb_true_iff in H as [Ha Hb]. now exists a, b.
Qed.

Lemma episode_part_straddle r x :
  Spec.episode_part r = None -> Spec.episode_part (r ++ " "%char :: x) = None.
Proof.
  destruct r as [|e [|d1 [|d2 r]]]; cbn [app Spec.episode_part]; intro H.
  - destruct x as [|? [|? ?]]; reflexivity.
  - destruct x as [|? ?]; [reflexivity|].
    replace (is_digit " ") with false by reflexivity.
    now rewrite andb_false_r.
  - replace (is_digit " ") with false by reflexivity. now rewrite andb_false_r.
  - exact H.
Qed.

Lemma marker_straddle b x :
  Spec.marker b = None -> Spec.marker (b ++ " "%char :: x) = None.
Proof.
  destruct b as [|c [|d1 [|d2 r]]]; cbn [app Spec.marker]; intro H.
  - destruct x; reflexivity.
  - replace (is_digit " ") with false by reflexivity. now rewrite andb_false_r.
  - destruct (Spec.is_S c && is_digit d1); [|reflexivity].
    replace (is_digit " ") with false by reflexivity.
    destruct x as [|? [|? ?]]; reflexivity.
  - destruct (Spec.is_S c && is_digit d1); [|reflexivity].
    destruct (is_digit d2).
    + destruct (Spec.episode_part r) eqn:E; [discriminate|].
      now rewrite (episode_part_straddle r x E).
    + destruct (Spec.episode_part (d2 :: r)) eqn:E; [discriminate|].
      change (d2 :: r ++ " "%char :: x) with ((d2 :: r) ++ " "%char :: x).
      now rewrite (episode_part_straddle (d2 :: r) x E).
Qed.

(** Inside a name that holds no marker and ends with a letter or a digit,
    no run of separators leads to a marker, whatever follows the name after
    a space. *)
Lemma separators_inside b z x :
  is_separator z = false ->
  holds_marker (b ++ [z]) = false ->
  Spec.separators_then_marker ((b ++ [z]) ++ " "%char :: x) = None.
Proof.
  intros Hz. induction b as [|c b IH]; cbn [app holds_marker Spec.separators_then_marker].
  - now rewrite Hz.
  - intro H. apply orb_false_iff in H as [H1 H2].
    destruct (is_separator c); [|reflexivity]. cbn [andb] in H1.
    destruct (Spec.marker (b ++ [z])) eqn:E; [discriminate|].
    rewrite (marker_straddle _ x E). now apply IH.
Qed.

Lemma holds_marker_suffix a b : holds_marker (a ++ b) = false -> holds_marker b = false.
Proof.
  induction a as [|c a IH]; [auto|]. cbn [app holds_marker].
  intro H. apply orb_false_iff in H as [_ H]. now apply IH.
Qed.

(** The lazy run takes the whole of such a name. *)
Lemma lazy_run_whole b z x r :
  is_separator z = false ->
  Forall (fun c => is_dot c = true) (b ++ [z]) ->
  holds_marker (b ++ [z]) = false ->
  Spec.separators_then_marker (" "%char :: x) = Some r ->
  forall run,
    Spec.lazy_run run ((b ++ [z]) ++ " "%char :: x) = Some (run ++ b ++ [z], r).
Proof.
  intros Hz Hdot Hm Hr. induction b as [|c b IH]; intro run.
  - cbn [app Spec.lazy_run]. rewrite (Forall_inv Hdot), Hr. reflexivity.
  - cbn [app Spec.lazy_run]. rewrite (Forall_inv Hdot).
    rewrite (separators_inside b z x Hz (holds_marker_suffix [c] _ Hm)).
    rewrite IH.
    + now rewrite <- app_assoc.
    + exact (Forall_inv_tail Hdot).
    + exact (holds_marker_suffix [c] _ Hm).
Qed.

Lemma marker_tail a b c d rest :
  is_digit a = true -> is_digit b = true -> is_digit c = true -> is_digit d = true ->
  Spec.separators_then_marker (L" - S" ++ [a; b] ++ L"E" ++ [c; d] ++ rest)
  = Some ([a; b], [c; d]).
Proof.
  intros Ha Hb Hc Hd. cbn [list_ascii_of_string app Spec.separators_then_marker].
  replace (is_separator " ") with true by reflexivity.
  replace (is_separator "-") with true by reflexivity.
  cbn [Spec.marker].
  replace (Spec.is_S "-") with false by reflexivity.
  replace (Spec.is_S " ") with false by reflexivity.
  replace (Spec.is_S "S") with true by reflexivity.
  cbn [andb]. rewrite Ha, Hb. cbn [Spec.episode_part].
  replace (Spec.is_E "E") with true by reflexivity.
  now rewrite Hc, Hd.
Qed.

Lemma settled_shape sh :
  settled sh = true ->
  exists b z,
    sh = b ++ [z] /\ is_separator z = false
    /\ (exists c t, sh = c :: t /\ is_separator c = false)
    /\ Forall (fun x => is_dot x = true) sh
    /\ ~ In "."%char sh
    /\ holds_marker sh = false.
Proof.
  unfold settled. destruct sh as [|c t] eqn:E; [discriminate|].
  rewrite <- E. destruct (rev sh) as [|z y] eqn:Er; [discriminate|].
  intro H. apply andb_true_iff in H as [H H4]. apply andb_true_iff in H as [H H3].
  apply andb_true_iff in H as [H1 H2].
  apply negb_true_iff in H1, H2, H4. rewrite forallb_forall in H3.
  exists (rev y), z. repeat split.
  - rewrite <- (rev_involutive sh), Er. reflexivity.
  - exact H2.
  - exists c, t. now split.
  - apply Forall_forall. intros x Hx. specialize (H3 x Hx).
    now apply andb_true_iff in H3 as [_ H3].
  - intro Hin. specialize (H3 _ Hin). now rewrite chr_eqb_refl in H3.
  - exact H4.
Qed.

Lemma dotless_prefix pre rest :
  ~ In "."%char pre ->
  exists rest', fst (PosixPath.splitext (pre ++ rest)) = pre ++ rest'.
Proof.
  intro Hpre. unfold PosixPath.splitext.
  destruct (_ && _) eqn:E; cbn [fst]; [|now exists rest].
  apply andb_true_iff in E as [E _]. apply Z.ltb_lt in E.
  pose proof (rfind_lower PosixPath.sep (pre ++ rest)) as Hs.
  assert (Hr : (0 <= rfind PosixPath.extsep rest)%Z).
  { destruct (Z_lt_le_dec (rfind PosixPath.extsep rest) 0) as [Hlt|]; [|assumption].
    assert (Hn : ~ In PosixPath.extsep rest).
    { intro Hin. apply (rfind_present PosixPath.extsep) in Hin. lia. }
    rewrite (rfind_app_absent _ pre rest Hn), (rfind_absent PosixPath.extsep pre Hpre) in E.
    lia. }
  rewrite (rfind_app_present _ pre rest Hr).
  exists (firstn (Z.to_nat (rfind PosixPath.extsep rest)) rest).
  unfold upto. rewrite firstn_app.
  rewrite firstn_all2 by lia. f_equal. f_equal. lia.
Qed.

Lemma replace_absent old new s : ~ In old s -> replace_chr old new s = s.
Proof.
  intro H. unfold replace_chr. rewrite <- (map_id s) at 2. apply map_ext_in.
  intros c Hc. destruct (chr_eqb c old) eqn:E; [|reflexivity].
  apply chr_eqb_eq in E. now subst c.
Qed.

Lemma separator_of_space c : is_space c = true -> is_separator c = true.
Proof.
  intro H. destruct c as [[] [] [] [] [] [] [] []]; try discriminate H; reflexivity.
Qed.

Lemma lstrip_kept c t : is_separator c = false -> lstrip (c :: t) = c :: t.
Proof.
  intro H. cbn [lstrip]. destruct (is_space c) eqn:E; [|reflexivity].
  apply separator_of_space in E. congruence.
Qed.

Lemma strip_kept b z c t :
  b ++ [z] = c :: t -> is_separator z = false -> is_separator c = false ->
  strip (b ++ [z]) = b ++ [z].
Proof.
  intros E Hz Hc. unfold strip. rewrite E, (lstrip_kept c t Hc), <- E.
  unfold rstrip. rewrite rev_app_distr. cbn [rev app].
  rewrite (lstrip_kept z (rev b) Hz).
  change (z :: rev b) with ([z] ++ rev b). rewrite rev_app_distr, rev_involutive.
  reflexivity.
Qed.

Lemma digits_not_dots s : two_digits s = true -> ~ In "."%char s.
Proof.
  intro H. apply two_digits_shape in H as (a & b & -> & Ha & Hb).
  intros [H|[H|[]]]; subst; discriminate.
Qed.

(** ** The episode scheme read back *)

Lemma settled_show sh : settled sh = true -> strip (replace_chr "." " " sh) = sh.
Proof.
  intro Hsh.
  apply settled_shape in Hsh as (b & z & Eb & Hz & (c & t & Ec & Hc) & _ & Hnd & _).
  rewrite (replace_absent _ _ sh Hnd).
  rewrite Eb. apply (strip_kept b z c t); congruence.
Qed.

Lemma episode_name_marker sh s e rest :
  settled sh = true -> (0 <= s <= 99)%Z -> (0 <= e <= 99)%Z ->
  Spec.search_marker (Spec.base_name (episode_name sh s e rest))
  = Some (sh, (fmt02 s, fmt02 e)).
Proof.
  intros Hsh Hs He. unfold Spec.base_name, episode_name.
  apply settled_shape in Hsh as (b & z & Eb & Hz & _ & Hdot & Hnd & Hm).
  pose proof (fmt02_two_digits s Hs) as Ds. pose proof (fmt02_two_digits e He) as De.
  destruct (dotless_prefix (sh ++ L" - S" ++ fmt02 s ++ L"E" ++ fmt02 e) rest)
    as [rest' E].
  { rewrite !in_app_iff. intros [H|[H|[H|[H|H]]]].
    - contradiction.
    - cbn in H. intuition discriminate.
    - now apply (digits_not_dots _ Ds).
    - cbn in H. intuition discriminate.
    - now apply (digits_not_dots _ De). }
  rewrite <- !app_assoc in E. rewrite E. clear E.
  destruct (two_digits_shape _ Ds) as (a1 & a2 & Es & Ha1 & Ha2).
  destruct (two_digits_shape _ De) as (e1 & e2 & Ee & He1 & He2).
  assert (L0 : Spec.lazy_run []
                 (sh ++ L" - S" ++ fmt02 s ++ L"E" ++ fmt02 e ++ rest')
               = Some (sh, (fmt02 s, fmt02 e))).
  { rewrite Es, Ee, Eb.
    apply (lazy_run_whole b z _ ([a1; a2], [e1; e2]) Hz); try (rewrite <- Eb; assumption).
    exact (marker_tail a1 a2 e1 e2 rest' Ha1 Ha2 He1 He2). }
  destruct (sh ++ L" - S" ++ fmt02 s ++ L"E" ++ fmt02 e ++ rest');
    cbn [Spec.search_marker]; now rewrite L0.
Qed.

(** X16.  What [get_new_name] writes, [parse_tv] reads back: from a name of the
    episode scheme, with or without the title of the episode after it, for
    a settled show name and a season and an episode below 100, the parser
    returns that show name, that season and that episode. *)
Theorem episode_scheme_round_trip sh s e rest :
  settled sh = true -> (0 <= s <= 99)%Z -> (0 <= e <= 99)%Z ->
  parse_tv (episode_name sh s e rest) = Some {| show := sh; season := s; episode := e |}.
Proof.
  intros Hsh Hs He. rewrite parse_tv_as_spec. unfold Spec.parseEpisode.
  rewrite (episode_name_marker sh s e rest Hsh Hs He), (settled_show sh Hsh).
  now rewrite !fmt02_round_trip.
Qed.

Lemma episode_scheme_round_trip_witness :
  parse_tv (episode_name L"Breaking Bad" 1 2 L" - Cat's in the Bag.mkv")
  = Some {| show := L"Breaking Bad"; season := 1; episode := 2 |}.
Proof.
  apply (episode_scheme_round_trip L"Breaking Bad" 1 2 L" - Cat's in the Bag.mkv").
  - reflexivity.
  - lia.
  - lia.
Defined.

(** X17.  A name of the episode scheme is a fixed point of the naming when the
    catalog does not know the show: for a settled show name that the film
    parser does not take, a season and an episode below 100 and the
    extension of the name, [get_new_name] returns the name it was given. *)
Theorem episode_name_is_stable {W D} (tr : transport W) sh s e ext (w : world W D) :
  settled sh = true -> (0 <= s <= 99)%Z -> (0 <= e <= 99)%Z ->
  parse_movie (episode_name sh s e ext) = None ->
  snd (PosixPath.splitext (episode_name sh s e ext)) = ext ->
  fst (tr (SearchTv sh None) (net w)) = inr [] ->
  fst (get_new_name tr (episode_name sh s e ext) w) = inr (episode_name sh s e ext).
Proof.
  intros Hsh Hs He Hmovie Hext Hmiss. unfold get_new_name.
  rewrite Hmovie, Hext. rewrite parse_tv_as_spec. unfold Spec.parseEpisode.
  rewrite (episode_name_marker sh s e ext Hsh Hs He), (settled_show sh Hsh).
  rewrite !fmt02_round_trip by assumption. cbn [show season episode].
  unfold bind. rewrite search_tv_run. unfold requests_get.
  change (year_param None) with (@None Z).
  destruct (tr (SearchTv sh None) (net w)) as [res n']. cbn [fst] in Hmiss. subst res.
  reflexivity.
Qed.

Lemma episode_name_is_stable_witness :
  fst (get_new_name no_results (episode_name L"Breaking Bad" 1 2 L".mkv")
         (start (window L"k" L"/m/show") show_disk))
  = inr (episode_name L"Breaking Bad" 1 2 L".mkv").
Proof.
  apply (episode_name_is_stable no_results L"Breaking Bad" 1 2 L".mkv"
           (start (window L"k" L"/m/show") show_disk)).
  - reflexivity.
  - lia.
  - lia.
  - reflexivity.
  - reflexivity.
  - reflexivity.
Defined.

Lemma digit_facts d :
  is_digit d = true ->
  is_separator d = false /\ Spec.is_S d = false /\ is_dot_or_space d = false.
Proof.
  intro H. destruct d as [[] [] [] [] [] [] [] []]; try discriminate H; now repeat split.
Qed.

(** ** [re.split] and what follows a word *)

Lemma split_go_nonempty p r cur s : Re.split_go p r cur s <> [].
Proof.
  revert r cur; induction s as [|c s IH]; intros r cur; cbn [Re.split_go].
  - discriminate.
  - destruct (p c); [destruct r|]; [apply IH|discriminate|apply IH].
Qed.

Lemma split_go_word p r cur w :
  w <> [] \/ r = false ->
  Forall (fun c => p c = false) w -> Re.split_go p r cur w = [cur ++ w].
Proof.
  intros Hw H. revert r cur Hw. induction H as [|c w Hc _ IH]; intros r cur Hw.
  - cbn. now rewrite app_nil_r.
  - cbn [Re.split_go]. rewrite Hc, IH by now right. now rewrite <- app_assoc.
Qed.

Lemma split_go_app p r cur b z y :
  p z = false ->
  Re.split_go p r cur ((b ++ [z]) ++ y)
  = removelast (Re.split_go p r cur (b ++ [z]))
    ++ Re.split_go p false (last (Re.split_go p r cur (b ++ [z])) []) y.
Proof.
  intro Hz. revert r cur. induction b as [|c b IH]; intros r cur.
  - cbn [app Re.split_go]. rewrite Hz. cbn [removelast last app]. reflexivity.
  - cbn [app Re.split_go]. destruct (p c); [destruct r|]; try apply IH.
    rewrite IH.
    pose proof (split_go_nonempty p true [] (b ++ [z])) as Hn.
    destruct (Re.split_go p true [] (b ++ [z])) as [|x l]; [contradiction|].
    reflexivity.
Qed.

Lemma first_year_app parts t :
  Spec.first_year parts = None -> Spec.is_year_token t = false ->
  Spec.first_year (parts ++ [t]) = None.
Proof.
  intros H Ht. induction parts as [|x parts IH]; cbn [app Spec.first_year] in *.
  - now rewrite Ht.
  - destruct (Spec.is_year_token x); [discriminate|].
    destruct (Spec.first_year parts); [discriminate|]. now rewrite IH.
Qed.

(** ** No marker in a name of the film scheme *)

Lemma marker_found t r : Spec.separators_then_marker t = Some r -> holds_marker t = true.
Proof.
  induction t as [|c t IH]; [discriminate|]. cbn [Spec.separators_then_marker holds_marker].
  destruct (is_separator c); [|discriminate]. cbn [andb].
  destruct (Spec.marker t); [reflexivity|]. intro H. rewrite (IH H). apply orb_true_r.
Qed.

Lemma lazy_run_none run s : holds_marker s = false -> Spec.lazy_run run s = None.
Proof.
  revert run; induction s as [|c s IH]; intros run H; [reflexivity|].
  cbn [Spec.lazy_run]. destruct (is_dot c); [|reflexivity].
  cbn [holds_marker] in H. apply orb_false_iff in H as [_ H].
  destruct (Spec.separators_then_marker s) as [r|] eqn:E.
  - apply marker_found in E. congruence.
  - now apply IH.
Qed.

Lemma search_marker_none s : holds_marker s = false -> Spec.search_marker s = None.
Proof.
  induction s as [|c s IH]; intro H.
  - reflexivity.
  - cbn [Spec.search_marker]. rewrite (lazy_run_none [] (c :: s) H).
    cbn [holds_marker] in H. apply orb_false_iff in H as [_ H]. now apply IH.
Qed.

Lemma holds_marker_app b z x :
  is_separator z = false ->
  holds_marker (b ++ [z]) = false ->
  holds_marker ((b ++ [z]) ++ " "%char :: x) = holds_marker (" "%char :: x).
Proof.
  intros Hz. induction b as [|c b IH]; cbn [app holds_marker].
  - now rewrite Hz.
  - intro H. apply orb_false_iff in H as [H1 H2]. rewrite (IH H2).
    destruct (is_separator c); [|reflexivity]. cbn [andb] in *.
    destruct (Spec.marker (b ++ [z])) eqn:E; [discriminate|].
    now rewrite (marker_straddle _ x E).
Qed.

Lemma holds_marker_digits y :
  Forall (fun d => is_digit d = true) y -> holds_marker (y ++ L")") = false.
Proof.
  induction 1 as [|d y Hd _ IH]; [reflexivity|].
  cbn [app holds_marker]. destruct (digit_facts d Hd) as (-> & _). exact IH.
Qed.

Lemma holds_marker_year y :
  Forall (fun d => is_digit d = true) y -> holds_marker (L" (" ++ y ++ L")") = false.
Proof.
  intro H. pose proof (holds_marker_digits y H) as Hy.
  cbn [list_ascii_of_string app holds_marker] in *.
  rewrite Hy, orb_false_r.
  replace (is_separator " ") with true by reflexivity.
  replace (is_separator "(") with true by reflexivity. cbn [andb].
  destruct H as [|d1 y Hd1 H]; [reflexivity|].
  destruct (digit_facts d1 Hd1) as (_ & HS & _).
  cbn [app Spec.marker]. replace (Spec.is_S "(") with false by reflexivity. cbn [andb orb].
  destruct H as [|d2 y Hd2 H]; cbn [app]; rewrite HS; reflexivity.
Qed.

Lemma splitext_dotless p : ~ In "."%char p -> PosixPath.splitext p = (p, []).
Proof.
  intro H. unfold PosixPath.splitext.
  rewrite (rfind_absent PosixPath.extsep p H).
  pose proof (rfind_lower PosixPath.sep p) as Hs.
  destruct (rfind PosixPath.sep p <? -1)%Z eqn:E; [|reflexivity].
  apply Z.ltb_lt in E. lia.
Qed.

Lemma bracket_not_year y : Spec.is_year_token (L"(" ++ y ++ L")") = false.
Proof. unfold Spec.is_year_token. cbn. now rewrite andb_false_r. Qed.

Lemma bracket_not_resolution y : Spec.is_resolution_marker (L"(" ++ y ++ L")") = false.
Proof.
  unfold Spec.is_resolution_marker.
  change (L"(" ++ y ++ L")") with (("("%char :: y) ++ [")"%char]).
  rewrite rev_app_distr. cbn [rev app].
  replace (chr_eqb ")" "p") with false by reflexivity.
  replace (chr_eqb ")" "P") with false by reflexivity.
  cbn [orb]. rewrite andb_false_r. reflexivity.
Qed.

Lemma film_name_tokens title y :
  settled title = true -> Forall (fun d => is_digit d = true) y ->
  Spec.tokens (title ++ L" (" ++ y ++ L")") = Spec.tokens title ++ [L"(" ++ y ++ L")"].
Proof.
  intros Ht Hy.
  apply settled_shape in Ht as (b & z & Eb & Hz & _ & _ & Hnd & _).
  assert (Hpz : is_dot_or_space z = false).
  { unfold is_dot_or_space. apply orb_false_iff. split.
    - destruct (chr_eqb z ".") eqn:E; [|reflexivity]. apply chr_eqb_eq in E.
      subst z. exfalso. apply Hnd. rewrite Eb. apply in_or_app. right. now left.
    - destruct (is_space z) eqn:E; [|reflexivity]. apply separator_of_space in E. congruence. }
  unfold Spec.tokens, Re.split_plus. rewrite Eb.
  rewrite (split_go_app is_dot_or_space false [] b z _ Hpz).
  set (X := Re.split_go is_dot_or_space false [] (b ++ [z])).
  cbn [list_ascii_of_string app Re.split_go].
  replace (is_dot_or_space " ") with true by reflexivity.
  replace (is_dot_or_space "(") with false by reflexivity.
  rewrite (split_go_word is_dot_or_space false ["("%char] (y ++ [")"%char])).
  - cbn [app].
    transitivity ((removelast X ++ [last X []]) ++ ["("%char :: y ++ [")"%char]]).
    + now rewrite <- app_assoc.
    + now rewrite <- (app_removelast_last (l := X) []) by apply split_go_nonempty.
  - now right.
  - apply Forall_app. split.
    + eapply Forall_impl; [|exact Hy]. intros d Hd. now apply digit_facts.
    + now repeat constructor.
Qed.

Lemma stem_of_name pre ext :
  snd (PosixPath.splitext (pre ++ ext)) = ext ->
  fst (PosixPath.splitext (pre ++ ext)) = pre.
Proof.
  intro Hext. pose proof (splitext_joined (pre ++ ext)) as E. rewrite Hext in E.
  now apply app_inv_tail in E.
Qed.

(** Neither parser accepts a name of the film scheme. *)
Lemma film_name_unparsed title y ext :
  settled title = true ->
  parse_movie title = None ->
  Forall (fun d => is_digit d = true) y ->
  snd (PosixPath.splitext (film_name title y ext)) = ext ->
  unparsed (film_name title y ext).
Proof.
  intros Ht Hm Hd Hext.
  assert (Hstem : fst (PosixPath.splitext (film_name title y ext))
                  = title ++ L" (" ++ y ++ L")").
  { unfold film_name in *. rewrite !app_assoc in *. now apply stem_of_name. }
  pose proof Ht as Hshape.
  apply settled_shape in Hshape as (b & z & Eb & Hz & _ & _ & Hnd & Hh).
  split.
  - rewrite parse_movie_as_spec in *. unfold Spec.parseMovie, Spec.base_name in *.
    rewrite Hstem, (film_name_tokens title y Ht Hd).
    rewrite (splitext_dotless title Hnd) in Hm. cbn [fst] in Hm.
    set (X := Spec.tokens title) in *.
    destruct (Spec.first_year X) eqn:E; [discriminate|].
    pose proof (first_year_app X _ E (bracket_not_year y)) as F.
    match goal with
    | |- context [Spec.first_year ?l] =>
        replace (Spec.first_year l) with (@None nat) by (symmetry; exact F)
    end.
    destruct X as [|x0 [|x1 X']] eqn:EX.
    + exfalso. apply (split_go_nonempty is_dot_or_space false [] title). exact EX.
    + cbn [app length Nat.leb nth andb]. now rewrite bracket_not_resolution.
    + cbn [app length Nat.leb nth andb] in *.
      destruct (Spec.is_resolution_marker x1); [discriminate|reflexivity].
  - rewrite parse_tv_as_spec. unfold Spec.parseEpisode, Spec.base_name.
    rewrite Hstem, search_marker_none; [reflexivity|].
    rewrite Eb. change (L" (" ++ y ++ L")") with (" "%char :: L"(" ++ y ++ L")").
    rewrite holds_marker_app; [|assumption|now rewrite <- Eb].
    exact (holds_marker_year y Hd).
Qed.

(** Neither parser accepts a settled title with an extension, when the film
    parser does not take the title by itself. *)
Lemma title_unparsed title ext :
  settled title = true ->
  parse_movie title = None ->
  snd (PosixPath.splitext (title ++ ext)) = ext ->
  unparsed (title ++ ext).
Proof.
  intros Ht Hm Hext. pose proof (stem_of_name title ext Hext) as Hstem.
  apply settled_shape in Ht as (b & z & Eb & Hz & _ & _ & Hnd & Hh).
  split.
  - rewrite parse_movie_as_spec in *. unfold Spec.parseMovie, Spec.base_name in *.
    rewrite Hstem. now rewrite (splitext_dotless title Hnd) in Hm.
  - rewrite parse_tv_as_spec. unfold Spec.parseEpisode, Spec.base_name.
    now rewrite Hstem, (search_marker_none title Hh).
Qed.

(** X18.  A name of the film scheme is left alone: for a settled title that the
    film parser does not take by itself, a year written in digits and the
    extension of the name, neither parser accepts the name, and
    [get_new_name] returns it without asking the catalog. *)
Theorem film_name_is_stable {W D} (tr : transport W) title y ext (w : world W D) :
  settled title = true ->
  parse_movie title = None ->
  forallb is_digit y = true ->
  snd (PosixPath.splitext (film_name title y ext)) = ext ->
  unparsed (film_name title y ext)
  /\ get_new_name tr (film_name title y ext) w = (inr (film_name title y ext), w).
Proof.
  intros Ht Hm Hy Hext.
  assert (Hd : Forall (fun d => is_digit d = true) y).
  { apply Forall_forall. now apply forallb_forall. }
  pose proof (film_name_unparsed title y ext Ht Hm Hd Hext) as U.
  split; [exact U|]. now apply unparsed_name.
Qed.

Lemma film_name_is_stable_witness :
  unparsed (film_name L"Blade Runner" L"1982" L".mkv")
  /\ get_new_name small_catalog (film_name L"Blade Runner" L"1982" L".mkv")
       (start (window L"k" L"/m/film") film_disk)
     = (inr (film_name L"Blade Runner" L"1982" L".mkv"),
        start (window L"k" L"/m/film") film_disk).
Proof.
  apply (film_name_is_stable small_catalog L"Blade Runner" L"1982" L".mkv"
           (start (window L"k" L"/m/film") film_disk)); reflexivity.
Defined.

#[export] Instance same_folder_order {W D} : Order (@same_folder W D).
Proof. split; unfold same_folder; intuition congruence. Qed.

Section Folder_facts.

Context {W D : Type}.
Variable tr : transport W.

Lemma requests_get_folder r : steps (@same_folder W D) (requests_get tr r).
Proof.
  intro w. destruct (requests_get_window tr r w) as (H & _).
  unfold same_folder. now rewrite H.
Qed.

Lemma update_folder f :
  (forall a, dir_entry (f a) = dir_entry a) -> steps (@same_folder W D) (update f).
Proof. intros H w. apply H. Qed.

End Folder_facts.

Ltac folder_prim :=
  idtac;
  match goal with
  | |- steps _ (requests_get ?t ?r) => exact (requests_get_folder t r)
  | |- steps _ (update _) => apply update_folder; intro; reflexivity
  end.

Section Scan_then_rename.

Context {W D : Type}.
Variable tr : transport W.
Variable fs : filesystem D.
Implicit Types w : world W D.

Lemma scan_same_folder : steps (@same_folder W D) (scan_folder tr fs).
Proof.
  unfold scan_folder, preview_file, get_new_name, show_dialog, set_api_key, clear_previews,
    folder_preview_append, file_preview_append, text_insert.
  open_client. walk_steps folder_prim.
Qed.

Lemma scan_same_disk : steps (@same_disk W D) (scan_folder tr fs).
Proof.
  unfold scan_folder, preview_file, get_new_name, show_dialog, set_api_key, clear_previews,
    folder_preview_append, file_preview_append, text_insert.
  open_client. walk_steps disk_prim.
Qed.

(** The calls of a batch that returns. *)
Lemma rename_log w u :
  dir_entry (gui w) <> [] ->
  fst (rename_files fs w) = inr u ->
  map fst (renames (snd (rename_files fs w)))
  = map fst (renames w)
    ++ Plan.order (dir_entry (gui w)) (file_preview_list (gui w))
         (folder_preview_list (gui w)).
Proof.
  intro Hf. rewrite rename_files_run.
  destruct (dir_entry (gui w)) as [|c f'] eqn:Ef; [contradiction|].
  set (folder := c :: f') in *. cbn zeta. unfold replay_plan. cbn zeta.
  destruct (replay_files_log fs folder (file_preview_list (gui w)) [] (disk w) (renames w))
    as (n & Hn & Hlog & Hall).
  destruct (fst (fst (replay_files fs folder (file_preview_list (gui w)) []
                        (disk w) (renames w)))) as [e|errors] eqn:E1.
  - rewrite E1. cbn [fst snd renames]. discriminate.
  - cbn [fst snd renames]. intros _.
    rewrite !replay_log, picked_folder, picked_root, Hlog, (Hall errors eq_refl), firstn_all.
    unfold Plan.order. now rewrite <- !app_assoc.
Qed.

Lemma folder_phases_length folder folders :
  length (Plan.folder_phase folder folders ++ Plan.root_phase folder folders)
  = length folders.
Proof.
  unfold Plan.folder_phase, Plan.root_phase. rewrite length_app, !length_map.
  induction folders as [|e l IH]; [reflexivity|].
  cbn [filter]. destruct (Plan.is_root folder e); cbn [negb length]; lia.
Qed.

(** X19.  Scan, then rename: when both return, the batch calls [os.rename] once
    for every file of the tree, in the order of the walk and on its path
    under the folder, whether the name changes or not, and then once for
    every folder entry. *)
Theorem scanned_plan_is_executed w t u u' :
  strip (api_key_entry (gui w)) <> [] ->
  dir_entry (gui w) <> [] ->
  fs_tree fs (disk w) (dir_entry (gui w)) = Some t ->
  fst (scan_folder tr fs w) = inr u ->
  fst (rename_files fs (snd (scan_folder tr fs w))) = inr u' ->
  exists folders,
    sources (renames (snd (rename_files fs (snd (scan_folder tr fs w)))))
    = sources (renames w)
      ++ map (PosixPath.join (dir_entry (gui w)))
           (listing (fs_getcwd fs (disk w)) (dir_entry (gui w)) t)
      ++ folders
    /\ length folders
       = length (folder_preview_list (gui (snd (scan_folder tr fs w)))).
Proof.
  intros Hkey Hdir Htree Hscan Hren.
  destruct (scan_shape tr fs w t Hkey Hdir Htree)
    as (folders & added & E1 & E2 & _ & _ & E5 & E6).
  pose proof (scan_same_folder w) as Hsf. unfold same_folder in Hsf.
  destruct (scan_same_disk w) as [_ Hsr].
  set (w' := snd (scan_folder tr fs w)) in *.
  assert (Hdir' : dir_entry (gui w') <> []) by now rewrite Hsf.
  pose proof (rename_log w' u' Hdir' Hren) as Hlog.
  unfold sources. rewrite Hlog, Hsr, Hsf, E1, E2. unfold Plan.order.
  exists (map fst (Plan.folder_phase (dir_entry (gui w)) folders
                   ++ Plan.root_phase (dir_entry (gui w)) folders)).
  split.
  - rewrite !map_app. f_equal. f_equal.
    unfold Plan.file_phase. rewrite map_map. cbn [Plan.inside fst].
    rewrite <- (map_map fst (PosixPath.join (dir_entry (gui w)))).
    rewrite E5, (E6 u Hscan), firstn_all. reflexivity.
  - rewrite length_map. apply folder_phases_length.
Qed.

End Scan_then_rename.

Lemma scanned_plan_is_executed_witness :
  exists folders,
    sources (renames (snd (rename_files probe_fs
                             (snd (scan_folder small_catalog probe_fs
                                     (start (window L"k" L"/m/show") show_disk))))))
    = sources (renames (start (window L"k" L"/m/show") show_disk))
      ++ map (PosixPath.join (dir_entry (gui (start (window L"k" L"/m/show") show_disk))))
           (listing (fs_getcwd probe_fs (disk (start (window L"k" L"/m/show") show_disk)))
              (dir_entry (gui (start (window L"k" L"/m/show") show_disk)))
              (Dir [L"notes.txt"] [(L"S1", Dir [L"Show.Name.S01E01.mkv"] [])]))
      ++ folders
    /\ length folders
       = length (folder_preview_list
                   (gui (snd (scan_folder small_catalog probe_fs
                                (start (window L"k" L"/m/show") show_disk))))).
Proof.
  apply (scanned_plan_is_executed small_catalog probe_fs
           (start (window L"k" L"/m/show") show_disk)
           (Dir [L"notes.txt"] [(L"S1", Dir [L"Show.Name.S01E01.mkv"] [])]) tt tt).
  - discriminate.
  - discriminate.
  - reflexivity.
  - reflexivity.
  - reflexivity.
Defined.

(** A year the film parser returns passes the test [if year:]. *)
Lemma parsed_year_counts filename m :
  parse_movie filename = Some m -> year_param (year m) = year m.
Proof.
  rewrite parse_movie_as_spec. unfold Spec.parseMovie.
  destruct (Spec.first_year _) as [i|] eqn:E.
  - intros [= <-]. cbn [year].
    apply first_year_sound in E as [_ E]. unfold Spec.is_year_token in E.
    apply andb_true_iff in E as [E _]. apply andb_true_iff in E as [_ H1].
    apply Z.leb_le in H1. unfold year_param, truthy_int.
    destruct (Z.eqb_spec (int_of_str (nth i (Spec.tokens (Spec.base_name filename)) [])) 0);
      [lia|reflexivity].
  - destruct (_ && _); [|discriminate]. now intros [= <-].
Qed.

(** X20.  A film the catalog does not know keeps what the parser read: the search
    is made with the parsed title and the parsed year, and when it finds
    nothing the new name is that title, that year in brackets when there is
    one, and the extension of the file. *)
Theorem film_fallback_keeps_the_year {W D} (tr : transport W) f m (w : world W D) :
  parse_movie f = Some m ->
  fst (tr (SearchMovie (title m) (year m)) (net w)) = inr [] ->
  fst (get_new_name tr f w)
  = inr (title m ++ bracketed (year m) ++ snd (PosixPath.splitext f))
  /\ calls (snd (get_new_name tr f w))
     = calls w ++ [(SearchMovie (title m) (year m), None)].
Proof.
  intros Hm Hmiss. pose proof (parsed_year_counts f m Hm) as Hy.
  unfold get_new_name. rewrite Hm. unfold search_movie, bind, requests_get.
  rewrite Hy. destruct (tr (SearchMovie (title m) (year m)) (net w)) as [res n'].
  cbn [fst] in Hmiss. subst res. cbn [ret fst snd calls].
  destruct (year m) as [y|] eqn:Ey.
  - unfold year_param in Hy. destruct (truthy_int (Some y)); [|discriminate].
    cbn [ret fst snd calls bracketed]. split; [|reflexivity].
    now rewrite <- !app_assoc.
  - cbn. now split.
Qed.

Lemma film_fallback_keeps_the_year_witness :
  fst (get_new_name no_results L"Inception.2010.1080p.mkv"
         (start (window L"k" L"/m/film") film_disk))
  = inr (L"Inception" ++ bracketed (Some 2010%Z)
         ++ snd (PosixPath.splitext L"Inception.2010.1080p.mkv"))
  /\ calls (snd (get_new_name no_results L"Inception.2010.1080p.mkv"
                   (start (window L"k" L"/m/film") film_disk)))
     = calls (start (window L"k" L"/m/film") film_disk)
       ++ [(SearchMovie L"Inception" (Some 2010%Z), None)].
Proof.
  apply (film_fallback_keeps_the_year no_results L"Inception.2010.1080p.mkv"
           {| title := L"Inception"; year := Some 2010%Z |}
           (start (window L"k" L"/m/film") film_disk)); reflexivity.
Defined.

(** ** The extension, put back after a new stem *)

Lemma rfind_split c s :
  (0 <= rfind c s)%Z ->
  exists x, skipn (Z.to_nat (rfind c s)) s = c :: x /\ ~ In c x.
Proof.
  induction s as [|a t IH]; cbn [rfind]; [lia|].
  destruct (0 <=? rfind c t)%Z eqn:E.
  - intros _. apply Z.leb_le in E. destruct (IH E) as (x & Hx & Hn).
    exists x. split; [|exact Hn].
    replace (Z.to_nat (rfind c t + 1)) with (S (Z.to_nat (rfind c t))) by lia.
    exact Hx.
  - apply Z.leb_gt in E. destruct (chr_eqb a c) eqn:Ea; [|lia]. intros _.
    apply chr_eqb_eq in Ea. subst a. exists t. split; [reflexivity|].
    intro Hin. apply (rfind_present c) in Hin. lia.
Qed.

Lemma extension_shape f :
  snd (PosixPath.splitext f) = []
  \/ exists x, snd (PosixPath.splitext f) = "."%char :: x /\ ~ In "."%char x.
Proof.
  unfold PosixPath.splitext. destruct (_ && _) eqn:E; cbn [snd]; [right|now left].
  apply andb_true_iff in E as [E _]. apply Z.ltb_lt in E.
  pose proof (rfind_lower PosixPath.sep f).
  apply (rfind_split PosixPath.extsep f). lia.
Qed.

Lemma splitext_rejoined b z f :
  z <> PosixPath.sep -> ~ In "."%char (b ++ [z]) ->
  snd (PosixPath.splitext ((b ++ [z]) ++ snd (PosixPath.splitext f)))
  = snd (PosixPath.splitext f).
Proof.
  intros Hz Hnd. pose proof (splitext_ext_plain f) as Hplain.
  destruct (extension_shape f) as [E|(x & E & Hx)]; rewrite E in *.
  - rewrite app_nil_r. now rewrite (splitext_dotless _ Hnd).
  - set (pre := b ++ [z]) in *. unfold PosixPath.splitext.
    assert (Hdot : rfind PosixPath.extsep (pre ++ "."%char :: x)
                   = Z.of_nat (length pre)).
    { rewrite rfind_app_present.
      - cbn [rfind]. rewrite (rfind_absent PosixPath.extsep x Hx). cbn. lia.
      - cbn [rfind]. rewrite (rfind_absent PosixPath.extsep x Hx). cbn. lia. }
    assert (Hsep : rfind PosixPath.sep (pre ++ "."%char :: x) = rfind PosixPath.sep b).
    { rewrite (rfind_app_absent _ pre _ Hplain). unfold pre.
      apply rfind_app_absent. intros [H|[]]. now apply Hz. }
    rewrite Hdot, Hsep.
    pose proof (rfind_lower PosixPath.sep b) as Hlo.
    pose proof (rfind_upper PosixPath.sep b) as Hup.
    assert (Hlen : length pre = S (length b)).
    { unfold pre. rewrite length_app. cbn. lia. }
    assert (Hlt : (rfind PosixPath.sep b <? Z.of_nat (length pre))%Z = true).
    { apply Z.ltb_lt. lia. }
    rewrite Hlt. cbn [andb].
    assert (Hex : existsb (fun c => negb (chr_eqb c PosixPath.extsep))
                    (PosixPath.slice (rfind PosixPath.sep b + 1) (Z.of_nat (length pre))
                       (pre ++ "."%char :: x)) = true).
    { apply existsb_exists. exists z. split.
      - unfold PosixPath.slice.
        set (i := Z.to_nat (rfind PosixPath.sep b + 1)).
        assert (Hi : i <= length b) by (unfold i; lia).
        replace (Z.to_nat (Z.of_nat (length pre) - (rfind PosixPath.sep b + 1)))
          with (length b - i + 1) by (unfold i; lia).
        unfold pre. rewrite <- app_assoc, skipn_app.
        replace (i - length b) with 0 by lia. cbn [skipn].
        rewrite firstn_app, length_skipn.
        replace (length b - i + 1 - (length b - i)) with 1 by lia.
        apply in_or_app. right. cbn. now left.
      - destruct (chr_eqb z PosixPath.extsep) eqn:Ez; [|reflexivity].
        apply chr_eqb_eq in Ez. subst z. exfalso. apply Hnd.
        apply in_or_app. right. now left. }
    rewrite Hex. cbn [snd]. unfold from. rewrite Nat2Z.id.
    rewrite skipn_app, Nat.sub_diag, skipn_all. reflexivity.
Qed.

Lemma year_digits y :
  (1900 <= y <= 2099)%Z -> Forall (fun d => is_digit d = true) (str_of_int y).
Proof.
  intro H.
  assert (E : forallb (fun k => forallb is_digit (str_of_int (Z.of_nat k))) (seq 1900 200)
              = true) by (vm_compute; reflexivity).
  rewrite forallb_forall in E. specialize (E (Z.to_nat y)).
  rewrite Z2Nat.id in E by lia.
  apply Forall_forall. apply forallb_forall. apply E. apply in_seq. lia.
Qed.

(** ** The name of an episode is not taken for a film *)

Lemma episode_name_tokens sh a b c d :
  settled sh = true ->
  is_digit a = true -> is_digit b = true -> is_digit c = true -> is_digit d = true ->
  Spec.tokens (sh ++ L" - S" ++ [a; b] ++ L"E" ++ [c; d])
  = Spec.tokens sh ++ [L"-"; L"S" ++ [a; b] ++ L"E" ++ [c; d]].
Proof.
  intros Ht Ha Hb Hc Hd.
  apply settled_shape in Ht as (b0 & z & Eb & Hz & _ & _ & Hnd & _).
  assert (Hpz : is_dot_or_space z = false).
  { unfold is_dot_or_space. apply orb_false_iff. split.
    - destruct (chr_eqb z ".") eqn:E; [|reflexivity]. apply chr_eqb_eq in E.
      subst z. exfalso. apply Hnd. rewrite Eb. apply in_or_app. right. now left.
    - destruct (is_space z) eqn:E; [|reflexivity]. apply separator_of_space in E. congruence. }
  destruct (digit_facts a Ha) as (_ & _ & Pa). destruct (digit_facts b Hb) as (_ & _ & Pb).
  destruct (digit_facts c Hc) as (_ & _ & Pc). destruct (digit_facts d Hd) as (_ & _ & Pd).
  unfold Spec.tokens, Re.split_plus. rewrite Eb.
  rewrite (split_go_app is_dot_or_space false [] b0 z _ Hpz).
  set (X := Re.split_go is_dot_or_space false [] (b0 ++ [z])).
  cbn [list_ascii_of_string app Re.split_go].
  replace (is_dot_or_space " ") with true by reflexivity.
  replace (is_dot_or_space "-") with false by reflexivity.
  replace (is_dot_or_space "S") with false by reflexivity.
  replace (is_dot_or_space "E") with false by reflexivity.
  rewrite Pa, Pb, Pc, Pd. cbn [app].
  transitivity ((removelast X ++ [last X []])
                  ++ [["-"%char]; ["S"%char; a; b; "E"%char; c; d]]).
  - now rewrite <- app_assoc.
  - now rewrite <- (app_removelast_last (l := X) []) by apply split_go_nonempty.
Qed.

Lemma episode_name_not_film sh s e ext :
  settled sh = true -> (0 <= s <= 99)%Z -> (0 <= e <= 99)%Z ->
  parse_movie sh = None ->
  snd (PosixPath.splitext (episode_name sh s e ext)) = ext ->
  parse_movie (episode_name sh s e ext) = None.
Proof.
  intros Ht Hs He Hm Hext.
  destruct (two_digits_shape _ (fmt02_two_digits s Hs)) as (a1 & a2 & Es & Ha1 & Ha2).
  destruct (two_digits_shape _ (fmt02_two_digits e He)) as (e1 & e2 & Ee & He1 & He2).
  assert (Hstem : fst (PosixPath.splitext (episode_name sh s e ext))
                  = sh ++ L" - S" ++ [a1; a2] ++ L"E" ++ [e1; e2]).
  { unfold episode_name in *. rewrite Es, Ee in *.
    rewrite !app_assoc in *. now apply stem_of_name. }
  pose proof Ht as Hshape.
  apply settled_shape in Hshape as (b & z & Eb & Hz & _ & _ & Hnd & Hh).
  rewrite parse_movie_as_spec in *. unfold Spec.parseMovie, Spec.base_name in *.
  rewrite Hstem, (episode_name_tokens sh a1 a2 e1 e2 Ht Ha1 Ha2 He1 He2).
  rewrite (splitext_dotless sh Hnd) in Hm. cbn [fst] in Hm.
  set (X := Spec.tokens sh) in *.
  destruct (Spec.first_year X) eqn:E; [discriminate|].
  assert (F : Spec.first_year (X ++ [L"-"; L"S" ++ [a1; a2] ++ L"E" ++ [e1; e2]]) = None).
  { change (X ++ [L"-"; L"S" ++ [a1; a2] ++ L"E" ++ [e1; e2]])
      with (X ++ [L"-"] ++ [L"S" ++ [a1; a2] ++ L"E" ++ [e1; e2]]).
    rewrite app_assoc. apply first_year_app; [|reflexivity].
    now apply first_year_app. }
  match goal with
  | |- context [Spec.first_year ?l] =>
      replace (Spec.first_year l) with (@None nat) by (symmetry; exact F)
  end.
  destruct X as [|x0 [|x1 X']] eqn:EX.
  - exfalso. apply (split_go_nonempty is_dot_or_space false [] sh). exact EX.
  - reflexivity.
  - cbn [app length Nat.leb nth andb] in *.
    destruct (Spec.is_resolution_marker x1); [discriminate|reflexivity].
Qed.

Lemma parse_tv_episode f tv : parse_tv f = Some tv -> (0 <= episode tv <= 99)%Z.
Proof.
  rewrite parse_tv_as_spec. unfold Spec.parseEpisode.
  destruct (Spec.search_marker _) as [[name [s e]]|] eqn:E; [|discriminate].
  intros [= <-]. cbn [episode].
  apply search_marker_digits in E as [_ He]. now apply short_number_bound.
Qed.

Lemma parsed_year_digits f m y :
  parse_movie f = Some m -> year m = Some y ->
  Forall (fun d => is_digit d = true) (str_of_int y).
Proof.
  rewrite parse_movie_as_spec. unfold Spec.parseMovie.
  destruct (Spec.first_year _) as [i|] eqn:E.
  - intros [= <-]. cbn [year]. intros [= <-].
    apply first_year_sound in E as [_ E]. unfold Spec.is_year_token in E.
    apply andb_true_iff in E as [E H2]. apply andb_true_iff in E as [_ H1].
    apply Z.leb_le in H1, H2. apply year_digits. lia.
  - destruct (_ && _); [|discriminate]. intros [= <-]. discriminate.
Qed.

Lemma film_fallback_name {W D} (tr : transport W) f m (w : world W D) :
  parse_movie f = Some m ->
  fst (tr (SearchMovie (title m) (year m)) (net w)) = inr [] ->
  fst (get_new_name tr f w)
  = inr (title m ++ bracketed (year m) ++ snd (PosixPath.splitext f)).
Proof.
  intros Hm Hmiss. pose proof (parsed_year_counts f m Hm) as Hy.
  unfold get_new_name. rewrite Hm. unfold search_movie, bind, requests_get.
  rewrite Hy. destruct (tr (SearchMovie (title m) (year m)) (net w)) as [res n'].
  cbn [fst] in Hmiss. subst res. cbn [ret fst snd].
  destruct (year m) as [y|] eqn:Ey.
  - unfold year_param in Hy. destruct (truthy_int (Some y)); [|discriminate].
    cbn [ret fst bracketed]. now rewrite <- !app_assoc.
  - reflexivity.
Qed.

Lemma digits_dotless y : Forall (fun d => is_digit d = true) y -> ~ In "."%char y.
Proof.
  intros H Hin. rewrite Forall_forall in H. specialize (H _ Hin). discriminate.
Qed.

(** X21.  Renaming a film twice is renaming it once, when the catalog does not
    know the film: if the title the parser read is settled and is not taken
    for a film by itself, the name [get_new_name] gives the file is a name
    it gives back unchanged, without asking the catalog again. *)
Theorem film_renaming_is_idempotent {W D} (tr : transport W) f m (w : world W D) :
  parse_movie f = Some m ->
  settled (title m) = true ->
  parse_movie (title m) = None ->
  fst (tr (SearchMovie (title m) (year m)) (net w)) = inr [] ->
  exists n1 w1,
    get_new_name tr f w = (inr n1, w1)
    /\ get_new_name tr n1 w1 = (inr n1, w1).
Proof.
  intros Hm Ht Hnone Hmiss.
  pose proof (film_fallback_name tr f m w Hm Hmiss) as Hrun.
  exists (title m ++ bracketed (year m) ++ snd (PosixPath.splitext f)),
    (snd (get_new_name tr f w)).
  split.
  - destruct (get_new_name tr f w) as [r w1]. cbn [fst snd] in *. now subst r.
  - apply unparsed_name.
    pose proof Ht as Hshape.
    apply settled_shape in Hshape as (b & z & Eb & Hz & _ & _ & Hnd & _).
    destruct (year m) as [y|] eqn:Ey; cbn [bracketed].
    + pose proof (parsed_year_digits f m y Hm Ey) as Hd.
      rewrite <- !app_assoc.
      apply (film_name_unparsed (title m) (str_of_int y)); try assumption.
      unfold film_name.
      replace (title m ++ L" (" ++ str_of_int y ++ L")" ++ snd (PosixPath.splitext f))
        with (((title m ++ L" (" ++ str_of_int y) ++ [")"%char])
                ++ snd (PosixPath.splitext f))
        by (now rewrite <- !app_assoc).
      apply splitext_rejoined; [discriminate|].
      rewrite !in_app_iff. intros [[H|[H|H]]|H].
      * contradiction.
      * cbn in H. intuition discriminate.
      * now apply (digits_dotless _ Hd).
      * cbn in H. intuition discriminate.
    + cbn [app]. apply title_unparsed; try assumption.
      rewrite Eb. apply splitext_rejoined; [|now rewrite <- Eb].
      intros ->. discriminate.
Qed.

Lemma film_renaming_is_idempotent_witness :
  exists n1 w1,
    get_new_name no_results L"Blade.Runner.1982.1080p.mkv"
      (start (window L"k" L"/m/film") film_disk) = (inr n1, w1)
    /\ get_new_name no_results n1 w1 = (inr n1, w1).
Proof.
  apply (film_renaming_is_idempotent no_results L"Blade.Runner.1982.1080p.mkv"
           {| title := L"Blade Runner"; year := Some 1982%Z |}
           (start (window L"k" L"/m/film") film_disk)); reflexivity.
Defined.

(** X22.  Renaming an episode twice is renaming it once, when the catalog does
    not know the show: if the show name the parser read is settled and is
    not taken for a film by itself, the name [get_new_name] gives the file
    is a name it gives back unchanged. *)
Theorem episode_renaming_is_idempotent {W D} (tr : transport W) f tv (w : world W D) :
  parse_movie f = None ->
  parse_tv f = Some tv ->
  settled (show tv) = true ->
  parse_movie (show tv) = None ->
  (forall n, fst (tr (SearchTv (show tv) None) n) = inr []) ->
  exists n1 w1,
    get_new_name tr f w = (inr n1, w1)
    /\ fst (get_new_name tr n1 w1) = inr n1.
Proof.
  intros Hm Htv Hsh Hnone Hmiss.
  pose proof (parse_tv_season f tv Htv) as Hs.
  pose proof (parse_tv_episode f tv Htv) as He.
  set (ext := snd (PosixPath.splitext f)).
  set (n1 := episode_name (show tv) (season tv) (episode tv) ext).
  assert (Hrun : fst (get_new_name tr f w) = inr n1).
  { unfold get_new_name. rewrite Hm, Htv. unfold bind. rewrite search_tv_run.
    unfold requests_get. change (year_param None) with (@None Z).
    pose proof (Hmiss (net w)) as H0.
    destruct (tr (SearchTv (show tv) None) (net w)) as [res n']. cbn [fst] in H0.
    subst res. reflexivity. }
  exists n1, (snd (get_new_name tr f w)). split.
  { destruct (get_new_name tr f w) as [r w1]. cbn [fst snd] in *. now subst r. }
  set (w1 := snd (get_new_name tr f w)).
  assert (Hext : snd (PosixPath.splitext n1) = ext).
  { destruct (two_digits_shape _ (fmt02_two_digits _ Hs)) as (a1 & a2 & Es & Ha1 & Ha2).
    destruct (two_digits_shape _ (fmt02_two_digits _ He)) as (e1 & e2 & Ee & He1 & He2).
    pose proof Hsh as Hshape.
    apply settled_shape in Hshape as (b & z & Eb & Hz & _ & _ & Hnd & _).
    unfold n1, episode_name. rewrite Es, Ee.
    replace (show tv ++ L" - S" ++ [a1; a2] ++ L"E" ++ [e1; e2] ++ ext)
      with (((show tv ++ L" - S" ++ [a1; a2] ++ L"E" ++ [e1]) ++ [e2]) ++ ext)
      by (now rewrite <- !app_assoc).
    apply splitext_rejoined.
    - intros ->. discriminate.
    - rewrite !in_app_iff. intros [[H|[H|[H|[H|H]]]]|H].
      + contradiction.
      + cbn in H. intuition discriminate.
      + cbn in H. destruct H as [H|[H|[]]]; subst; discriminate.
      + cbn in H. intuition discriminate.
      + cbn in H. destruct H as [H|[]]; subst; discriminate.
      + cbn in H. destruct H as [H|[]]; subst; discriminate. }
  pose proof (episode_name_not_film (show tv) (season tv) (episode tv) ext
                Hsh Hs He Hnone Hext) as Hfilm.
  fold n1 in Hfilm.
  unfold get_new_name. rewrite Hfilm, Hext. rewrite parse_tv_as_spec.
  unfold Spec.parseEpisode, n1.
  rewrite (episode_name_marker (show tv) (season tv) (episode tv) ext Hsh Hs He),
    (settled_show (show tv) Hsh).
  rewrite !fmt02_round_trip by assumption. cbn [show season episode].
  unfold bind. rewrite search_tv_run. unfold requests_get.
  change (year_param None) with (@None Z).
  pose proof (Hmiss (net w1)) as H1.
  destruct (tr (SearchTv (show tv) None) (net w1)) as [res n']. cbn [fst] in H1.
  subst res. reflexivity.
Qed.

Lemma episode_renaming_is_idempotent_witness :
  exists n1 w1,
    get_new_name no_results L"Breaking.Bad.S01E02.720p.mkv"
      (start (window L"k" L"/m/show") show_disk) = (inr n1, w1)
    /\ fst (get_new_name no_results n1 w1) = inr n1.
Proof.
  apply (episode_renaming_is_idempotent no_results L"Breaking.Bad.S01E02.720p.mkv"
           {| show := L"Breaking Bad"; season := 1; episode := 2 |}
           (start (window L"k" L"/m/show") show_disk)); reflexivity.
Defined.
